(** * hono-zod-asyncapi: the schema-to-specification compiler

    A shallow embedding of
      - [src/zod-to-schema.ts]  (the schema translator),
      - [src/registry.ts]       (the channel registry),
      - [src/generator.ts]      (the document generator and the server
                                 helpers),
      - [src/asyncapi-hono.ts]  (the application class and the text
                                 emitter [convertToYAML]),
      - [createUnifiedServers] of [src/integration.ts],
    together with the properties the specification states about them and
    further properties read off the code.

    A [Map] keeps its keys in insertion order and the generator numbers
    schemas in iteration order, so maps are association lists with an
    in-place update ([OMap]). A plain object lists its own keys with the
    array indices first, in ascending order, and assigning to the key
    [__proto__] adds no key; assignments under a name the caller chooses (a
    field name, a channel id) go through [Obj.assign], which does both. The
    registries themselves live in an object store ([gmap nat Registry])
    because [merge] receives a second registry by reference. *)

From Stdlib Require Import Ascii String List ZArith Lia.
From Stdlib Require Import DecimalString DecimalNat DecimalN.
From stdpp Require Import base list strings gmap sorting.

Set Default Proof Using "Type".
Set Warnings "-register-all,-notation-for-abbreviation".

#[local] Arguments String.append !s1 s2 / : simpl nomatch.


(* ===================================================================== *)
(** ** Strings *)
(* ===================================================================== *)

Module Str.

Definition nl : string := String (ascii_of_nat 10) EmptyString.
Definition dquote : string := String (ascii_of_nat 34) EmptyString.
Definition underscore : ascii := ascii_of_nat 95.

  (** [String(n)] for a non-negative integer counter: its decimal digits. *)
Definition of_nat (n : nat) : string :=
    NilZero.string_of_uint (Nat.to_uint n).

  (** [String(z)] for an integer-valued number. *)
Definition of_Z (z : Z) : string :=
    NilZero.string_of_int (Z.to_int z).

Definition of_N (n : N) : string :=
    NilZero.string_of_uint (N.to_uint n).

  (** [s.repeat(n)]. *)
Fixpoint repeat (s : string) (n : nat) : string :=
    match n with
    | O => EmptyString
    | S n' => s +:+ repeat s n'
    end.

  (** [s.endsWith(suffix)]. *)
Definition ends_with (s suffix : string) : Prop :=
    exists front, s = front +:+ suffix.

Fixpoint mem (c : ascii) (s : string) : bool :=
    match s with
    | EmptyString => false
    | String c' s' => if Ascii.eqb c' c then true else mem c s'
    end.

(** [s.startsWith(prefix)] and [s.includes(part)]. *)
Fixpoint starts_with (prefix s : string) : bool :=
  match prefix, s with
  | EmptyString, _ => true
  | String a prefix', String b s' => Ascii.eqb a b && starts_with prefix' s'
  | String _ _, EmptyString => false
  end.

Fixpoint includes (part s : string) : bool :=
  starts_with part s ||
  match s with
  | EmptyString => false
  | String _ s' => includes part s'
  end.

End Str.

(* ===================================================================== *)
(** ** Insertion-ordered maps

    [Map.prototype.set], and [obj[k] = v] for a key that is neither an array
    index nor [__proto__]: an existing key keeps its position and gets the
    new value, a new key goes to the end. *)
(* ===================================================================== *)

Module OMap.
Section omap.
Context {V : Type}.

Fixpoint get (m : list (string * V)) (k : string) : option V :=
    match m with
    | [] => None
    | (k', v) :: m' => if String.eqb k' k then Some v else get m' k
    end.

Fixpoint set (m : list (string * V)) (k : string) (v : V) : list (string * V) :=
    match m with
    | [] => [(k, v)]
    | (k', v') :: m' =>
        if String.eqb k' k then (k', v) :: m' else (k', v') :: set m' k v
    end.

Definition keys (m : list (string * V)) : list string := map fst m.

Definition has (m : list (string * V)) (k : string) : bool :=
    match get m k with Some _ => true | None => false end.

  (** A sequence of assignments, oldest first. *)
Definition set_all (m : list (string * V)) (ws : list (string * V)) :
    list (string * V) :=
    fold_left (fun acc w => set acc (fst w) (snd w)) ws m.

End omap.
End OMap.

Abbreviation omap V := (list (string * V)) (only parsing).

(* ===================================================================== *)
(** ** Plain objects

    The own enumerable properties of an object, in the order [for (k in o)],
    [Object.keys] and [JSON.stringify] visit them: the keys that are array
    indices in ascending numeric order, then the other keys in the order of
    their creation. *)
(* ===================================================================== *)

Module Obj.
Section obj.
Context {V : Type}.

(** The key [__proto__]: on an object made by [{}] it is the accessor
    inherited from [Object.prototype], so [o[proto] = v] sets (or leaves) the
    prototype and creates no property. *)
Definition proto : string := "__proto__".

(** An array index is the decimal numeral, without leading zeros, of an
    integer from 0 to 2^32 - 2. *)
Definition arrayIndex (k : string) : option N :=
  match NilZero.uint_of_string k with
  | Some d =>
      let n := N.of_uint d in
      if String.eqb (Str.of_N n) k && (n <? 4294967295)%N
      then Some n else None
  | None => None
  end.

(** A property under the array index [n] (whose numeral is [k]): in place
    when the object has it, and otherwise before the first key that is a
    larger index or no index. *)
Fixpoint insertIndex (n : N) (k : string) (v : V) (o : list (string * V)) :
    list (string * V) :=
  match o with
  | [] => [(k, v)]
  | (k', v') :: o' =>
      match arrayIndex k' with
      | Some n' =>
          if (n' <? n)%N then (k', v') :: insertIndex n k v o'
          else if (n' =? n)%N then (k', v) :: o'
          else (k, v) :: (k', v') :: o'
      | None => (k, v) :: (k', v') :: o'
      end
  end.

(** Creating or overwriting the own property [k], as a computed key of an
    object literal does. *)
Definition define (o : list (string * V)) (k : string) (v : V) :
    list (string * V) :=
  match arrayIndex k with
  | Some n => insertIndex n k v o
  | None => OMap.set o k v
  end.

(** [o[k] = v] on an object whose prototype chain is that of [{}]. *)
Definition assign (o : list (string * V)) (k : string) (v : V) :
    list (string * V) :=
  if String.eqb k proto then o else define o k v.

(** A sequence of assignments, oldest first. *)
Definition assign_all (o : list (string * V)) (ws : list (string * V)) :
    list (string * V) :=
  fold_left (fun acc w => assign acc (fst w) (snd w)) ws o.

(** [{ [k1]: v1, ..., [kn]: vn }]: the object that declares the properties
    [k1], ..., [kn] in this order. *)
Definition literal (declared : list (string * V)) : list (string * V) :=
  fold_left (fun acc w => define acc (fst w) (snd w)) declared [].

End obj.

(** [k1] may come before [k2] among the keys of one object. *)
Definition before (k1 k2 : string) : Prop :=
  match arrayIndex k1, arrayIndex k2 with
  | Some n1, Some n2 => (n1 < n2)%N
  | Some _, None => True
  | None, Some _ => False
  | None, None => True
  end.

(** The lists that are objects: each key once, in enumeration order. *)
Definition wf {V : Type} (o : list (string * V)) : Prop :=
  StronglySorted before (OMap.keys o) /\ NoDup (OMap.keys o).

End Obj.

(* ===================================================================== *)
(** ** JavaScript values that end up in a document *)
(* ===================================================================== *)

Inductive JSON : Type :=
| JUndefined
| JNull
| JBool (b : bool)
| JNum (n : Z)
| JStr (s : string)
| JArr (items : list JSON)
| JObj (fields : list (string * JSON)).

(** [typeof v]. *)
Definition typeof (v : JSON) : string :=
  match v with
  | JUndefined => "undefined"
  | JNull => "object"
  | JBool _ => "boolean"
  | JNum _ => "number"
  | JStr _ => "string"
  | JArr _ => "object"
  | JObj _ => "object"
  end.

(** Truthiness, as tested by [if (v)], [v && ...] and [v || ...]. *)
Definition truthy (v : JSON) : bool :=
  match v with
  | JUndefined | JNull => false
  | JBool b => b
  | JNum n => negb (Z.eqb n 0)
  | JStr s => negb (String.eqb s EmptyString)
  | JArr _ | JObj _ => true
  end.

(** An optional string property read as a value: [undefined] when absent. *)
Definition opt_str (o : option string) : JSON :=
  match o with Some s => JStr s | None => JUndefined end.

(** Own key of an object value. *)
Definition has_key (k : string) (v : JSON) : bool :=
  match v with
  | JObj fields => OMap.has fields k
  | _ => false
  end.

Definition field (k : string) (v : JSON) : option JSON :=
  match v with
  | JObj fields => OMap.get fields k
  | _ => None
  end.

(** [{...v}]: the own enumerable properties of [v]. *)
Definition spread (v : JSON) : list (string * JSON) :=
  match v with
  | JObj fields => fields
  | _ => []
  end.

(* ===================================================================== *)
(** ** Validation-schema nodes (the part of Zod the translator reads) *)
(* ===================================================================== *)

(** What the translator reads from [_def] besides the kind-specific fields. *)
Record ZodMeta : Type := {
  description : option string;
  openapi : option JSON
}.

Definition no_meta : ZodMeta := {| description := None; openapi := None |}.

(** One constructor per [typeName] the translator has a case for, and
    [ZodOther] for a node of any other kind ([ZodAny], [ZodNull],
    [ZodTuple], [ZodMap], ...), which the [switch] sends to [default]. The
    [shape] of an object is the object [def.shape()] returns: its fields in
    the order [for (key in shape)] visits them, which for an object declared
    by a literal is [Obj.literal] of the declaration. *)
Inductive ZodType : Type :=
| ZodString (m : ZodMeta)
| ZodNumber (m : ZodMeta)
| ZodBoolean (m : ZodMeta)
| ZodArray (type : ZodType) (m : ZodMeta)
| ZodObject (shape : list (string * ZodType)) (m : ZodMeta)
| ZodEnum (values : list string) (m : ZodMeta)
| ZodLiteral (value : JSON) (m : ZodMeta)
| ZodUnion (options : list ZodType) (m : ZodMeta)
| ZodDiscriminatedUnion (options : list ZodType) (m : ZodMeta)
| ZodOptional (innerType : ZodType) (m : ZodMeta)
| ZodNullable (innerType : ZodType) (m : ZodMeta)
| ZodDefault (innerType : ZodType) (defaultValue : JSON) (m : ZodMeta)
| ZodRecord (valueType : ZodType) (m : ZodMeta)
| ZodOther (typeName : string) (m : ZodMeta).

Definition meta_of (schema : ZodType) : ZodMeta :=
  match schema with
  | ZodString m | ZodNumber m | ZodBoolean m | ZodArray _ m | ZodObject _ m
  | ZodEnum _ m | ZodLiteral _ m | ZodUnion _ m | ZodDiscriminatedUnion _ m
  | ZodOptional _ m | ZodNullable _ m | ZodDefault _ _ m | ZodRecord _ m
  | ZodOther _ m => m
  end.

(** The kinds the [switch] of [generateSchemaFromZod] has a case for. *)
Definition supported (schema : ZodType) : bool :=
  match schema with
  | ZodOther _ _ => false
  | _ => true
  end.

(* ===================================================================== *)
(** ** The schema translator, [src/zod-to-schema.ts] *)
(* ===================================================================== *)

(** [extractMetadata(def)]: the description, when it is a non-empty string. *)
Definition extractMetadata (m : ZodMeta) : list (string * JSON) :=
  match description m with
  | Some d => if truthy (JStr d) then [("description", JStr d)] else []
  | None => []
  end.

Section Translator.

  (** [schema.isOptional()] is Zod's own method; the translator only uses its
      answer. *)
Variable isOptional : ZodType -> bool.

Section Shape.
Variable translate : ZodType -> JSON.

    (** The [for (const key in shape)] loop of the [ZodObject] case. *)
Fixpoint shapeLoop (shape : list (string * ZodType))
        (properties : list (string * JSON)) (required : list string) :
        list (string * JSON) * list string :=
      match shape with
      | [] => (properties, required)
      | (key, fld) :: rest =>
          shapeLoop rest
            (Obj.assign properties key (translate fld))
            (if isOptional fld then required else required ++ [key])
      end.
End Shape.

Fixpoint generateSchemaFromZod (schema : ZodType) : JSON :=
    match schema with
    | ZodString m =>
        JObj (OMap.set_all [("type", JStr "string")] (extractMetadata m))
    | ZodNumber m =>
        JObj (OMap.set_all [("type", JStr "number")] (extractMetadata m))
    | ZodBoolean m =>
        JObj (OMap.set_all [("type", JStr "boolean")] (extractMetadata m))
    | ZodArray type m =>
        JObj (OMap.set_all
                [("type", JStr "array"); ("items", generateSchemaFromZod type)]
                (extractMetadata m))
    | ZodObject shape m =>
        let '(properties, required) :=
          shapeLoop generateSchemaFromZod shape [] [] in
        JObj (OMap.set_all
                (OMap.set_all
                   [("type", JStr "object"); ("properties", JObj properties)]
                   (if (0 <? length required)%nat
                    then [("required", JArr (map JStr required))] else []))
                (extractMetadata m))
    | ZodEnum values m =>
        JObj (OMap.set_all
                [("type", JStr "string"); ("enum", JArr (map JStr values))]
                (extractMetadata m))
    | ZodLiteral value m =>
        JObj (OMap.set_all
                [("type", JStr (typeof value)); ("enum", JArr [value])]
                (extractMetadata m))
    | ZodUnion options m
    | ZodDiscriminatedUnion options m =>
        JObj (OMap.set_all
                [("oneOf", JArr (map generateSchemaFromZod options))]
                (extractMetadata m))
    | ZodOptional innerType _ => generateSchemaFromZod innerType
    | ZodNullable innerType _ =>
        let innerSchema := generateSchemaFromZod innerType in
        JObj (OMap.set (spread innerSchema) "nullable" (JBool true))
    | ZodDefault innerType defaultValue _ =>
        JObj (OMap.set (spread (generateSchemaFromZod innerType))
                "default" defaultValue)
    | ZodRecord valueType m =>
        JObj (OMap.set_all
                [("type", JStr "object");
                 ("additionalProperties", generateSchemaFromZod valueType)]
                (extractMetadata m))
    | ZodOther _ _ => JObj [("type", JStr "object")]
    end.

  (** [zodToAsyncAPISchema]: metadata attached under [_def.openapi] is
      returned as it is, otherwise the node is translated. *)
Definition zodToAsyncAPISchema (schema : ZodType) : JSON :=
    match openapi (meta_of schema) with
    | Some generator =>
        if truthy generator then generator else generateSchemaFromZod schema
    | None => generateSchemaFromZod schema
    end.

End Translator.

(** The answer of [isOptional()] on the nodes used in the examples below: a
    node wrapped by [.optional()] accepts [undefined], the plain kinds do
    not. *)
Definition wrappedOptional (schema : ZodType) : bool :=
  match schema with
  | ZodOptional _ _ => true
  | _ => false
  end.

(** The fields of an object schema that go to [required], and the others. *)
Definition nonOptionalFields (isOptional : ZodType -> bool)
    (shape : list (string * ZodType)) : list (string * ZodType) :=
  List.filter (fun e => negb (isOptional (snd e))) shape.

Definition optionalFields (isOptional : ZodType -> bool)
    (shape : list (string * ZodType)) : list (string * ZodType) :=
  List.filter (fun e => isOptional (snd e)) shape.

(** No truthy [_def.openapi] on the node itself. *)
Definition no_openapi (schema : ZodType) : bool :=
  match openapi (meta_of schema) with
  | Some generator => negb (truthy generator)
  | None => true
  end.


(* ===================================================================== *)
(** ** Channel configuration, [src/types.ts] *)
(* ===================================================================== *)

Record MessageConfig : Type := {
  payload : option ZodType;
  headers : option ZodType;
  contentType : option string;
  msg_description : option string;
  msg_summary : option string;
  msg_name : option string
}.

Record ChannelConfig : Type := {
  path : string;
  cfg_description : option string;
  send : option MessageConfig;
  receive : option MessageConfig;
  parameters : option (list (string * ZodType));
  servers : option (list string);
  tags : option (list string)
}.

(** A handler is opaque to the compiler: only its identity is kept. *)
Definition ChannelHandler : Type := nat.

Record OperationMetadata : Type := {
  operationId : string;
  op_summary : option string;
  op_description : option string;
  op_tags : option (list string)
}.

Record Operations : Type := {
  ops_send : option OperationMetadata;
  ops_receive : option OperationMetadata
}.

Record RegisteredChannel : Type := {
  config : ChannelConfig;
  handler : option ChannelHandler;
  operations : Operations
}.

Inductive Direction : Type := Send | Receive.

Definition direction_name (d : Direction) : string :=
  match d with Send => "send" | Receive => "receive" end.

Definition message_of (d : Direction) (c : ChannelConfig) : option MessageConfig :=
  match d with Send => send c | Receive => receive c end.

Definition operation_of (d : Direction) (o : Operations) : option OperationMetadata :=
  match d with Send => ops_send o | Receive => ops_receive o end.

(* ===================================================================== *)
(** ** The channel registry, [src/registry.ts] *)
(* ===================================================================== *)

(** The two private fields of [AsyncAPIRegistry]. The counter is a JavaScript
    number that only ever goes through [++] from [0]; it is a natural number
    here. *)
Record Registry : Type := {
  channels : list (string * RegisteredChannel);
  operationCounter : nat
}.

(** [new AsyncAPIRegistry()]. *)
Definition fresh : Registry := {| channels := []; operationCounter := 0 |}.

(** The template literal [`${direction}_${id}_${counter}`]. *)
Definition operation_id (d : Direction) (id : string) (counter : nat) : string :=
  direction_name d +:+ "_" +:+ id +:+ "_" +:+ Str.of_nat counter.

(** One [if (config.<direction>) { operations.<direction> = ... }] block:
    the metadata, and the counter after its [++]. *)
Definition allocate (d : Direction) (id : string) (cfg : ChannelConfig)
    (counter : nat) : option OperationMetadata * nat :=
  match message_of d cfg with
  | Some msg =>
      (Some {| operationId := operation_id d id counter;
               op_summary := msg_summary msg;
               op_description := msg_description msg;
               op_tags := tags cfg |},
       S counter)
  | None => (None, counter)
  end.

Definition registerChannel (id : string) (cfg : ChannelConfig)
    (h : option ChannelHandler) (this : Registry) : Registry :=
  let '(op_send, c1) := allocate Send id cfg (operationCounter this) in
  let '(op_receive, c2) := allocate Receive id cfg c1 in
  {| channels :=
       OMap.set (channels this) id
         {| config := cfg; handler := h;
            operations := {| ops_send := op_send; ops_receive := op_receive |} |};
     operationCounter := c2 |}.

Definition getChannel (id : string) (this : Registry) : option RegisteredChannel :=
  OMap.get (channels this) id.

Definition getAllChannels (this : Registry) : list (string * RegisteredChannel) :=
  channels this.

Definition clear (this : Registry) : Registry :=
  {| channels := []; operationCounter := 0 |}.

(** [for (const [id, channel] of other.getAllChannels())
      this.channels.set(id, channel)]; the counter of [this] is not touched. *)
Definition merge (other : Registry) (this : Registry) : Registry :=
  {| channels := OMap.set_all (channels this) (getAllChannels other);
     operationCounter := operationCounter this |}.

(** Every operation identifier stored in a registry, in iteration order. *)
Definition operation_ids_of (o : Operations) : list string :=
  match ops_send o with Some m => [operationId m] | None => [] end ++
  match ops_receive o with Some m => [operationId m] | None => [] end.

Definition operationIds (r : Registry) : list string :=
  flat_map (fun e => operation_ids_of (operations (snd e))) (channels r).

(** The directions of a configuration that get an identifier, and those
    that get theirs before direction [d] does. *)
Definition directionsPresent (cfg : ChannelConfig) : nat :=
  (match send cfg with Some _ => 1 | None => 0 end
   + match receive cfg with Some _ => 1 | None => 0 end)%nat.

Definition directionsBefore (d : Direction) (cfg : ChannelConfig) : nat :=
  match d with
  | Send => 0
  | Receive => match send cfg with Some _ => 1 | None => 0 end
  end.

(** What [registerChannel] establishes for the entry it stores under [k]:
    each identifier in it is made from the direction it belongs to and from
    [k]. *)
Definition entryNamed (k : string) (e : RegisteredChannel) : Prop :=
  forall d meta,
    operation_of d (operations e) = Some meta ->
    exists n, operationId meta = operation_id d k n.

(** A [Map] holds one entry per key. *)
Definition uniqueKeys (r : Registry) : Prop := NoDup (OMap.keys (channels r)).

Definition registryInv (r : Registry) : Prop :=
  uniqueKeys r /\ forall k e, (k, e) ∈ channels r -> entryNamed k e.

(** *** Registries as objects

    Registries are objects handled by reference: [a.merge(b)] may be called
    with [a] and [b] the same object. The store maps an object identity to
    the state of that registry; an identity never written to is a registry
    as the constructor leaves it. *)

#[export] Instance Registry_inhabited : Inhabited Registry := populate fresh.

Abbreviation Store := (gmap nat Registry).

Inductive Call : Type :=
| CallRegisterChannel (this : nat) (id : string) (cfg : ChannelConfig)
    (h : option ChannelHandler)
| CallGetChannel (this : nat) (id : string)
| CallGetAllChannels (this : nat)
| CallClear (this : nat)
| CallMerge (this other : nat).

(** The effect of a method call on the store. For [this = other] the loop of
    [merge] walks the very map it assigns to; every key it assigns already
    exists there, so the walk meets the entries it would meet in a copy. *)
Definition exec (c : Call) (st : Store) : Store :=
  match c with
  | CallRegisterChannel this id cfg h =>
      <[this := registerChannel id cfg h (st !!! this)]> st
  | CallGetChannel _ _ => st
  | CallGetAllChannels _ => st
  | CallClear this => <[this := clear (st !!! this)]> st
  | CallMerge this other => <[this := merge (st !!! other) (st !!! this)]> st
  end.

Definition run (cs : list Call) (st : Store) : Store :=
  fold_left (fun s c => exec c s) cs st.

Definition is_clear (c : Call) : bool :=
  match c with CallClear _ => true | _ => false end.

(* ===================================================================== *)
(** ** The document generator, [src/generator.ts] *)
(* ===================================================================== *)

(** [ComponentsObject]: the two maps the generator writes to, and the
    remaining keys ([parameters], [channels], ...), which it only copies.
    [schemas] and [messages] are either absent or maps, as the interface
    declares them. *)
Record ComponentsObject : Type := {
  schemas : option (list (string * JSON));
  messages : option (list (string * JSON));
  other_components : list (string * JSON)
}.

Record GeneratorOptions : Type := {
  info : JSON;
  opt_servers : option JSON;
  components : option ComponentsObject
}.

Record AsyncAPIDocument : Type := {
  asyncapi : string;
  doc_info : JSON;
  doc_servers : option JSON;
  doc_channels : list (string * JSON);
  doc_operations : list (string * JSON);
  doc_components : ComponentsObject
}.

(** [{ $ref: target }]. *)
Definition ref (target : string) : JSON := JObj [("$ref", JStr target)].

(** [tags && tags.length > 0 && { tags: tags.map(name => ({ name })) }],
    spread into an object literal. *)
Definition tags_entry (ts : option (list string)) : list (string * JSON) :=
  match ts with
  | Some l =>
      if (0 <? length l)%nat
      then [("tags", JArr (map (fun name => JObj [("name", JStr name)]) l))]
      else []
  | None => []
  end.

(** [config.servers && { servers: config.servers.map(...) }]. *)
Definition servers_entry (ss : option (list string)) : list (string * JSON) :=
  match ss with
  | Some l => [("servers", JArr (map (fun s => ref ("#/servers/" +:+ s)) l))]
  | None => []
  end.

Section Generator.

Variable isOptional : ZodType -> bool.

(** [createMessageObject(messageConfig, components, counter)]: the message
    object, and [components.schemas] after the assignments. *)
Definition createMessageObject (messageConfig : MessageConfig)
    (schemas0 : list (string * JSON)) (counter : nat) :
    JSON * list (string * JSON) :=
  let message :=
    [("contentType",
      JStr (match contentType messageConfig with
            | Some c => if truthy (JStr c) then c else "application/json"
            | None => "application/json"
            end));
     ("name", opt_str (msg_name messageConfig));
     ("summary", opt_str (msg_summary messageConfig));
     ("description", opt_str (msg_description messageConfig))] in
  let '(message1, schemas1) :=
    match payload messageConfig with
    | Some p =>
        let schemaKey := "schema_" +:+ Str.of_nat counter in
        let schema := zodToAsyncAPISchema isOptional p in
        (OMap.set message "payload" (ref ("#/components/schemas/" +:+ schemaKey)),
         Obj.assign schemas0 schemaKey schema)
    | None => (message, schemas0)
    end in
  let '(message2, schemas2) :=
    match headers messageConfig with
    | Some h =>
        let headersKey := "headers_" +:+ Str.of_nat counter in
        let headersSchema := zodToAsyncAPISchema isOptional h in
        (OMap.set message1 "headers" (ref ("#/components/schemas/" +:+ headersKey)),
         Obj.assign schemas1 headersKey headersSchema)
    | None => (message1, schemas1)
    end in
  (JObj message2, schemas2).

(** The variables of [generateAsyncAPIDocument] that the loop assigns to. *)
Record GenState : Type := {
  g_channels : list (string * JSON);
  g_operations : list (string * JSON);
  g_schemas : list (string * JSON);
  g_messages : list (string * JSON);
  schemaCounter : nat;
  messageCounter : nat
}.

(** One of the two blocks [if (config.<d> && ops.<d>) { ... }] of the loop
    body; [channelMessages] is the per-channel map of the messages built. *)
Definition emitDirection (d : Direction) (channelId : string)
    (registered : RegisteredChannel)
    (acc : GenState * list (string * JSON)) : GenState * list (string * JSON) :=
  let '(st, channelMessages) := acc in
  match message_of d (config registered),
        operation_of d (operations registered) with
  | Some messageConfig, Some op =>
      let messageKey := channelId +:+ "_" +:+ direction_name d +:+ "_message" in
      let '(message, schemas1) :=
        createMessageObject messageConfig (g_schemas st) (schemaCounter st) in
      let operation :=
        JObj (OMap.set_all
                [("action", JStr (direction_name d));
                 ("channel", ref ("#/channels/" +:+ channelId));
                 ("summary", opt_str (op_summary op));
                 ("description", opt_str (op_description op));
                 ("messages",
                  JArr [ref ("#/components/messages/" +:+ messageKey)])]
                (tags_entry (op_tags op))) in
      ({| g_channels := g_channels st;
          g_operations := Obj.assign (g_operations st) (operationId op) operation;
          g_schemas := schemas1;
          g_messages := Obj.assign (g_messages st) messageKey message;
          schemaCounter := S (schemaCounter st);
          messageCounter := S (messageCounter st) |},
       Obj.assign channelMessages messageKey message)
  | _, _ => (st, channelMessages)
  end.

(** The body of [for (const [channelId, registered] of ...)]. *)
Definition channelStep (st : GenState) (entry : string * RegisteredChannel) :
    GenState :=
  let '(channelId, registered) := entry in
  let cfg := config registered in
  let '(st2, channelMessages) :=
    emitDirection Receive channelId registered
      (emitDirection Send channelId registered (st, [])) in
  let channel :=
    JObj (OMap.set_all
            (OMap.set_all
               [("address", JStr (path cfg));
                ("description", opt_str (cfg_description cfg));
                ("messages",
                 JObj (fold_left
                         (fun acc key =>
                            Obj.assign acc key
                              (ref ("#/components/messages/" +:+ key)))
                         (OMap.keys channelMessages) []))]
               (servers_entry (servers cfg)))
            (tags_entry (tags cfg))) in
  {| g_channels := Obj.assign (g_channels st2) channelId channel;
     g_operations := g_operations st2;
     g_schemas := g_schemas st2;
     g_messages := g_messages st2;
     schemaCounter := schemaCounter st2;
     messageCounter := messageCounter st2 |}.

(** [{ schemas: {}, messages: {}, ...(options.components || {}) }]: a map
    supplied by the caller is taken over as it is, by reference. *)
Definition initialState (options : GeneratorOptions) : GenState :=
  {| g_channels := [];
     g_operations := [];
     g_schemas :=
       match components options with
       | Some c => match schemas c with Some s => s | None => [] end
       | None => []
       end;
     g_messages :=
       match components options with
       | Some c => match messages c with Some s => s | None => [] end
       | None => []
       end;
     schemaCounter := 0;
     messageCounter := 0 |}.

(** The caller's [options] once the generator has returned: the maps it
    supplied under [components] are the ones the generator assigned to. *)
Definition optionsAfter (options : GeneratorOptions) (final : GenState) :
    GeneratorOptions :=
  {| info := info options;
     opt_servers := opt_servers options;
     components :=
       match components options with
       | Some c =>
           Some {| schemas :=
                     match schemas c with
                     | Some _ => Some (g_schemas final)
                     | None => None
                     end;
                   messages :=
                     match messages c with
                     | Some _ => Some (g_messages final)
                     | None => None
                     end;
                   other_components := other_components c |}
       | None => None
       end |}.

(** The loop over [registry.getAllChannels()]. *)
Definition generateLoop (entries : list (string * RegisteredChannel))
    (st : GenState) : GenState :=
  fold_left channelStep entries st.

(** [generateAsyncAPIDocument(registry, options)]: the document returned, and
    the [options] object as the call leaves it. *)
Definition generateAsyncAPIDocument (registry : Registry)
    (options : GeneratorOptions) : AsyncAPIDocument * GeneratorOptions :=
  let final := generateLoop (getAllChannels registry) (initialState options) in
  ({| asyncapi := "3.0.0";
      doc_info := info options;
      doc_servers :=
        match opt_servers options with
        | Some s => if truthy s then Some s else None
        | None => None
        end;
      doc_channels := g_channels final;
      doc_operations := g_operations final;
      doc_components :=
        {| schemas := Some (g_schemas final);
           messages := Some (g_messages final);
           other_components :=
             match components options with
             | Some c => other_components c
             | None => []
             end |} |},
   optionsAfter options final).

(** The object literal the generator returns, as the value handed to
    [JSON.stringify] and to [convertToYAML]. *)
Definition componentsJSON (c : ComponentsObject) : JSON :=
  JObj (OMap.set_all
          [("schemas", JObj (match schemas c with Some s => s | None => [] end));
           ("messages", JObj (match messages c with Some s => s | None => [] end))]
          (other_components c)).

Definition documentJSON (document : AsyncAPIDocument) : JSON :=
  JObj ([("asyncapi", JStr (asyncapi document)); ("info", doc_info document)]
        ++ match doc_servers document with
           | Some s => [("servers", s)]
           | None => []
           end
        ++ [("channels", JObj (doc_channels document));
            ("operations", JObj (doc_operations document));
            ("components", componentsJSON (doc_components document))]).

(** The generator as a caller of the registry object [this]: it reads the
    channel map through [getAllChannels] and calls nothing else. *)
Definition generate (this : nat) (options : GeneratorOptions) (st : Store) :
    (AsyncAPIDocument * GeneratorOptions) * Store :=
  let st1 := exec (CallGetAllChannels this) st in
  (generateAsyncAPIDocument (st1 !!! this) options, st1).

(** The messages the loop builds, in the order it builds them. *)
Definition processedMessages (entries : list (string * RegisteredChannel)) :
    list MessageConfig :=
  flat_map
    (fun e =>
       match send (config (snd e)), ops_send (operations (snd e)) with
       | Some m, Some _ => [m]
       | _, _ => []
       end ++
       match receive (config (snd e)), ops_receive (operations (snd e)) with
       | Some m, Some _ => [m]
       | _, _ => []
       end)
    entries.

(** The message that has the number [n], when the counter starts at [c]. *)
Definition owner (msgs : list MessageConfig) (c n : nat) : option MessageConfig :=
  if decide (c <= n)%nat then nth_error msgs (n - c) else None.

(** *** The assignments of one generation run

    What the loop assigns to [components.schemas], [components.messages],
    [operations] and [channels], as lists of assignments in the order they
    are made; [counter] is [schemaCounter] when the first of them is made. *)

(** The message object alone: it does not depend on the schemas there. *)
Definition messageObject (messageConfig : MessageConfig) (counter : nat) : JSON :=
  fst (createMessageObject messageConfig [] counter).

Definition schemaWrites (messageConfig : MessageConfig) (counter : nat) :
    list (string * JSON) :=
  match payload messageConfig with
  | Some p =>
      [("schema_" +:+ Str.of_nat counter, zodToAsyncAPISchema isOptional p)]
  | None => []
  end ++
  match headers messageConfig with
  | Some h =>
      [("headers_" +:+ Str.of_nat counter, zodToAsyncAPISchema isOptional h)]
  | None => []
  end.

Fixpoint messagesSchemaWrites (msgs : list MessageConfig) (counter : nat) :
    list (string * JSON) :=
  match msgs with
  | [] => []
  | m :: rest => schemaWrites m counter ++ messagesSchemaWrites rest (S counter)
  end.

(** A direction the loop body handles: [config.<d> && ops.<d>]. *)
Definition handled (d : Direction) (registered : RegisteredChannel) :
    option (MessageConfig * OperationMetadata) :=
  match message_of d (config registered),
        operation_of d (operations registered) with
  | Some m, Some op => Some (m, op)
  | _, _ => None
  end.

Definition messageKeyOf (channelId : string) (d : Direction) : string :=
  channelId +:+ "_" +:+ direction_name d +:+ "_message".

Definition operationObject (d : Direction) (channelId : string)
    (op : OperationMetadata) : JSON :=
  JObj (OMap.set_all
          [("action", JStr (direction_name d));
           ("channel", ref ("#/channels/" +:+ channelId));
           ("summary", opt_str (op_summary op));
           ("description", opt_str (op_description op));
           ("messages",
            JArr [ref ("#/components/messages/" +:+ messageKeyOf channelId d)])]
          (tags_entry (op_tags op))).

Definition directionMessageWrites (d : Direction) (channelId : string)
    (registered : RegisteredChannel) (counter : nat) : list (string * JSON) :=
  match handled d registered with
  | Some (m, _) => [(messageKeyOf channelId d, messageObject m counter)]
  | None => []
  end.

Definition directionOperationWrites (d : Direction) (channelId : string)
    (registered : RegisteredChannel) : list (string * JSON) :=
  match handled d registered with
  | Some (_, op) => [(operationId op, operationObject d channelId op)]
  | None => []
  end.

Definition directionSchemaWrites (d : Direction)
    (registered : RegisteredChannel) (counter : nat) : list (string * JSON) :=
  match handled d registered with
  | Some (m, _) => schemaWrites m counter
  | None => []
  end.

Definition handledCount (d : Direction) (registered : RegisteredChannel) : nat :=
  match handled d registered with Some _ => 1 | None => 0 end.

Definition channelObject (channelId : string) (registered : RegisteredChannel) :
    JSON :=
  let cfg := config registered in
  let channelMessages :=
    OMap.set_all (OMap.set_all [] (directionMessageWrites Send channelId registered 0))
      (directionMessageWrites Receive channelId registered 0) in
  JObj (OMap.set_all
          (OMap.set_all
             [("address", JStr (path cfg));
              ("description", opt_str (cfg_description cfg));
              ("messages",
               JObj (fold_left
                       (fun acc key =>
                          OMap.set acc key
                            (ref ("#/components/messages/" +:+ key)))
                       (OMap.keys channelMessages) []))]
             (servers_entry (servers cfg)))
          (tags_entry (tags cfg))).

Fixpoint loopSchemaWrites (entries : list (string * RegisteredChannel))
    (counter : nat) : list (string * JSON) :=
  match entries with
  | [] => []
  | (_, registered) :: rest =>
      directionSchemaWrites Send registered counter
      ++ directionSchemaWrites Receive registered
           (counter + handledCount Send registered)
      ++ loopSchemaWrites rest
           (counter + handledCount Send registered
            + handledCount Receive registered)
  end.

Fixpoint loopMessageWrites (entries : list (string * RegisteredChannel))
    (counter : nat) : list (string * JSON) :=
  match entries with
  | [] => []
  | (channelId, registered) :: rest =>
      directionMessageWrites Send channelId registered counter
      ++ directionMessageWrites Receive channelId registered
           (counter + handledCount Send registered)
      ++ loopMessageWrites rest
           (counter + handledCount Send registered
            + handledCount Receive registered)
  end.

Definition loopOperationWrites (entries : list (string * RegisteredChannel)) :
    list (string * JSON) :=
  flat_map
    (fun e =>
       directionOperationWrites Send (fst e) (snd e)
       ++ directionOperationWrites Receive (fst e) (snd e))
    entries.

Definition loopChannelWrites (entries : list (string * RegisteredChannel)) :
    list (string * JSON) :=
  map (fun e => (fst e, channelObject (fst e) (snd e))) entries.

Definition loopCount (entries : list (string * RegisteredChannel)) : nat :=
  length (processedMessages entries).

(** *** The numbering as the specification words it

    Written after the specification, for comparison with the code: one
    counter from [0], every payload and every headers schema stored under
    [schema_<n>] and each taking the next [n]. *)
Fixpoint specSchemaEntries (msgs : list MessageConfig) (n : nat) :
    list (string * JSON) :=
  match msgs with
  | [] => []
  | m :: rest =>
      let forPayload :=
        match payload m with
        | Some p =>
            [("schema_" +:+ Str.of_nat n, zodToAsyncAPISchema isOptional p)]
        | None => []
        end in
      let n1 := (n + length forPayload)%nat in
      let forHeaders :=
        match headers m with
        | Some h =>
            [("schema_" +:+ Str.of_nat n1, zodToAsyncAPISchema isOptional h)]
        | None => []
        end in
      forPayload ++ forHeaders
      ++ specSchemaEntries rest (n1 + length forHeaders)
  end.

Definition generatedSchemas (registry : Registry) (options : GeneratorOptions) :
    list (string * JSON) :=
  match schemas (doc_components
                   (fst (generateAsyncAPIDocument registry options))) with
  | Some s => s
  | None => []
  end.

Definition specSchemaNumbering (registry : Registry)
    (options : GeneratorOptions) : Prop :=
  forall k v,
    (k, v) ∈ specSchemaEntries (processedMessages (getAllChannels registry)) 0 ->
    OMap.get (generatedSchemas registry options) k = Some v.

End Generator.

(* ===================================================================== *)
(** ** The text emitter, [convertToYAML] of [src/asyncapi-hono.ts] *)
(* ===================================================================== *)

(** [`${v}`] for a value that is not an object; the emitter never
    interpolates objects. *)
Definition template (v : JSON) : string :=
  match v with
  | JUndefined => "undefined"
  | JNull => "null"
  | JBool true => "true"
  | JBool false => "false"
  | JNum n => Str.of_Z n
  | JStr s => s
  | JArr _ | JObj _ => EmptyString
  end.

(** [typeof v === 'object' && v !== null]. *)
Definition is_object (v : JSON) : bool :=
  match v with
  | JArr _ | JObj _ => true
  | _ => false
  end.

Fixpoint convertToYAML (obj : JSON) (indent : nat) : string :=
  let spaces := Str.repeat "  " indent in
  match obj with
  | JArr items =>
      (fix items_loop (l : list JSON) : string :=
         match l with
         | [] => EmptyString
         | item :: rest =>
             (if is_object item
              then spaces +:+ "-" +:+ Str.nl +:+ convertToYAML item (S indent)
              else spaces +:+ "- " +:+ template item +:+ Str.nl)
             +:+ items_loop rest
         end) items
  | JObj fields =>
      (fix fields_loop (l : list (string * JSON)) : string :=
         match l with
         | [] => EmptyString
         | (key, value) :: rest =>
             match value with
             | JUndefined => fields_loop rest
             | JArr _ | JObj _ =>
                 (spaces +:+ key +:+ ":" +:+ Str.nl
                  +:+ convertToYAML value (S indent))
                 +:+ fields_loop rest
             | JStr s =>
                 (spaces +:+ key +:+ ": " +:+ Str.dquote +:+ s
                  +:+ Str.dquote +:+ Str.nl)
                 +:+ fields_loop rest
             | _ =>
                 (spaces +:+ key +:+ ": " +:+ template value +:+ Str.nl)
                 +:+ fields_loop rest
             end
         end) fields
  | _ => EmptyString
  end.

(* ===================================================================== *)
(** ** Server helpers, [src/generator.ts] and [src/integration.ts] *)
(* ===================================================================== *)

(** [description || fallback] for an optional string. *)
Definition orDefault (description : option string) (fallback : string) : string :=
  match description with
  | Some d => if truthy (JStr d) then d else fallback
  | None => fallback
  end.

Definition createWebSocketServer (host : string) (description : option string) :
    JSON :=
  JObj [("host", JStr host);
        ("protocol", JStr "ws");
        ("description", JStr (orDefault description "WebSocket server"))].

Definition createSecureWebSocketServer (host : string)
    (description : option string) : JSON :=
  JObj [("host", JStr host);
        ("protocol", JStr "wss");
        ("description", JStr (orDefault description "Secure WebSocket server"))].

Record HttpServerConfig : Type := {
  url : string;
  http_description : option string
}.

(** The type ['ws' | 'wss']. *)
Inductive WsProtocol : Type := Ws | Wss.

Definition protocol_name (p : WsProtocol) : string :=
  match p with Ws => "ws" | Wss => "wss" end.

Record WsServerConfig : Type := {
  ws_host : string;
  ws_protocol : WsProtocol;
  ws_description : option string
}.

Record UnifiedServerConfigs : Type := {
  http : option HttpServerConfig;
  ws : option WsServerConfig
}.

(** [createUnifiedServers(configs)]: the pair [{ openapi, asyncapi }]. *)
Definition createUnifiedServers (configs : UnifiedServerConfigs) :
    list (string * JSON) * list (string * JSON) :=
  let openapi0 : list (string * JSON) := [] in
  let asyncapi0 : list (string * JSON) := [] in
  let openapi1 :=
    match http configs with
    | Some h =>
        OMap.set openapi0 "default"
          (JObj [("url", JStr (url h));
                 ("description",
                  JStr (orDefault (http_description h) "HTTP server"))])
    | None => openapi0
    end in
  let asyncapi1 :=
    match ws configs with
    | Some w =>
        OMap.set asyncapi0 "default"
          (JObj [("host", JStr (ws_host w));
                 ("protocol", JStr (protocol_name (ws_protocol w)));
                 ("description",
                  JStr (orDefault (ws_description w) "WebSocket server"))])
    | None => asyncapi0
    end in
  (openapi1, asyncapi1).

(* ===================================================================== *)
(** ** The application class, [AsyncAPIHono] of [src/asyncapi-hono.ts] *)
(* ===================================================================== *)

(** [Partial<GeneratorOptions>]. *)
Record PartialOptions : Type := {
  p_info : option JSON;
  p_servers : option JSON;
  p_components : option ComponentsObject
}.

(** The three handlers the class hands to the router: the placeholder of a
    channel, and the two that serve the document. *)
Inductive RouteHandler : Type :=
| UpgradeHandler
| JsonHandler (options : option PartialOptions)
| YamlHandler (options : option PartialOptions).

(** The class extends Hono's application; what it asks of it is kept as the
    list of the calls it makes: [this.get(path, handler)] and
    [super.route(path, app)], oldest first. *)
Inductive HonoCall : Type :=
| HonoGet (path0 : string) (h : RouteHandler)
| HonoRoute (path0 : string) (sub : list HonoCall).

(** An application object: the registry it points at (by identity), the
    [info] and [servers] of its constructor, and its calls to the router. *)
Record AsyncAPIHono : Type := {
  asyncAPIRegistry : nat;
  app_info : option JSON;
  app_servers : option JSON;
  hono : list HonoCall
}.

(** [a || b] where [a] may be absent. *)
Definition orElse (a b : option JSON) : option JSON :=
  match a with
  | Some j => if truthy j then Some j else b
  | None => b
  end.

(** [new AsyncAPIHono(options)]; [registry] is the identity of the registry
    the constructor creates. *)
Definition newAsyncAPIHono (registry : nat) (info0 servers0 : option JSON) :
    AsyncAPIHono :=
  {| asyncAPIRegistry := registry; app_info := info0; app_servers := servers0;
     hono := [] |}.

(** The response of a channel's placeholder handler to a request with the
    given [upgrade] header: the text and the status. *)
Definition upgradeResponse (upgrade : option string) : string * nat :=
  match upgrade with
  | Some u =>
      if String.eqb u "websocket"
      then ("WebSocket endpoint - upgrade required", 426%nat)
      else ("Expected WebSocket connection", 400%nat)
  | None => ("Expected WebSocket connection", 400%nat)
  end.

Section Application.

Variable isOptional : ZodType -> bool.

(** [app.channel(id, config, handler)]. *)
Definition channel (id : string) (cfg : ChannelConfig)
    (h : option ChannelHandler) (app : AsyncAPIHono) (st : Store) :
    AsyncAPIHono * Store :=
  let st1 := exec (CallRegisterChannel (asyncAPIRegistry app) id cfg h) st in
  let app1 :=
    match h with
    | Some _ =>
        {| asyncAPIRegistry := asyncAPIRegistry app;
           app_info := app_info app; app_servers := app_servers app;
           hono := hono app ++ [HonoGet (path cfg) UpgradeHandler] |}
    | None => app
    end in
  (app1, st1).

(** The options object [getAsyncAPIDocument] builds for the generator. *)
Definition generatorOptionsOf (app : AsyncAPIHono)
    (options : option PartialOptions) : GeneratorOptions :=
  {| info :=
       match orElse (orElse (match options with
                             | Some o => p_info o
                             | None => None
                             end) (app_info app)) None with
       | Some i => i
       | None => JObj [("title", JStr "API Documentation");
                       ("version", JStr "1.0.0")]
       end;
     opt_servers :=
       orElse (match options with
               | Some o => p_servers o
               | None => None
               end) (app_servers app);
     components :=
       match options with
       | Some o => p_components o
       | None => None
       end |}.

(** [app.getAsyncAPIDocument(options)]. *)
Definition getAsyncAPIDocument (app : AsyncAPIHono)
    (options : option PartialOptions) (st : Store) :
    (AsyncAPIDocument * GeneratorOptions) * Store :=
  generate isOptional (asyncAPIRegistry app) (generatorOptionsOf app options) st.

(** [app.doc(path, options)] and [app.docYAML(path, options)]. *)
Definition doc (path0 : string) (options : option PartialOptions)
    (app : AsyncAPIHono) : AsyncAPIHono :=
  {| asyncAPIRegistry := asyncAPIRegistry app;
     app_info := app_info app; app_servers := app_servers app;
     hono := hono app ++ [HonoGet path0 (JsonHandler options)] |}.

Definition docYAML (path0 : string) (options : option PartialOptions)
    (app : AsyncAPIHono) : AsyncAPIHono :=
  {| asyncAPIRegistry := asyncAPIRegistry app;
     app_info := app_info app; app_servers := app_servers app;
     hono := hono app ++ [HonoGet path0 (YamlHandler options)] |}.

(** [this.route(path, app)]: the registries are merged, then the router's
    own [route] is called. *)
Definition route (path0 : string) (sub : AsyncAPIHono) (app : AsyncAPIHono)
    (st : Store) : AsyncAPIHono * Store :=
  let st1 := exec (CallMerge (asyncAPIRegistry app) (asyncAPIRegistry sub)) st in
  ({| asyncAPIRegistry := asyncAPIRegistry app;
      app_info := app_info app; app_servers := app_servers app;
      hono := hono app ++ [HonoRoute path0 (hono sub)] |},
   st1).

(** [this.basePath(path)]: a new application that is given this one's
    registry. *)
Definition basePath (path0 : string) (app : AsyncAPIHono) : AsyncAPIHono :=
  {| asyncAPIRegistry := asyncAPIRegistry app;
     app_info := app_info app; app_servers := app_servers app;
     hono := [] |}.

End Application.

(** An entry, and a registry, with the handlers taken out. *)
Definition withoutHandler (e : RegisteredChannel) : RegisteredChannel :=
  {| config := config e; handler := None; operations := operations e |}.

Definition withoutHandlers (r : Registry) : Registry :=
  {| channels := map (fun e => (fst e, withoutHandler (snd e))) (channels r);
     operationCounter := operationCounter r |}.

(* ===================================================================== *)
(** ** Further notions used in the statements below *)
(* ===================================================================== *)

(** An entry whose operation metadata exists for exactly the directions its
    configuration has. *)
Definition entryAligned (e : RegisteredChannel) : Prop :=
  forall d,
    is_Some (operation_of d (operations e)) <->
    is_Some (message_of d (config e)).

Definition allAligned (r : Registry) : Prop :=
  forall k e, (k, e) ∈ channels r -> entryAligned e.

(** [components.messages] of the generated document. *)
Definition generatedMessages (isOptional : ZodType -> bool)
    (registry : Registry) (options : GeneratorOptions) : list (string * JSON) :=
  match messages (doc_components
                    (fst (generateAsyncAPIDocument isOptional registry options))) with
  | Some s => s
  | None => []
  end.

(** The reference a message object holds under [part] ([payload] or
    [headers]), if it holds one, names a key of [schemas]. *)
Definition refResolves (part : string) (message : JSON)
    (schemas0 : list (string * JSON)) : Prop :=
  match field part message with
  | Some r =>
      exists key,
        r = ref ("#/components/schemas/" +:+ key) /\ key ∈ OMap.keys schemas0
  | None => True
  end.

(** The description that reaches the translation of a node: the node's own
    when it is of a kind that overlays its metadata and the description is
    not the empty string; the wrapped node's for the three wrappers; none
    for a kind the translator has no case for. *)
Fixpoint emittedDescription (schema : ZodType) : option string :=
  match schema with
  | ZodOptional innerType _ => emittedDescription innerType
  | ZodNullable innerType _ => emittedDescription innerType
  | ZodDefault innerType _ _ => emittedDescription innerType
  | ZodOther _ _ => None
  | _ =>
      match description (meta_of schema) with
      | Some d => if String.eqb d EmptyString then None else Some d
      | None => None
      end
  end.

(** The node with [_def.openapi] removed from it and from every node below
    it. *)
Fixpoint withoutOpenapi (schema : ZodType) : ZodType :=
  let clean m := {| description := description m; openapi := None |} in
  match schema with
  | ZodString m => ZodString (clean m)
  | ZodNumber m => ZodNumber (clean m)
  | ZodBoolean m => ZodBoolean (clean m)
  | ZodArray type m => ZodArray (withoutOpenapi type) (clean m)
  | ZodObject shape m =>
      ZodObject (map (fun e => (fst e, withoutOpenapi (snd e))) shape) (clean m)
  | ZodEnum values m => ZodEnum values (clean m)
  | ZodLiteral value m => ZodLiteral value (clean m)
  | ZodUnion options m => ZodUnion (map withoutOpenapi options) (clean m)
  | ZodDiscriminatedUnion options m =>
      ZodDiscriminatedUnion (map withoutOpenapi options) (clean m)
  | ZodOptional innerType m => ZodOptional (withoutOpenapi innerType) (clean m)
  | ZodNullable innerType m => ZodNullable (withoutOpenapi innerType) (clean m)
  | ZodDefault innerType defaultValue m =>
      ZodDefault (withoutOpenapi innerType) defaultValue (clean m)
  | ZodRecord valueType m => ZodRecord (withoutOpenapi valueType) (clean m)
  | ZodOther typeName m => ZodOther typeName (clean m)
  end.

(** The text [convertToYAML] adds for one field of an object and for one
    item of an array. *)
Definition fieldText (key : string) (value : JSON) (indent : nat) : string :=
  let spaces := Str.repeat "  " indent in
  match value with
  | JUndefined => EmptyString
  | JArr _ | JObj _ =>
      spaces +:+ key +:+ ":" +:+ Str.nl +:+ convertToYAML value (S indent)
  | JStr s =>
      spaces +:+ key +:+ ": " +:+ Str.dquote +:+ s +:+ Str.dquote +:+ Str.nl
  | _ => spaces +:+ key +:+ ": " +:+ template value +:+ Str.nl
  end.

Definition itemText (item : JSON) (indent : nat) : string :=
  let spaces := Str.repeat "  " indent in
  if is_object item
  then spaces +:+ "-" +:+ Str.nl +:+ convertToYAML item (S indent)
  else spaces +:+ "- " +:+ template item +:+ Str.nl.

(** [value !== undefined]. *)
Definition is_defined (value : JSON) : bool :=
  match value with
  | JUndefined => false
  | _ => true
  end.

(* ===================================================================== *)
(** ** Sample inputs, after the test suite *)
(* ===================================================================== *)

Definition messageWith (p h : option ZodType) : MessageConfig :=
  {| payload := p; headers := h; contentType := None;
     msg_description := None; msg_summary := None; msg_name := None |}.

Definition channelWith (p : string) (s r : option MessageConfig) : ChannelConfig :=
  {| path := p; cfg_description := None; send := s; receive := r;
     parameters := None; servers := None; tags := None |}.

(** [z.object({ message: z.string() })] and [z.object({ auth: z.string() })]. *)
Definition messagePayload : ZodType :=
  ZodObject [("message", ZodString no_meta)] no_meta.

Definition authHeaders : ZodType :=
  ZodObject [("auth", ZodString no_meta)] no_meta.

Definition sendOnly (p : string) : ChannelConfig :=
  channelWith p (Some (messageWith (Some messagePayload) None)) None.

Definition receiveOnly (p : string) : ChannelConfig :=
  channelWith p None (Some (messageWith (Some messagePayload) None)).

Definition withHeaders (p : string) : ChannelConfig :=
  channelWith p (Some (messageWith (Some messagePayload) (Some authHeaders))) None.

(** The end-to-end scenario: channel ["chat"] at [/chat/:roomId] with a
    [send] payload [object{message: string}]. *)
Definition chatRegistry : Registry :=
  registerChannel "chat" (sendOnly "/chat/:roomId") None fresh.

Definition plainOptions : GeneratorOptions :=
  {| info := JObj [("title", JStr "T"); ("version", JStr "1.0.0")];
     opt_servers := None;
     components := None |}.

(* ===================================================================== *)
(** * Properties *)
(* ===================================================================== *)

(** ** Strings *)

Lemma append_assoc (a b c : string) : (a +:+ b) +:+ c = a +:+ (b +:+ c).
Proof. induction a as [|x a IH]; simpl; [reflexivity | now rewrite IH]. Qed.

Lemma append_inv_head (a b c : string) : a +:+ b = a +:+ c -> b = c.
Proof. induction a as [|x a IH]; simpl; intros H; [exact H | injection H; auto]. Qed.

Lemma length_append (a b : string) :
  String.length (a +:+ b) = (String.length a + String.length b)%nat.
Proof. induction a as [|x a IH]; simpl; [reflexivity | now rewrite IH]. Qed.

Lemma mem_append (c : ascii) (a b : string) :
  Str.mem c (a +:+ b) = Str.mem c a || Str.mem c b.
Proof.
  induction a as [|x a IH]; simpl; [reflexivity|].
  destruct (Ascii.eqb x c); [reflexivity | exact IH].
Qed.

Lemma digits_no_underscore (d : Decimal.uint) :
  Str.mem Str.underscore (NilEmpty.string_of_uint d) = false.
Proof. induction d; simpl; auto. Qed.

Lemma of_nat_no_underscore (n : nat) :
  Str.mem Str.underscore (Str.of_nat n) = false.
Proof.
  unfold Str.of_nat, NilZero.string_of_uint.
  destruct (Nat.to_uint n); try apply digits_no_underscore; reflexivity.
Qed.

Lemma to_uint_nonnil (n : nat) : Nat.to_uint n <> Decimal.Nil.
Proof.
  intros E.
  assert (Hn : n = 0%nat)
    by (rewrite <- (DecimalNat.Unsigned.of_to n), E; reflexivity).
  subst n. discriminate E.
Qed.

Lemma of_nat_inj (n m : nat) : Str.of_nat n = Str.of_nat m -> n = m.
Proof.
  unfold Str.of_nat. intros H.
  apply DecimalNat.Unsigned.to_uint_inj.
  pose proof (NilZero.usu _ (to_uint_nonnil n)) as Hn.
  pose proof (NilZero.usu _ (to_uint_nonnil m)) as Hm.
  rewrite H in Hn. congruence.
Qed.

(** The last underscore of [k_<digits>] is the one before the digits. *)
Lemma numbered_inj (k1 k2 d1 d2 : string) :
  Str.mem Str.underscore d1 = false ->
  Str.mem Str.underscore d2 = false ->
  k1 +:+ "_" +:+ d1 = k2 +:+ "_" +:+ d2 ->
  k1 = k2 /\ d1 = d2.
Proof.
  intros H1 H2. revert k2.
  induction k1 as [|x k1 IH]; intros [|y k2]; simpl; intros E.
  - injection E as E. auto.
  - injection E as Ex E. subst d1.
    rewrite mem_append in H1. simpl in H1.
    rewrite orb_true_r in H1. discriminate.
  - injection E as Ex E. subst d2.
    rewrite mem_append in H2. simpl in H2.
    rewrite orb_true_r in H2. discriminate.
  - injection E as Ex E. destruct (IH _ E) as [-> ->]. subst. auto.
Qed.

Lemma operation_id_inj (d1 d2 : Direction) (k1 k2 : string) (n1 n2 : nat) :
  operation_id d1 k1 n1 = operation_id d2 k2 n2 ->
  d1 = d2 /\ k1 = k2 /\ n1 = n2.
Proof.
  unfold operation_id.
  destruct d1, d2; simpl; intros E; try discriminate.
  - injection E as E.
    apply numbered_inj in E; auto using of_nat_no_underscore.
    destruct E as [-> E]. apply of_nat_inj in E. auto.
  - injection E as E.
    apply numbered_inj in E; auto using of_nat_no_underscore.
    destruct E as [-> E]. apply of_nat_inj in E. auto.
Qed.

Lemma ends_with_operation_id (d : Direction) (id : string) (n : nat) :
  Str.ends_with (operation_id d id n) ("_" +:+ Str.of_nat n).
Proof.
  exists (direction_name d +:+ "_" +:+ id). unfold operation_id.
  now rewrite !append_assoc.
Qed.

(** ** Insertion-ordered maps *)

Section omap_facts.
Context {V : Type}.
Implicit Types (m ws : list (string * V)) (k : string) (v : V).

Lemma get_set_eq m k v : OMap.get (OMap.set m k v) k = Some v.
Proof.
  induction m as [|[k' v'] m IH]; simpl.
  - now rewrite String.eqb_refl.
  - destruct (String.eqb k' k) eqn:E; simpl; rewrite E; auto.
Qed.

Lemma get_set_ne m k k' v :
  k <> k' -> OMap.get (OMap.set m k v) k' = OMap.get m k'.
Proof.
  intros Hne. induction m as [|[k0 v0] m IH]; simpl.
  - apply String.eqb_neq in Hne. now rewrite Hne.
  - destruct (String.eqb k0 k) eqn:E; simpl.
    + apply String.eqb_eq in E. subst k0.
      apply String.eqb_neq in Hne. now rewrite Hne.
    + now rewrite IH.
Qed.

Lemma set_id m k v : OMap.get m k = Some v -> OMap.set m k v = m.
Proof.
  induction m as [|[k' v'] m IH]; simpl; [discriminate|].
  destruct (String.eqb k' k) eqn:E; intros H.
  - now injection H as ->.
  - now rewrite IH.
Qed.

Lemma set_set m k v v' :
  OMap.set (OMap.set m k v) k v' = OMap.set m k v'.
Proof.
  induction m as [|[k' x] m IH]; simpl.
  - now rewrite String.eqb_refl.
  - destruct (String.eqb k' k) eqn:E; simpl; rewrite E; [reflexivity|].
    now rewrite IH.
Qed.

Lemma get_is_Some_keys m k : is_Some (OMap.get m k) <-> k ∈ OMap.keys m.
Proof.
  unfold OMap.keys. induction m as [|[k' x] m IH]; simpl.
  - split; [intros [? ?]; discriminate | intros H; inversion H].
  - rewrite elem_of_cons. destruct (String.eqb k' k) eqn:E.
    + apply String.eqb_eq in E. subst. split; eauto.
    + apply String.eqb_neq in E. rewrite IH. split; [auto|].
      intros [->|?]; [contradiction | assumption].
Qed.

Lemma get_None_keys m k : OMap.get m k = None <-> k ∉ OMap.keys m.
Proof.
  rewrite <- get_is_Some_keys. destruct (OMap.get m k); split; intros H.
  - discriminate.
  - exfalso. apply H. eauto.
  - intros [? ?]. discriminate.
  - reflexivity.
Qed.

Lemma keys_set_in m k v :
  k ∈ OMap.keys m -> OMap.keys (OMap.set m k v) = OMap.keys m.
Proof.
  unfold OMap.keys. induction m as [|[k' x] m IH]; simpl; intros H.
  - inversion H.
  - destruct (String.eqb k' k) eqn:E; simpl; [reflexivity|].
    apply String.eqb_neq in E. f_equal. apply IH.
    apply elem_of_cons in H as [->|H]; [contradiction | assumption].
Qed.

Lemma keys_set_notin m k v :
  k ∉ OMap.keys m -> OMap.keys (OMap.set m k v) = OMap.keys m ++ [k].
Proof.
  unfold OMap.keys. induction m as [|[k' x] m IH]; simpl; intros H.
  - reflexivity.
  - rewrite not_elem_of_cons in H. destruct H as [Hne H].
    assert (E : String.eqb k' k = false) by (apply String.eqb_neq; congruence).
    rewrite E. simpl. f_equal. now apply IH.
Qed.

Lemma elem_of_keys_set m k v k' :
  k' ∈ OMap.keys (OMap.set m k v) <-> k' = k \/ k' ∈ OMap.keys m.
Proof.
  destruct (decide (k ∈ OMap.keys m)) as [Hin|Hnin].
  - rewrite keys_set_in by assumption. split; [auto|].
    intros [->|?]; assumption.
  - rewrite keys_set_notin by assumption.
    rewrite elem_of_app, list_elem_of_singleton. tauto.
Qed.

Lemma NoDup_keys_set m k v :
  NoDup (OMap.keys m) -> NoDup (OMap.keys (OMap.set m k v)).
Proof.
  intros H. destruct (decide (k ∈ OMap.keys m)) as [Hin|Hnin].
  - now rewrite keys_set_in.
  - rewrite keys_set_notin by assumption.
    apply NoDup_app. split; [assumption|]. split.
    + intros x Hx Hk. apply list_elem_of_singleton in Hk. now subst.
    + apply NoDup_singleton.
Qed.

Lemma elem_of_set m k v k' x :
  (k', x) ∈ OMap.set m k v -> (k' = k /\ x = v) \/ (k', x) ∈ m.
Proof.
  induction m as [|[k0 v0] m IH]; simpl.
  - intros H. apply list_elem_of_singleton in H. injection H as -> ->. auto.
  - destruct (String.eqb k0 k) eqn:E; rewrite !elem_of_cons.
    + apply String.eqb_eq in E. subst k0.
      intros [H|H]; [injection H as -> ->; auto | auto].
    + intros [H|H]; [auto|]. destruct (IH H); auto.
Qed.

Lemma set_comm m k k' v v' :
  k <> k' -> k ∈ OMap.keys m ->
  OMap.set (OMap.set m k v) k' v' = OMap.set (OMap.set m k' v') k v.
Proof.
  intros Hne. unfold OMap.keys.
  induction m as [|[k0 v0] m IH]; simpl; intros Hin.
  - inversion Hin.
  - destruct (String.eqb k0 k) eqn:E; destruct (String.eqb k0 k') eqn:E';
      simpl; rewrite ?E, ?E'; try reflexivity.
    + apply String.eqb_eq in E, E'. congruence.
    + f_equal. apply IH. apply String.eqb_neq in E.
      apply elem_of_cons in Hin as [->|Hin]; [contradiction | assumption].
Qed.

Lemma set_all_nil m : OMap.set_all m [] = m.
Proof. reflexivity. Qed.

Lemma set_all_cons m k v ws :
  OMap.set_all m ((k, v) :: ws) = OMap.set_all (OMap.set m k v) ws.
Proof. reflexivity. Qed.

Lemma set_all_app m ws ws' :
  OMap.set_all m (ws ++ ws') = OMap.set_all (OMap.set_all m ws) ws'.
Proof. unfold OMap.set_all. apply fold_left_app. Qed.

Lemma elem_of_keys_set_all m ws k :
  k ∈ OMap.keys (OMap.set_all m ws) <-> k ∈ OMap.keys m \/ k ∈ OMap.keys ws.
Proof.
  revert m. induction ws as [|[k' v'] ws IH]; intros m.
  - rewrite set_all_nil. unfold OMap.keys at 3. simpl.
    rewrite elem_of_nil. tauto.
  - rewrite set_all_cons, IH, elem_of_keys_set.
    unfold OMap.keys at 4. simpl. rewrite elem_of_cons.
    fold (OMap.keys ws). tauto.
Qed.

Lemma get_set_all_notin m ws k :
  k ∉ OMap.keys ws -> OMap.get (OMap.set_all m ws) k = OMap.get m k.
Proof.
  revert m. induction ws as [|[k' v'] ws IH]; intros m H; [reflexivity|].
  unfold OMap.keys in H. simpl in H. rewrite not_elem_of_cons in H.
  destruct H as [Hne H]. rewrite set_all_cons, IH by assumption.
  apply get_set_ne. congruence.
Qed.

Lemma NoDup_keys_set_all m ws :
  NoDup (OMap.keys m) -> NoDup (OMap.keys (OMap.set_all m ws)).
Proof.
  revert m. induction ws as [|[k v] ws IH]; intros m H; [assumption|].
  rewrite set_all_cons. apply IH. now apply NoDup_keys_set.
Qed.

Lemma elem_of_set_all m ws k x :
  (k, x) ∈ OMap.set_all m ws -> (k, x) ∈ m \/ (k, x) ∈ ws.
Proof.
  revert m. induction ws as [|[k' v'] ws IH]; intros m H.
  - now left.
  - rewrite set_all_cons in H. apply IH in H as [H|H].
    + apply elem_of_set in H as [[-> ->]|H]; [right; left | now left].
    + right. now right.
Qed.

(** An assignment to a key that is assigned again later is overwritten. *)
Lemma set_all_absorb m ws k v :
  k ∈ OMap.keys ws -> k ∈ OMap.keys m ->
  OMap.set_all (OMap.set m k v) ws = OMap.set_all m ws.
Proof.
  revert m. induction ws as [|[k' v'] ws IH]; intros m Hws Hm.
  - inversion Hws.
  - rewrite !set_all_cons.
    destruct (decide (k = k')) as [->|Hne].
    + now rewrite set_set.
    + rewrite set_comm by assumption. apply IH.
      * unfold OMap.keys in Hws. simpl in Hws.
        apply elem_of_cons in Hws as [?|?]; [contradiction | assumption].
      * apply elem_of_keys_set. now right.
Qed.

(** Replaying a sequence of assignments on its own result changes nothing. *)
Lemma set_all_idem m ws :
  OMap.set_all (OMap.set_all m ws) ws = OMap.set_all m ws.
Proof.
  revert m. induction ws as [|[k v] ws IH]; intros m; [reflexivity|].
  rewrite !set_all_cons.
  assert (Hk : k ∈ OMap.keys (OMap.set_all (OMap.set m k v) ws)).
  { apply elem_of_keys_set_all. left. apply elem_of_keys_set. now left. }
  destruct (decide (k ∈ OMap.keys ws)) as [Hin|Hnin].
  - rewrite set_all_absorb by assumption. apply IH.
  - rewrite (set_id (OMap.set_all (OMap.set m k v) ws) k v).
    + apply IH.
    + rewrite get_set_all_notin by assumption. apply get_set_eq.
Qed.

End omap_facts.

Lemma has_true_iff {V : Type} (m : list (string * V)) (k : string) :
  OMap.has m k = true <-> k ∈ OMap.keys m.
Proof.
  rewrite <- get_is_Some_keys. unfold OMap.has.
  destruct (OMap.get m k); split; intros H; eauto; try discriminate.
  destruct H; discriminate.
Qed.

Lemma has_set_all_mono {V : Type} (m ws : list (string * V)) (k : string) :
  OMap.has m k = true -> OMap.has (OMap.set_all m ws) k = true.
Proof. rewrite !has_true_iff, elem_of_keys_set_all. auto. Qed.

Lemma has_set_mono {V : Type} (m : list (string * V)) (k k' : string) (v : V) :
  OMap.has m k = true -> OMap.has (OMap.set m k' v) k = true.
Proof. rewrite !has_true_iff, elem_of_keys_set. auto. Qed.

Lemma keys_set_all_fresh {V : Type} (m ws : list (string * V)) :
  NoDup (OMap.keys ws) ->
  (forall k, k ∈ OMap.keys ws -> k ∉ OMap.keys m) ->
  OMap.keys (OMap.set_all m ws) = OMap.keys m ++ OMap.keys ws.
Proof.
  revert m. induction ws as [|[k v] ws IH]; intros m Hnd Hfresh.
  - rewrite set_all_nil. unfold OMap.keys at 3. simpl. now rewrite app_nil_r.
  - unfold OMap.keys in Hnd. simpl in Hnd. apply NoDup_cons in Hnd as [Hk Hnd].
    rewrite set_all_cons, IH.
    + rewrite keys_set_notin.
      * now rewrite <- app_assoc.
      * apply Hfresh. unfold OMap.keys. simpl. left.
    + exact Hnd.
    + intros k' Hk' Hin. apply elem_of_keys_set in Hin as [->|Hin].
      * contradiction.
      * apply (Hfresh k'); [|assumption]. unfold OMap.keys. simpl. now right.
Qed.

(** ** Plain objects *)

Lemma arrayIndex_Some (k : string) (n : N) :
  Obj.arrayIndex k = Some n -> k = Str.of_N n /\ (n < 4294967295)%N.
Proof.
  unfold Obj.arrayIndex. destruct (NilZero.uint_of_string k) as [d|]; [|discriminate].
  cbv zeta. destruct (String.eqb _ k) eqn:E; simpl; [|discriminate].
  destruct (N.ltb_spec (N.of_uint d) 4294967295) as [Hlt|]; [|discriminate].
  intros H. injection H as <-. apply String.eqb_eq in E. now split.
Qed.

Lemma arrayIndex_inj (k k' : string) (n : N) :
  Obj.arrayIndex k = Some n -> Obj.arrayIndex k' = Some n -> k = k'.
Proof.
  intros H H'. apply arrayIndex_Some in H as [-> _].
  apply arrayIndex_Some in H' as [-> _]. reflexivity.
Qed.

Lemma arrayIndex_proto : Obj.arrayIndex Obj.proto = None.
Proof. reflexivity. Qed.

Section obj_facts.
Context {V : Type}.
Implicit Types (o ws : list (string * V)) (k : string) (v : V) (n : N).

Lemma define_plain o k v :
  Obj.arrayIndex k = None -> Obj.define o k v = OMap.set o k v.
Proof. unfold Obj.define. now intros ->. Qed.

Lemma assign_proto o v : Obj.assign o Obj.proto v = o.
Proof. reflexivity. Qed.

Lemma assign_define o k v :
  k <> Obj.proto -> Obj.assign o k v = Obj.define o k v.
Proof.
  intros H. unfold Obj.assign. apply String.eqb_neq in H. now rewrite H.
Qed.

(** Under a key that is neither an array index nor [__proto__] an
    assignment is [OMap.set]. *)
Lemma assign_plain o k v :
  Obj.arrayIndex k = None -> k <> Obj.proto ->
  Obj.assign o k v = OMap.set o k v.
Proof. intros Hi Hp. rewrite assign_define by assumption. now apply define_plain. Qed.

Lemma assign_all_nil o : Obj.assign_all o [] = o.
Proof. reflexivity. Qed.

Lemma assign_all_cons o k v ws :
  Obj.assign_all o ((k, v) :: ws) = Obj.assign_all (Obj.assign o k v) ws.
Proof. reflexivity. Qed.

Lemma assign_all_app o ws ws' :
  Obj.assign_all o (ws ++ ws') = Obj.assign_all (Obj.assign_all o ws) ws'.
Proof. unfold Obj.assign_all. apply fold_left_app. Qed.

Lemma assign_all_plain o ws :
  Forall (fun k => Obj.arrayIndex k = None /\ k <> Obj.proto) (OMap.keys ws) ->
  Obj.assign_all o ws = OMap.set_all o ws.
Proof.
  revert o. induction ws as [|[k v] ws IH]; intros o H; [reflexivity|].
  unfold OMap.keys in H. simpl in H. apply Forall_cons in H as [[Hi Hp] H].
  rewrite assign_all_cons, set_all_cons, assign_plain by assumption.
  now apply IH.
Qed.

(** *** The keys of an object after an assignment *)

Lemma elem_of_keys_insertIndex o n k v k' :
  Obj.arrayIndex k = Some n ->
  k' ∈ OMap.keys (Obj.insertIndex n k v o) <-> k' = k \/ k' ∈ OMap.keys o.
Proof.
  intros Hk. unfold OMap.keys.
  induction o as [|[k0 v0] o IH]; simpl.
  - rewrite list_elem_of_singleton, elem_of_nil. tauto.
  - destruct (Obj.arrayIndex k0) as [n0|] eqn:E0.
    + destruct (N.ltb_spec n0 n); simpl.
      * rewrite !elem_of_cons, IH. tauto.
      * destruct (N.eqb_spec n0 n) as [->|Hne]; simpl.
        -- rewrite (arrayIndex_inj _ _ _ E0 Hk), !elem_of_cons. tauto.
        -- rewrite !elem_of_cons. tauto.
    + simpl. rewrite !elem_of_cons. tauto.
Qed.

Lemma elem_of_keys_define o k v k' :
  k' ∈ OMap.keys (Obj.define o k v) <-> k' = k \/ k' ∈ OMap.keys o.
Proof.
  unfold Obj.define. destruct (Obj.arrayIndex k) as [n|] eqn:E.
  - now apply elem_of_keys_insertIndex.
  - apply elem_of_keys_set.
Qed.

Lemma elem_of_keys_assign o k v k' :
  k' ∈ OMap.keys (Obj.assign o k v) <->
  (k' = k /\ k <> Obj.proto) \/ k' ∈ OMap.keys o.
Proof.
  unfold Obj.assign. destruct (String.eqb_spec k Obj.proto) as [->|Hne].
  - tauto.
  - rewrite elem_of_keys_define. tauto.
Qed.

Lemma elem_of_keys_assign_all o ws k :
  k ∈ OMap.keys (Obj.assign_all o ws) <->
  k ∈ OMap.keys o \/ (k ∈ OMap.keys ws /\ k <> Obj.proto).
Proof.
  revert o. induction ws as [|[k' v'] ws IH]; intros o.
  - rewrite assign_all_nil. unfold OMap.keys at 3. simpl.
    rewrite elem_of_nil. tauto.
  - rewrite assign_all_cons, IH, elem_of_keys_assign.
    unfold OMap.keys at 4. simpl. rewrite elem_of_cons.
    fold (OMap.keys ws). split; [|intuition congruence].
    intros [[[-> ?]|?]|[? ?]]; auto.
Qed.

Lemma elem_of_keys_literal ws k :
  k ∈ OMap.keys (Obj.literal ws) <-> k ∈ OMap.keys ws.
Proof.
  unfold Obj.literal.
  assert (G : forall o, k ∈ OMap.keys (fold_left (fun acc w => Obj.define acc w.1 w.2) ws o)
              <-> k ∈ OMap.keys o \/ k ∈ OMap.keys ws).
  { induction ws as [|[k' v'] ws IH]; intros o.
    - simpl. change (OMap.keys (@nil (string * V))) with (@nil string).
      rewrite elem_of_nil. tauto.
    - change (OMap.keys ((k', v') :: ws)) with (k' :: OMap.keys ws).
      simpl. rewrite IH, elem_of_keys_define, elem_of_cons. tauto. }
  rewrite G. change (OMap.keys (@nil (string * V))) with (@nil string).
  rewrite elem_of_nil. tauto.
Qed.

(** *** Reading after an assignment *)

Lemma get_insertIndex_eq o n k v :
  Obj.arrayIndex k = Some n -> OMap.get (Obj.insertIndex n k v o) k = Some v.
Proof.
  intros Hk. induction o as [|[k0 v0] o IH]; simpl.
  - now rewrite String.eqb_refl.
  - destruct (Obj.arrayIndex k0) as [n0|] eqn:E0.
    + destruct (N.ltb_spec n0 n); simpl.
      * destruct (String.eqb_spec k0 k) as [->|_]; [|exact IH].
        rewrite Hk in E0. injection E0 as ->. lia.
      * destruct (N.eqb_spec n0 n) as [->|Hne]; simpl.
        -- rewrite (arrayIndex_inj _ _ _ E0 Hk). now rewrite String.eqb_refl.
        -- now rewrite String.eqb_refl.
    + simpl. now rewrite String.eqb_refl.
Qed.

Lemma get_insertIndex_ne o n k k' v :
  Obj.arrayIndex k = Some n -> k <> k' ->
  OMap.get (Obj.insertIndex n k v o) k' = OMap.get o k'.
Proof.
  intros Hk Hne. apply String.eqb_neq in Hne.
  induction o as [|[k0 v0] o IH]; simpl.
  - now rewrite Hne.
  - destruct (Obj.arrayIndex k0) as [n0|] eqn:E0.
    + destruct (N.ltb_spec n0 n); simpl.
      * now rewrite IH.
      * destruct (N.eqb_spec n0 n) as [->|Hn]; simpl.
        -- rewrite (arrayIndex_inj _ _ _ E0 Hk). now rewrite Hne.
        -- now rewrite Hne.
    + simpl. now rewrite Hne.
Qed.

Lemma get_define_eq o k v : OMap.get (Obj.define o k v) k = Some v.
Proof.
  unfold Obj.define. destruct (Obj.arrayIndex k) as [n|] eqn:E.
  - now apply get_insertIndex_eq.
  - apply get_set_eq.
Qed.

Lemma get_define_ne o k k' v :
  k <> k' -> OMap.get (Obj.define o k v) k' = OMap.get o k'.
Proof.
  intros Hne. unfold Obj.define. destruct (Obj.arrayIndex k) as [n|] eqn:E.
  - now apply get_insertIndex_ne.
  - now apply get_set_ne.
Qed.

Lemma get_assign_eq o k v :
  k <> Obj.proto -> OMap.get (Obj.assign o k v) k = Some v.
Proof. intros H. rewrite assign_define by assumption. apply get_define_eq. Qed.

Lemma get_assign_ne o k k' v :
  k <> k' -> OMap.get (Obj.assign o k v) k' = OMap.get o k'.
Proof.
  intros Hne. unfold Obj.assign. destruct (String.eqb k Obj.proto); [reflexivity|].
  now apply get_define_ne.
Qed.

Lemma get_assign_all_notin o ws k :
  k ∉ OMap.keys ws -> OMap.get (Obj.assign_all o ws) k = OMap.get o k.
Proof.
  revert o. induction ws as [|[k' v'] ws IH]; intros o H; [reflexivity|].
  unfold OMap.keys in H. simpl in H. rewrite not_elem_of_cons in H.
  destruct H as [Hne H]. rewrite assign_all_cons, IH by assumption.
  apply get_assign_ne. congruence.
Qed.

(** After assignments under distinct keys, a key other than [__proto__]
    reads what was assigned under it. *)
Lemma get_assign_all_unique o ws k :
  NoDup (OMap.keys ws) -> k <> Obj.proto -> k ∈ OMap.keys ws ->
  OMap.get (Obj.assign_all o ws) k = OMap.get ws k.
Proof.
  intros Hnd Hp. revert o.
  induction ws as [|[k' v'] ws IH]; intros o Hin.
  - inversion Hin.
  - unfold OMap.keys in Hnd, Hin. simpl in Hnd, Hin.
    apply NoDup_cons in Hnd as [Hk' Hnd].
    rewrite assign_all_cons. simpl.
    destruct (String.eqb_spec k' k) as [->|Hne].
    + rewrite get_assign_all_notin by exact Hk'. now apply get_assign_eq.
    + apply IH; [exact Hnd|].
      apply elem_of_cons in Hin as [->|Hin]; [contradiction | exact Hin].
Qed.

(** No assignment creates the key [__proto__]. *)
Lemma proto_notin_assign_all ws : Obj.proto ∉ OMap.keys (Obj.assign_all [] ws).
Proof.
  rewrite elem_of_keys_assign_all.
  change (OMap.keys (@nil (string * V))) with (@nil string).
  rewrite elem_of_nil. tauto.
Qed.

(** *** Enumeration order *)

Lemma insertIndex_append o n k v :
  Forall (fun k' => Obj.before k' k) (OMap.keys o) ->
  Obj.arrayIndex k = Some n ->
  k ∉ OMap.keys o ->
  Obj.insertIndex n k v o = o ++ [(k, v)].
Proof.
  intros H Hk. unfold OMap.keys in *.
  induction o as [|[k0 v0] o IH]; simpl; intros Hnin; [reflexivity|].
  simpl in H. apply Forall_cons in H as [H0 H].
  rewrite not_elem_of_cons in Hnin. destruct Hnin as [Hne Hnin].
  unfold Obj.before in H0. rewrite Hk in H0.
  destruct (Obj.arrayIndex k0) as [n0|] eqn:E0; [|contradiction].
  destruct (N.ltb_spec n0 n); [|lia]. now rewrite IH.
Qed.

Lemma define_append o k v :
  Forall (fun k' => Obj.before k' k) (OMap.keys o) -> k ∉ OMap.keys o ->
  Obj.define o k v = o ++ [(k, v)].
Proof.
  intros H Hnin. unfold Obj.define.
  destruct (Obj.arrayIndex k) as [n|] eqn:E.
  - now apply insertIndex_append.
  - clear H. unfold OMap.keys in Hnin.
    induction o as [|[k0 v0] o IH]; simpl; [reflexivity|].
    simpl in Hnin. rewrite not_elem_of_cons in Hnin. destruct Hnin as [Hne Hnin].
    destruct (String.eqb_spec k0 k); [congruence|]. now rewrite IH.
Qed.

Lemma define_all_wf (p l : list (string * V)) :
  Obj.wf (p ++ l) ->
  fold_left (fun acc w => Obj.define acc w.1 w.2) l p = p ++ l.
Proof.
  revert p. induction l as [|[k v] l IH]; intros p Hwf; simpl.
  - now rewrite app_nil_r.
  - assert (E : Obj.define p k v = p ++ [(k, v)]).
    { destruct Hwf as [Hs Hnd]. unfold OMap.keys in Hs, Hnd.
      rewrite map_app in Hs, Hnd. simpl in Hs, Hnd.
      apply define_append.
      - apply Forall_forall. intros k' Hk'.
        apply (StronglySorted_app_1_elem_of _ _ _ _ _ Hs Hk'). left.
      - apply NoDup_app in Hnd as (_ & Hd & _). intros Hin.
        apply (Hd k Hin). left. }
    rewrite E. rewrite IH; rewrite <- app_assoc; [reflexivity | exact Hwf].
Qed.

(** Declaring the properties of an object in the order it lists them gives
    that object. *)
Lemma literal_wf o : Obj.wf o -> Obj.literal o = o.
Proof. intros H. unfold Obj.literal. now rewrite define_all_wf. Qed.

(** Distinct keys none of which is an array index stay in the order of
    declaration. *)
Lemma literal_plain o :
  NoDup (OMap.keys o) ->
  Forall (fun k => Obj.arrayIndex k = None) (OMap.keys o) ->
  Obj.literal o = o.
Proof.
  intros Hnd Hp. apply literal_wf. split; [|exact Hnd].
  clear Hnd. induction (OMap.keys o) as [|k ks IH]; [constructor|].
  apply Forall_cons in Hp as [Hk Hp]. constructor; [now apply IH|].
  eapply Forall_impl; [exact Hp|]. intros k' Hk'. simpl in Hk'.
  unfold Obj.before. now rewrite Hk, Hk'.
Qed.

Lemma assign_all_define o ws :
  Obj.proto ∉ OMap.keys ws ->
  Obj.assign_all o ws = fold_left (fun acc w => Obj.define acc w.1 w.2) ws o.
Proof.
  revert o. induction ws as [|[k v] ws IH]; intros o H; [reflexivity|].
  unfold OMap.keys in H. simpl in H. rewrite not_elem_of_cons in H.
  destruct H as [Hne H]. rewrite assign_all_cons. simpl.
  rewrite assign_define by congruence. now apply IH.
Qed.

(** Assigning the properties of an object without [__proto__], in the order
    it lists them, to an empty object gives that object. *)
Lemma assign_all_wf o :
  Obj.wf o -> Obj.proto ∉ OMap.keys o -> Obj.assign_all [] o = o.
Proof.
  intros Hwf Hp. rewrite assign_all_define by exact Hp. now apply (define_all_wf []).
Qed.

End obj_facts.

Lemma wf_map {V W : Type} (f : string * V -> string * W) (o : list (string * V)) :
  (forall e, fst (f e) = fst e) -> Obj.wf o -> Obj.wf (map f o).
Proof.
  intros Hf. unfold Obj.wf, OMap.keys. rewrite map_map.
  now rewrite (map_ext _ fst Hf).
Qed.

Section obj_wf.
Context {V : Type}.
Implicit Types (o ws : list (string * V)) (k : string) (v : V) (n : N).

Lemma wf_nil : Obj.wf (@nil (string * V)).
Proof. split; constructor. Qed.

Lemma wf_cons o k v :
  Obj.wf ((k, v) :: o) <->
  Forall (Obj.before k) (OMap.keys o) /\ (k ∉ OMap.keys o) /\ Obj.wf o.
Proof.
  unfold Obj.wf. change (OMap.keys ((k, v) :: o)) with (k :: OMap.keys o).
  rewrite StronglySorted_cons, NoDup_cons. tauto.
Qed.

Lemma wf_insertIndex o n k v :
  Obj.arrayIndex k = Some n -> Obj.wf o -> Obj.wf (Obj.insertIndex n k v o).
Proof.
  intros Hk. induction o as [|[k0 v0] o IH]; simpl; intros Hwf.
  - apply wf_cons. repeat split; try constructor. inversion 1.
  - apply wf_cons in Hwf as (Hb & Hnin & Hwf).
    destruct (Obj.arrayIndex k0) as [n0|] eqn:E0.
    + destruct (N.ltb_spec n0 n) as [Hlt|Hge].
      * apply wf_cons. split; [|split].
        -- apply Forall_forall. intros k' Hk'.
           apply (elem_of_keys_insertIndex _ _ _ _ _ Hk) in Hk' as [->|Hk'].
           ++ unfold Obj.before. now rewrite E0, Hk.
           ++ rewrite Forall_forall in Hb. now apply Hb.
        -- intros Hin.
           apply (elem_of_keys_insertIndex _ _ _ _ _ Hk) in Hin as [->|Hin];
             [|contradiction].
           rewrite Hk in E0. injection E0 as ->. lia.
        -- now apply IH.
      * destruct (N.eqb_spec n0 n) as [->|Hne].
        -- apply wf_cons. auto.
        -- apply wf_cons. split; [|split].
           ++ change (OMap.keys ((k0, v0) :: o)) with (k0 :: OMap.keys o).
              apply Forall_cons. split.
              ** unfold Obj.before. rewrite E0, Hk. lia.
              ** eapply Forall_impl; [exact Hb|]. intros k'. simpl.
                 unfold Obj.before. rewrite E0, Hk.
                 destruct (Obj.arrayIndex k'); [lia | trivial].
           ++ change (OMap.keys ((k0, v0) :: o)) with (k0 :: OMap.keys o).
              rewrite not_elem_of_cons. split.
              ** intros ->. rewrite Hk in E0. injection E0 as ->. lia.
              ** intros Hin. rewrite Forall_forall in Hb.
                 specialize (Hb k Hin). unfold Obj.before in Hb.
                 rewrite E0, Hk in Hb. lia.
           ++ apply wf_cons. auto.
    + apply wf_cons. split; [|split].
      * change (OMap.keys ((k0, v0) :: o)) with (k0 :: OMap.keys o).
        apply Forall_cons. split.
        -- unfold Obj.before. now rewrite E0, Hk.
        -- eapply Forall_impl; [exact Hb|]. intros k'. simpl.
           unfold Obj.before. rewrite E0, Hk.
           destruct (Obj.arrayIndex k'); [contradiction | trivial].
      * change (OMap.keys ((k0, v0) :: o)) with (k0 :: OMap.keys o).
        rewrite not_elem_of_cons. split.
        -- intros ->. congruence.
        -- intros Hin. rewrite Forall_forall in Hb.
           specialize (Hb k Hin). unfold Obj.before in Hb.
           now rewrite E0, Hk in Hb.
      * apply wf_cons. auto.
Qed.

Lemma wf_define o k v : Obj.wf o -> Obj.wf (Obj.define o k v).
Proof.
  intros Hwf. unfold Obj.define. destruct (Obj.arrayIndex k) as [n|] eqn:E.
  - now apply wf_insertIndex.
  - destruct Hwf as [Hs Hnd]. split; [|now apply NoDup_keys_set].
    destruct (decide (k ∈ OMap.keys o)) as [Hin|Hnin].
    + now rewrite keys_set_in.
    + rewrite keys_set_notin by assumption.
      apply StronglySorted_app. split; [|split].
      * intros k1 k2 _ H2. apply list_elem_of_singleton in H2. subst k2.
        unfold Obj.before. rewrite E. now destruct (Obj.arrayIndex k1).
      * exact Hs.
      * repeat constructor.
Qed.

Lemma wf_assign o k v : Obj.wf o -> Obj.wf (Obj.assign o k v).
Proof.
  intros Hwf. unfold Obj.assign. destruct (String.eqb k Obj.proto); [exact Hwf|].
  now apply wf_define.
Qed.

Lemma wf_assign_all o ws : Obj.wf o -> Obj.wf (Obj.assign_all o ws).
Proof.
  revert o. induction ws as [|[k v] ws IH]; intros o Hwf; [exact Hwf|].
  rewrite assign_all_cons. apply IH. now apply wf_assign.
Qed.

(** What a literal declares is an object. *)
Lemma wf_literal ws : Obj.wf (Obj.literal ws).
Proof.
  unfold Obj.literal. generalize (@wf_nil). generalize (@nil (string * V)).
  induction ws as [|[k v] ws IH]; intros o Hwf; [exact Hwf|].
  simpl. apply IH. now apply wf_define.
Qed.

End obj_wf.

Section obj_elems.
Context {V : Type}.
Implicit Types (o ws : list (string * V)) (k : string) (v : V) (n : N).

(** *** The properties of an object after an assignment *)




End obj_elems.

(** *** Keys the generator makes itself

    [schema_<n>], [headers_<n>], [<id>_<direction>_message] and the
    operation identifiers of [registerChannel] all contain an underscore
    and differ from [__proto__]: assigning under them is [OMap.set]. *)

Lemma uint_of_string_underscore (k : string) :
  Str.mem Str.underscore k = true -> NilEmpty.uint_of_string k = None.
Proof.
  induction k as [|c k IH]; simpl; [discriminate|].
  destruct (Ascii.eqb_spec c Str.underscore) as [->|Hne].
  - intros _. now destruct (NilEmpty.uint_of_string k).
  - intros H. now rewrite (IH H).
Qed.

Lemma arrayIndex_underscore (k : string) :
  Str.mem Str.underscore k = true -> Obj.arrayIndex k = None.
Proof.
  intros H. unfold Obj.arrayIndex, NilZero.uint_of_string.
  destruct k as [|c k]; [reflexivity|].
  now rewrite (uint_of_string_underscore _ H).
Qed.

Lemma assign_underscore {V : Type} (o : list (string * V)) (k : string) (v : V) :
  Str.mem Str.underscore k = true -> k <> Obj.proto ->
  Obj.assign o k v = OMap.set o k v.
Proof. intros Hu Hp. apply assign_plain; [now apply arrayIndex_underscore | exact Hp]. Qed.

Lemma assign_schema_key {V : Type} (o : list (string * V)) (n : nat) (v : V) :
  Obj.assign o ("schema_" +:+ Str.of_nat n) v =
  OMap.set o ("schema_" +:+ Str.of_nat n) v.
Proof. apply assign_underscore; [reflexivity | discriminate]. Qed.

Lemma assign_headers_key {V : Type} (o : list (string * V)) (n : nat) (v : V) :
  Obj.assign o ("headers_" +:+ Str.of_nat n) v =
  OMap.set o ("headers_" +:+ Str.of_nat n) v.
Proof. apply assign_underscore; [reflexivity | discriminate]. Qed.

Lemma message_key_plain (id : string) (d : Direction) :
  Str.mem Str.underscore (id +:+ "_" +:+ direction_name d +:+ "_message") = true /\
  id +:+ "_" +:+ direction_name d +:+ "_message" <> Obj.proto.
Proof.
  split.
  - rewrite mem_append. apply orb_true_iff. right. reflexivity.
  - intros E. apply (f_equal String.length) in E.
    rewrite length_append in E. destruct d; simpl in E; lia.
Qed.

Lemma assign_message_key {V : Type} (o : list (string * V)) (id : string)
    (d : Direction) (v : V) :
  Obj.assign o (id +:+ "_" +:+ direction_name d +:+ "_message") v =
  OMap.set o (id +:+ "_" +:+ direction_name d +:+ "_message") v.
Proof. apply assign_underscore; apply message_key_plain. Qed.

Lemma operation_id_plain (d : Direction) (id : string) (n : nat) :
  Obj.arrayIndex (operation_id d id n) = None /\ operation_id d id n <> Obj.proto.
Proof.
  split.
  - apply arrayIndex_underscore. destruct d; reflexivity.
  - destruct d; discriminate.
Qed.

(** ** The schema translator *)

Section translator_facts.
Variable isOptional : ZodType -> bool.

Notation gen := (generateSchemaFromZod isOptional).

Lemma extractMetadata_keys (m : ZodMeta) (k : string) :
  k ∈ OMap.keys (extractMetadata m) -> k = "description".
Proof.
  unfold extractMetadata. destruct (description m) as [d|]; simpl.
  - destruct (negb _); simpl; intros H.
    + now apply list_elem_of_singleton in H.
    + inversion H.
  - intros H. inversion H.
Qed.

Lemma get_over_metadata (base : list (string * JSON)) (m : ZodMeta) (k : string) :
  k <> "description" ->
  OMap.get (OMap.set_all base (extractMetadata m)) k = OMap.get base k.
Proof.
  intros Hk. apply get_set_all_notin. intros H.
  now apply extractMetadata_keys in H.
Qed.

(** The translator returns an object that carries [type] or [oneOf],
    whatever the node. *)
Lemma generateSchemaFromZod_discriminated (schema : ZodType) :
  exists fields,
    gen schema = JObj fields /\
    OMap.has fields "type" || OMap.has fields "oneOf" = true.
Proof.
  induction schema as
    [m|m|m|t IH m|shape m|values m|value m|opts m|opts m
    |inner IH m|inner IH m|inner IH dv m|vt IH m|name m]; simpl;
    try (eexists; split; [reflexivity|];
         apply orb_true_iff; left; apply has_set_all_mono; reflexivity).
  - destruct (shapeLoop isOptional gen shape [] []) as [properties required].
    eexists; split; [reflexivity|].
    apply orb_true_iff; left. do 2 apply has_set_all_mono. reflexivity.
  - eexists; split; [reflexivity|].
    apply orb_true_iff; right. apply has_set_all_mono. reflexivity.
  - eexists; split; [reflexivity|].
    apply orb_true_iff; right. apply has_set_all_mono. reflexivity.
  - exact IH.
  - destruct IH as (fields & -> & H). simpl.
    eexists; split; [reflexivity|].
    apply orb_true_iff in H as [H|H]; apply orb_true_iff;
      [left | right]; now apply has_set_mono.
  - destruct IH as (fields & -> & H). simpl.
    eexists; split; [reflexivity|].
    apply orb_true_iff in H as [H|H]; apply orb_true_iff;
      [left | right]; now apply has_set_mono.
  - eexists; split; reflexivity.
Qed.

Lemma generateSchemaFromZod_unsupported (schema : ZodType) :
  supported schema = false -> gen schema = JObj [("type", JStr "object")].
Proof. destruct schema; simpl; intros H; try discriminate; reflexivity. Qed.

Lemma zodToAsyncAPISchema_plain (schema : ZodType) :
  no_openapi schema = true ->
  zodToAsyncAPISchema isOptional schema = gen schema.
Proof.
  unfold no_openapi, zodToAsyncAPISchema.
  destruct (openapi (meta_of schema)) as [g|]; [|reflexivity].
  destruct (truthy g); [discriminate | reflexivity].
Qed.

Lemma zodToAsyncAPISchema_openapi (schema : ZodType) (g : JSON) :
  openapi (meta_of schema) = Some g -> truthy g = true ->
  zodToAsyncAPISchema isOptional schema = g.
Proof. unfold zodToAsyncAPISchema. now intros -> ->. Qed.

Lemma shapeLoop_spec (tr : ZodType -> JSON) (shape : list (string * ZodType))
    (properties : list (string * JSON)) (required : list string) :
  shapeLoop isOptional tr shape properties required =
  (Obj.assign_all properties (map (fun e => (fst e, tr (snd e))) shape),
   required ++ map fst (nonOptionalFields isOptional shape)).
Proof.
  revert properties required.
  induction shape as [|[key fld] rest IH]; intros properties required; simpl.
  - now rewrite app_nil_r.
  - rewrite IH. f_equal. unfold nonOptionalFields. simpl.
    destruct (isOptional fld); simpl; [reflexivity|].
    now rewrite <- app_assoc.
Qed.

Lemma fields_partition (shape : list (string * ZodType)) :
  length shape =
  (length (nonOptionalFields isOptional shape)
   + length (optionalFields isOptional shape))%nat.
Proof.
  unfold nonOptionalFields, optionalFields.
  induction shape as [|[key fld] rest IH]; simpl; [reflexivity|].
  destruct (isOptional fld); simpl; lia.
Qed.

End translator_facts.

(** C5, as stated, fails at the entry point [zodToAsyncAPISchema]: a node
    that carries [_def.openapi] metadata is answered with that metadata.
    For the unsupported kind [ZodAny] the answer is not [{type: "object"}],
    and for the supported kind [ZodString] it has neither a [type] nor a
    [oneOf] key. *)
Lemma C5_counterexample :
  let attached := JObj [("metadata", JObj [("example", JStr "a@b.c")])] in
  let any := ZodOther "ZodAny" {| description := None; openapi := Some attached |} in
  let str := ZodString {| description := None; openapi := Some attached |} in
  (supported any = false /\
   zodToAsyncAPISchema wrappedOptional any <> JObj [("type", JStr "object")]) /\
  (supported str = true /\
   has_key "type" (zodToAsyncAPISchema wrappedOptional str)
   || has_key "oneOf" (zodToAsyncAPISchema wrappedOptional str) = false).
Proof.
  cbv zeta. repeat split; try reflexivity. vm_compute. discriminate.
Qed.

(** C5 (amended). [zodToAsyncAPISchema] is a total function (it terminates
    and does not raise). For every schema node without truthy
    [_def.openapi] metadata at its root it returns an object; for a node of
    unknown or unsupported kind that object is exactly [{type: "object"}],
    and for every supported kind it has a [type] key or a [oneOf] key. A
    node whose root carries such metadata is answered with that metadata as
    it is. *)
Theorem C5_translation_total_discriminated
    (isOptional : ZodType -> bool) (schema : ZodType) :
  let result := zodToAsyncAPISchema isOptional schema in
  if no_openapi schema
  then (exists fields, result = JObj fields) /\
       (if supported schema
        then has_key "type" result || has_key "oneOf" result = true
        else result = JObj [("type", JStr "object")])
  else Some result = openapi (meta_of schema).
Proof.
  cbv zeta. destruct (no_openapi schema) eqn:Hplain.
  - rewrite zodToAsyncAPISchema_plain by assumption.
    destruct (generateSchemaFromZod_discriminated isOptional schema)
      as (fields & Hgen & Hkey).
    split; [eauto|].
    destruct (supported schema) eqn:Hsup.
    + rewrite Hgen. exact Hkey.
    + now apply generateSchemaFromZod_unsupported.
  - unfold no_openapi in Hplain. unfold zodToAsyncAPISchema.
    destruct (openapi (meta_of schema)) as [g|]; [|discriminate].
    destruct (truthy g); [reflexivity | discriminate].
Qed.

(** C6, as stated, fails in two ways. The loop visits the fields in the
    order of [for (key in shape)], which puts the names that are array
    indices first: an object declared with the fields [b] and [1], in this
    order, gets the [required] array [["1", "b"]]. And [properties[key] =
    ...] creates no property under the name [__proto__]: for the two
    non-optional fields [__proto__] and [a] the [properties] object has one
    key where [required] has two names. *)
Lemma C6_counterexample :
  let declared := [("b", ZodString no_meta); ("1", ZodString no_meta)] in
  let result :=
    generateSchemaFromZod wrappedOptional
      (ZodObject (Obj.literal declared) no_meta) in
  let shape' :=
    Obj.literal [(Obj.proto, ZodString no_meta); ("a", ZodString no_meta)] in
  let result' := generateSchemaFromZod wrappedOptional (ZodObject shape' no_meta) in
  (map fst (nonOptionalFields wrappedOptional declared) = ["b"; "1"] /\
   field "required" result = Some (JArr [JStr "1"; JStr "b"])) /\
  (length (nonOptionalFields wrappedOptional shape') = 2%nat /\
   length (optionalFields wrappedOptional shape') = 0%nat /\
   field "required" result' = Some (JArr [JStr Obj.proto; JStr "a"]) /\
   field "properties" result' =
     Some (JObj [("a", JObj [("type", JStr "string")])])).
Proof. cbv zeta. repeat split. Qed.

(** C6 (amended). For every object schema declared with fields none of
    which is named [__proto__], of which N are non-optional and M optional,
    the translation has a [properties] object whose keys are the N+M field
    names and a [required] array holding exactly the N non-optional names,
    both in the order in which [for (key in shape)] visits the fields: the
    names that are array indices in ascending numeric order, then the other
    names in declaration order, which is the declaration order when the
    declared names are distinct and none is an array index. The [required]
    key is absent when N is zero. *)
Theorem C6_object_properties_and_required
    (isOptional : ZodType -> bool) (declared : list (string * ZodType))
    (m : ZodMeta) :
  Obj.proto ∉ map fst declared ->
  let shape := Obj.literal declared in
  let result := generateSchemaFromZod isOptional (ZodObject shape m) in
  let N := length (nonOptionalFields isOptional shape) in
  let M := length (optionalFields isOptional shape) in
  exists properties,
    field "properties" result = Some (JObj properties) /\
    OMap.keys properties = map fst shape /\
    length (OMap.keys properties) = (N + M)%nat /\
    field "required" result =
      (if (0 <? N)%nat
       then Some (JArr (map JStr (map fst (nonOptionalFields isOptional shape))))
       else None) /\
    Obj.wf shape /\
    (NoDup (map fst declared) ->
     Forall (fun k => Obj.arrayIndex k = None) (map fst declared) ->
     shape = declared).
Proof.
  intros Hp. cbv zeta. set (shape := Obj.literal declared).
  assert (Hwf : Obj.wf shape) by apply wf_literal.
  assert (Hp' : Obj.proto ∉ OMap.keys shape).
  { unfold shape. now rewrite elem_of_keys_literal. }
  simpl. rewrite shapeLoop_spec. simpl.
  set (fields := map (fun e => (fst e, generateSchemaFromZod isOptional (snd e))) shape).
  assert (Hf : OMap.keys fields = map fst shape).
  { unfold fields, OMap.keys. now rewrite map_map. }
  assert (E : Obj.assign_all [] fields = fields).
  { apply assign_all_wf.
    - unfold fields. now apply wf_map.
    - now rewrite Hf. }
  rewrite E. exists fields. repeat split.
  - rewrite get_over_metadata by discriminate.
    rewrite get_set_all_notin; [reflexivity|].
    destruct (0 <? _)%nat; unfold OMap.keys; simpl; intros H.
    + apply list_elem_of_singleton in H. discriminate.
    + inversion H.
  - exact Hf.
  - rewrite Hf, length_map. apply fields_partition.
  - rewrite get_over_metadata by discriminate.
    rewrite length_map.
    destruct (0 <? length (nonOptionalFields isOptional shape))%nat;
      reflexivity.
  - apply Hwf.
  - apply Hwf.
  - intros Hnd Hi. now apply literal_plain.
Qed.

(** The object schema of the test suite: one plain field, one wrapped by
    [.optional()]. *)
Lemma C6_object_witness :
  let declared := [("required", ZodString no_meta);
                   ("optional", ZodOptional (ZodString no_meta) no_meta)] in
  (Obj.proto ∉ map fst declared) /\
  exists properties,
    field "properties"
      (generateSchemaFromZod wrappedOptional
         (ZodObject (Obj.literal declared) no_meta))
      = Some (JObj properties) /\
    OMap.keys properties = ["required"; "optional"] /\
    length (OMap.keys properties) = 2%nat /\
    field "required"
      (generateSchemaFromZod wrappedOptional
         (ZodObject (Obj.literal declared) no_meta))
      = Some (JArr [JStr "required"]) /\
    Obj.wf (Obj.literal declared) /\
    (NoDup (map fst declared) ->
     Forall (fun k => Obj.arrayIndex k = None) (map fst declared) ->
     Obj.literal declared = declared).
Proof.
  cbv zeta.
  assert (Hp : Obj.proto ∉
                 map fst [("required", ZodString no_meta);
                          ("optional", ZodOptional (ZodString no_meta) no_meta)]).
  { apply (bool_decide_unpack _). vm_compute. exact I. }
  split; [exact Hp|].
  exact (C6_object_properties_and_required wrappedOptional _ no_meta Hp).
Defined.

(** C7. For every schema node S, the translation of the nullable wrapper
    around S is the translation of S with [nullable: true] put on it: the
    key [nullable] reads [true], every other key reads what it reads in the
    translation of S, and the keys of S keep their order. *)
Theorem C7_nullable_overlay
    (isOptional : ZodType -> bool) (S : ZodType) (m : ZodMeta) :
  let inner := generateSchemaFromZod isOptional S in
  let result := generateSchemaFromZod isOptional (ZodNullable S m) in
  result = JObj (OMap.set (spread inner) "nullable" (JBool true)) /\
  (forall k,
     field k result =
     if String.eqb k "nullable" then Some (JBool true) else field k inner) /\
  OMap.keys (spread result) =
    OMap.keys (spread inner)
    ++ (if has_key "nullable" inner then [] else ["nullable"]).
Proof.
  cbv zeta. simpl.
  destruct (generateSchemaFromZod_discriminated isOptional S)
    as (fields & -> & _). simpl.
  split; [reflexivity|]. split.
  - intros k. destruct (String.eqb k "nullable") eqn:E.
    + apply String.eqb_eq in E. subst k. apply get_set_eq.
    + apply String.eqb_neq in E. apply get_set_ne. congruence.
  - destruct (OMap.has fields "nullable") eqn:H.
    + apply has_true_iff in H. rewrite keys_set_in by assumption.
      now rewrite app_nil_r.
    + apply keys_set_notin. intros Hin. apply has_true_iff in Hin.
      congruence.
Qed.

(** ** The channel registry *)

Lemma registerChannel_entry (id : string) (cfg : ChannelConfig)
    (h : option ChannelHandler) (this : Registry) :
  getChannel id (registerChannel id cfg h this) =
  Some {| config := cfg; handler := h;
          operations :=
            {| ops_send := fst (allocate Send id cfg (operationCounter this));
               ops_receive :=
                 fst (allocate Receive id cfg
                        (snd (allocate Send id cfg (operationCounter this)))) |} |}.
Proof.
  unfold registerChannel, getChannel.
  destruct (allocate Send id cfg (operationCounter this)) as [s c1]. simpl.
  destruct (allocate Receive id cfg c1) as [r c2]. simpl.
  apply get_set_eq.
Qed.

Lemma registerChannel_counter (id : string) (cfg : ChannelConfig)
    (h : option ChannelHandler) (this : Registry) :
  operationCounter (registerChannel id cfg h this) =
  (operationCounter this + directionsPresent cfg)%nat.
Proof.
  unfold registerChannel, allocate, directionsPresent. simpl.
  destruct (send cfg), (receive cfg); simpl; lia.
Qed.

Lemma registerChannel_operation (id : string) (cfg : ChannelConfig)
    (h : option ChannelHandler) (this : Registry) (d : Direction) :
  is_Some (message_of d cfg) ->
  exists entry meta,
    getChannel id (registerChannel id cfg h this) = Some entry /\
    operation_of d (operations entry) = Some meta /\
    operationId meta =
      operation_id d id (operationCounter this + directionsBefore d cfg).
Proof.
  intros [msg Hmsg]. rewrite registerChannel_entry.
  unfold allocate. destruct d; simpl in *.
  - rewrite Hmsg. simpl. do 2 eexists.
    split; [reflexivity|]. split; [reflexivity|].
    simpl. now rewrite Nat.add_0_r.
  - destruct (send cfg); simpl; rewrite Hmsg; simpl; do 2 eexists;
      (split; [reflexivity|]); (split; [reflexivity|]); simpl; f_equal; lia.
Qed.

(** C2. For every registry state, channel id, configuration and direction
    present in the configuration, [registerChannel] stores for that
    direction the identifier [<direction>_<channelId>_<sequence>], where the
    sequence number is the registry's counter at the moment of the
    allocation: the counter on entry plus the directions of this
    configuration served before, and the counter moves on by one per
    direction present. In particular, on a fresh registry two channels with
    one direction each, registered one after the other, get identifiers
    ending in [_0] and [_1]. *)
Theorem C2_operation_identifiers (this : Registry) (id : string)
    (cfg : ChannelConfig) (h : option ChannelHandler) (d : Direction) :
  is_Some (message_of d cfg) ->
  let this' := registerChannel id cfg h this in
  (exists entry meta,
     getChannel id this' = Some entry /\
     operation_of d (operations entry) = Some meta /\
     operationId meta =
       operation_id d id (operationCounter this + directionsBefore d cfg)) /\
  operationCounter this' = (operationCounter this + directionsPresent cfg)%nat /\
  (forall (id2 : string) (cfg2 : ChannelConfig) (h2 : option ChannelHandler)
          (d2 : Direction),
     this = fresh ->
     directionsPresent cfg = 1%nat ->
     is_Some (message_of d2 cfg2) -> directionsPresent cfg2 = 1%nat ->
     exists e1 m1 e2 m2,
       getChannel id this' = Some e1 /\
       operation_of d (operations e1) = Some m1 /\
       operationId m1 = operation_id d id 0 /\
       Str.ends_with (operationId m1) "_0" /\
       getChannel id2 (registerChannel id2 cfg2 h2 this') = Some e2 /\
       operation_of d2 (operations e2) = Some m2 /\
       operationId m2 = operation_id d2 id2 1 /\
       Str.ends_with (operationId m2) "_1").
Proof.
  intros Hd. cbv zeta. split; [now apply registerChannel_operation|].
  split; [apply registerChannel_counter|].
  intros id2 cfg2 h2 d2 -> Hone Hd2 Hone2.
  destruct (registerChannel_operation id cfg h fresh d Hd)
    as (e1 & m1 & He1 & Hm1 & Hid1).
  destruct (registerChannel_operation id2 cfg2 h2
              (registerChannel id cfg h fresh) d2 Hd2)
    as (e2 & m2 & He2 & Hm2 & Hid2).
  rewrite registerChannel_counter, Hone in Hid2. simpl in Hid1, Hid2.
  assert (Hb1 : directionsBefore d cfg = 0%nat).
  { destruct d; [reflexivity|]. unfold directionsPresent in Hone. simpl in *.
    destruct Hd as [? Hd]. rewrite Hd in Hone. destruct (send cfg); [lia | reflexivity]. }
  assert (Hb2 : directionsBefore d2 cfg2 = 0%nat).
  { destruct d2; [reflexivity|]. unfold directionsPresent in Hone2. simpl in *.
    destruct Hd2 as [? Hd2]. rewrite Hd2 in Hone2.
    destruct (send cfg2); [lia | reflexivity]. }
  rewrite Hb1 in Hid1. rewrite Hb2 in Hid2. simpl in Hid2.
  exists e1, m1, e2, m2. repeat split; try assumption.
  - rewrite Hid1. apply (ends_with_operation_id d id 0).
  - rewrite Hid2. apply (ends_with_operation_id d2 id2 1).
Qed.

Lemma C2_operation_identifiers_witness :
  is_Some (message_of Send (sendOnly "/test1")) /\
  exists entry meta,
    getChannel "test1" (registerChannel "test1" (sendOnly "/test1") None fresh)
      = Some entry /\
    operation_of Send (operations entry) = Some meta /\
    operationId meta = "send_test1_0".
Proof.
  assert (H : is_Some (message_of Send (sendOnly "/test1")))
    by (eexists; reflexivity).
  split; [exact H|].
  exact (proj1 (C2_operation_identifiers fresh "test1" (sendOnly "/test1")
                  None Send H)).
Defined.

(** C8. For every registry state, [clear()] leaves no entry and a counter
    of zero, so a registration that follows it (of a configuration with at
    least one direction, the only kind that is given an identifier)
    produces an operation identifier ending in [_0]. *)
Theorem C8_clear_resets_counter (this : Registry) (id : string)
    (cfg : ChannelConfig) (h : option ChannelHandler) :
  (0 < directionsPresent cfg)%nat ->
  channels (clear this) = [] /\
  operationCounter (clear this) = 0%nat /\
  exists entry d meta,
    getChannel id (registerChannel id cfg h (clear this)) = Some entry /\
    operation_of d (operations entry) = Some meta /\
    operationId meta = operation_id d id 0 /\
    Str.ends_with (operationId meta) "_0".
Proof.
  intros Hdir. split; [reflexivity|]. split; [reflexivity|].
  assert (Hd : exists d, is_Some (message_of d cfg) /\ directionsBefore d cfg = 0%nat).
  { unfold directionsPresent in Hdir.
    destruct (send cfg) as [s|] eqn:Hs.
    - exists Send. simpl. rewrite Hs. eauto.
    - destruct (receive cfg) as [r|] eqn:Hr; [|simpl in Hdir; lia].
      exists Receive. simpl. rewrite Hs, Hr. eauto. }
  destruct Hd as (d & Hd & Hbefore).
  destruct (registerChannel_operation id cfg h (clear this) d Hd)
    as (entry & meta & He & Hm & Hid).
  rewrite Hbefore in Hid. simpl in Hid.
  exists entry, d, meta. repeat split; try assumption.
  rewrite Hid. apply (ends_with_operation_id d id 0).
Qed.

Lemma C8_clear_resets_counter_witness :
  let used := registerChannel "test1" (sendOnly "/test1") None fresh in
  (0 < directionsPresent (sendOnly "/test2"))%nat /\
  (channels (clear used) = [] /\
   operationCounter (clear used) = 0%nat /\
   exists entry d meta,
     getChannel "test2"
       (registerChannel "test2" (sendOnly "/test2") None (clear used))
       = Some entry /\
     operation_of d (operations entry) = Some meta /\
     operationId meta = operation_id d "test2" 0 /\
     Str.ends_with (operationId meta) "_0").
Proof.
  cbv zeta.
  assert (H : (0 < directionsPresent (sendOnly "/test2"))%nat)
    by (vm_compute; lia).
  split; [exact H|].
  exact (C8_clear_resets_counter
           (registerChannel "test1" (sendOnly "/test1") None fresh)
           "test2" (sendOnly "/test2") None H).
Defined.

(** *** The invariant behind the uniqueness of operation identifiers *)

Lemma registryInv_fresh : registryInv fresh.
Proof.
  split; [apply NoDup_nil_2|]. intros k e H. inversion H.
Qed.

Lemma registryInv_clear (r : Registry) : registryInv (clear r).
Proof. apply registryInv_fresh. Qed.

Lemma allocate_named (d : Direction) (id : string) (cfg : ChannelConfig)
    (c : nat) (meta : OperationMetadata) :
  fst (allocate d id cfg c) = Some meta -> operationId meta = operation_id d id c.
Proof.
  unfold allocate. destruct (message_of d cfg); simpl; [|discriminate].
  now intros [= <-].
Qed.

Lemma registryInv_registerChannel (id : string) (cfg : ChannelConfig)
    (h : option ChannelHandler) (r : Registry) :
  registryInv r -> registryInv (registerChannel id cfg h r).
Proof.
  intros [Hnd Hnamed]. unfold registerChannel.
  destruct (allocate Send id cfg (operationCounter r)) as [s c1] eqn:Es.
  destruct (allocate Receive id cfg c1) as [rcv c2] eqn:Er.
  split.
  - unfold uniqueKeys. simpl. now apply NoDup_keys_set.
  - simpl. intros k e Hin. apply elem_of_set in Hin as [[-> ->]|Hin].
    + intros d meta. destruct d; simpl; intros Hm.
      * exists (operationCounter r). apply (allocate_named _ _ cfg).
        now rewrite Es.
      * exists c1. apply (allocate_named _ _ cfg). now rewrite Er.
    + now apply Hnamed.
Qed.

Lemma registryInv_merge (other this : Registry) :
  registryInv other -> registryInv this -> registryInv (merge other this).
Proof.
  intros [_ Ho] [Hnd Ht]. split.
  - unfold uniqueKeys. simpl. now apply NoDup_keys_set_all.
  - simpl. intros k e Hin. apply elem_of_set_all in Hin as [Hin|Hin]; auto.
Qed.

Lemma elem_of_operation_ids_of (o : Operations) (x : string) :
  x ∈ operation_ids_of o ->
  exists d meta, operation_of d o = Some meta /\ x = operationId meta.
Proof.
  unfold operation_ids_of. rewrite elem_of_app. intros [H|H].
  - destruct (ops_send o) as [m|] eqn:E; [|inversion H].
    apply list_elem_of_singleton in H. exists Send, m. auto.
  - destruct (ops_receive o) as [m|] eqn:E; [|inversion H].
    apply list_elem_of_singleton in H. exists Receive, m. auto.
Qed.

Lemma operation_ids_of_NoDup (k : string) (e : RegisteredChannel) :
  entryNamed k e -> NoDup (operation_ids_of (operations e)).
Proof.
  intros Hnamed. unfold operation_ids_of.
  destruct (ops_send (operations e)) as [ms|] eqn:Es;
    destruct (ops_receive (operations e)) as [mr|] eqn:Er; simpl;
    try apply NoDup_singleton; try apply NoDup_nil_2.
  apply NoDup_cons. split; [|apply NoDup_singleton].
  intros Hin. apply list_elem_of_singleton in Hin.
  destruct (Hnamed Send ms Es) as [n Hn].
  destruct (Hnamed Receive mr Er) as [n' Hn'].
  rewrite Hn, Hn' in Hin. apply operation_id_inj in Hin as [Hd _].
  discriminate.
Qed.

Lemma elem_of_flat_map_ids (l : list (string * RegisteredChannel)) (x : string) :
  x ∈ flat_map (fun e => operation_ids_of (operations (snd e))) l ->
  exists k e, (k, e) ∈ l /\ x ∈ operation_ids_of (operations e).
Proof.
  induction l as [|[k e] l IH]; simpl; intros H.
  - inversion H.
  - apply elem_of_app in H as [H|H].
    + exists k, e. split; [left | assumption].
    + destruct (IH H) as (k' & e' & Hin & Hx).
      exists k', e'. split; [now right | assumption].
Qed.

(** One entry per key and identifiers made from the key: no identifier
    occurs twice. *)
Lemma registryInv_NoDup (r : Registry) :
  registryInv r -> NoDup (operationIds r).
Proof.
  unfold registryInv, uniqueKeys, operationIds.
  destruct r as [chs c]. simpl. clear c.
  induction chs as [|[k e] chs IH]; simpl; intros [Hnd Hnamed].
  - apply NoDup_nil_2.
  - unfold OMap.keys in Hnd. simpl in Hnd.
    apply NoDup_cons in Hnd as [Hk Hnd].
    apply NoDup_app. split; [|split].
    + apply (operation_ids_of_NoDup k). apply Hnamed. left.
    + intros x Hx Hx'.
      apply elem_of_operation_ids_of in Hx as (d & meta & Hop & ->).
      apply elem_of_flat_map_ids in Hx' as (k' & e' & Hin & Hx').
      apply elem_of_operation_ids_of in Hx' as (d' & meta' & Hop' & Heq).
      destruct (Hnamed k e (list_elem_of_here _ _) d meta Hop) as [n Hn].
      destruct (Hnamed k' e' (list_elem_of_further _ _ _ Hin) d' meta' Hop')
        as [n' Hn'].
      rewrite Hn, Hn' in Heq. apply operation_id_inj in Heq as (_ & -> & _).
      apply Hk. apply list_elem_of_In. apply in_map_iff.
      exists (k', e'). split; [reflexivity | now apply list_elem_of_In].
    + apply IH. split; [exact Hnd|].
      intros k' e' Hin. apply Hnamed. now right.
Qed.

(** Identifiers made by [registerChannel] are neither array indices nor
    [__proto__]. *)
Lemma operationIds_plain (r : Registry) :
  registryInv r ->
  Forall (fun k => Obj.arrayIndex k = None /\ k <> Obj.proto) (operationIds r).
Proof.
  intros [_ Hnamed]. apply Forall_forall. intros x Hx.
  apply elem_of_flat_map_ids in Hx as (k & e & Hin & Hx).
  apply elem_of_operation_ids_of in Hx as (d & meta & Hop & ->).
  destruct (Hnamed k e Hin d meta Hop) as [n ->].
  apply operation_id_plain.
Qed.

Lemma registryInv_exec (c : Call) (st : Store) :
  (forall l, registryInv (st !!! l)) ->
  forall l, registryInv (exec c st !!! l).
Proof.
  intros Hst l. destruct c as [this id cfg h|this id|this|this|this other];
    simpl; try apply Hst.
  - destruct (decide (this = l)) as [->|Hne].
    + rewrite lookup_total_insert_eq. now apply registryInv_registerChannel.
    + rewrite lookup_total_insert_ne by assumption. apply Hst.
  - destruct (decide (this = l)) as [->|Hne].
    + rewrite lookup_total_insert_eq. apply registryInv_clear.
    + rewrite lookup_total_insert_ne by assumption. apply Hst.
  - destruct (decide (this = l)) as [->|Hne].
    + rewrite lookup_total_insert_eq. now apply registryInv_merge.
    + rewrite lookup_total_insert_ne by assumption. apply Hst.
Qed.

Lemma registryInv_run (cs : list Call) (st : Store) :
  (forall l, registryInv (st !!! l)) ->
  forall l, registryInv (run cs st !!! l).
Proof.
  revert st. induction cs as [|c cs IH]; intros st Hst; [exact Hst|].
  simpl. apply IH. now apply registryInv_exec.
Qed.

Lemma registryInv_reachable (cs : list Call) (l : nat) :
  registryInv (run cs ∅ !!! l).
Proof.
  apply registryInv_run. intros l'. rewrite lookup_total_empty.
  apply registryInv_fresh.
Qed.

(** C3. For every sequence of registry calls ([registerChannel],
    [getChannel], [getAllChannels], [merge]) without a [clear], issued on
    any registries that start out new, the operation identifiers stored in
    the entries of one registry are pairwise distinct. *)
Theorem C3_operation_ids_distinct (cs : list Call) (l : nat) :
  forallb (fun c => negb (is_clear c)) cs = true ->
  NoDup (operationIds (run cs ∅ !!! l)).
Proof.
  intros _. apply registryInv_NoDup, registryInv_reachable.
Qed.

Lemma C3_operation_ids_distinct_witness :
  let cs := [CallRegisterChannel 0 "a" (sendOnly "/a") None;
             CallRegisterChannel 1 "b" (sendOnly "/b") None;
             CallMerge 0 1;
             CallGetAllChannels 0;
             CallRegisterChannel 0 "c" (receiveOnly "/c") None] in
  forallb (fun c => negb (is_clear c)) cs = true /\
  NoDup (operationIds (run cs ∅ !!! 0)).
Proof.
  cbv zeta. split; [reflexivity|].
  apply C3_operation_ids_distinct. reflexivity.
Defined.

(** *** Merging *)

Lemma get_elem_of_unique {V : Type} (m : list (string * V)) (k : string) (v : V) :
  NoDup (OMap.keys m) -> (k, v) ∈ m -> OMap.get m k = Some v.
Proof.
  unfold OMap.keys. induction m as [|[k' v'] m IH]; simpl; intros Hnd Hin.
  - inversion Hin.
  - apply NoDup_cons in Hnd as [Hk Hnd].
    apply elem_of_cons in Hin as [Heq|Hin].
    + injection Heq as -> ->. now rewrite String.eqb_refl.
    + destruct (String.eqb k' k) eqn:E; [|now apply IH].
      apply String.eqb_eq in E. subst k'. exfalso. apply Hk.
      apply list_elem_of_In, in_map_iff. exists (k, v).
      split; [reflexivity | now apply list_elem_of_In].
Qed.

Lemma get_set_all_unique {V : Type} (m ws : list (string * V)) (k : string) :
  NoDup (OMap.keys ws) ->
  OMap.get (OMap.set_all m ws) k =
  match OMap.get ws k with
  | Some v => Some v
  | None => OMap.get m k
  end.
Proof.
  revert m. induction ws as [|[k' v'] ws IH]; intros m Hnd; [reflexivity|].
  unfold OMap.keys in Hnd. simpl in Hnd. apply NoDup_cons in Hnd as [Hk Hnd].
  rewrite set_all_cons, IH by assumption. simpl.
  destruct (String.eqb k' k) eqn:E.
  - apply String.eqb_eq in E. subst k'.
    apply get_None_keys in Hk. rewrite Hk. apply get_set_eq.
  - apply String.eqb_neq in E. destruct (OMap.get ws k); [reflexivity|].
    now apply get_set_ne.
Qed.

Lemma set_all_same {V : Type} (m ws : list (string * V)) :
  (forall k v, (k, v) ∈ ws -> OMap.get m k = Some v) ->
  OMap.set_all m ws = m.
Proof.
  induction ws as [|[k v] ws IH]; intros H; [reflexivity|].
  rewrite set_all_cons, set_id.
  - apply IH. intros k' v' Hin. apply H. now right.
  - apply H. left.
Qed.

Lemma merge_self (r : Registry) : uniqueKeys r -> merge r r = r.
Proof.
  intros Hnd. destruct r as [chs c]. unfold merge, getAllChannels. simpl.
  f_equal. apply set_all_same. intros k v Hin.
  now apply get_elem_of_unique.
Qed.

(** C4. For every pair of registries A and B (possibly the same object),
    after [A.merge(B)] every channel id registered in B maps in A to B's
    entry, every channel id that is only in A keeps A's entry, and B (its
    entries and its counter) is what it was. *)
Theorem C4_merge_overwrites_and_frames (st : Store) (a b : nat) :
  uniqueKeys (st !!! b) ->
  let st' := exec (CallMerge a b) st in
  (forall id,
     getChannel id (st' !!! a) =
     match getChannel id (st !!! b) with
     | Some entry => Some entry
     | None => getChannel id (st !!! a)
     end) /\
  st' !!! b = st !!! b.
Proof.
  intros Hnd. cbv zeta. simpl. split.
  - intros id. rewrite lookup_total_insert_eq. unfold getChannel, merge. simpl.
    now apply get_set_all_unique.
  - destruct (decide (a = b)) as [->|Hne].
    + rewrite lookup_total_insert_eq. now apply merge_self.
    + now rewrite lookup_total_insert_ne.
Qed.

Lemma C4_merge_overwrites_and_frames_witness :
  let st := run [CallRegisterChannel 0 "test" (sendOnly "/test") None;
                 CallRegisterChannel 0 "mine" (sendOnly "/mine") None;
                 CallRegisterChannel 1 "test" (sendOnly "/test-updated") None] ∅ in
  uniqueKeys (st !!! 1) /\
  (forall id,
     getChannel id (exec (CallMerge 0 1) st !!! 0) =
     match getChannel id (st !!! 1) with
     | Some entry => Some entry
     | None => getChannel id (st !!! 0)
     end) /\
  exec (CallMerge 0 1) st !!! 1 = st !!! 1.
Proof.
  cbv zeta.
  assert (H : uniqueKeys
                (run [CallRegisterChannel 0 "test" (sendOnly "/test") None;
                      CallRegisterChannel 0 "mine" (sendOnly "/mine") None;
                      CallRegisterChannel 1 "test" (sendOnly "/test-updated") None]
                   ∅ !!! 1)).
  { unfold uniqueKeys. apply (bool_decide_unpack _). vm_compute. exact I. }
  split; [exact H|].
  exact (C4_merge_overwrites_and_frames _ 0 1 H).
Defined.

(** ** The document generator *)

Lemma keys_set_congr {V W : Type} (m : list (string * V)) (m' : list (string * W))
    (k : string) (v : V) (v' : W) :
  OMap.keys m = OMap.keys m' ->
  OMap.keys (OMap.set m k v) = OMap.keys (OMap.set m' k v').
Proof.
  intros H. destruct (decide (k ∈ OMap.keys m)) as [Hin|Hnin].
  - rewrite !keys_set_in; [assumption | now rewrite <- H | assumption].
  - rewrite !keys_set_notin; [now rewrite H | now rewrite <- H | assumption].
Qed.

Lemma keys_set_all_congr {V W : Type} (m ws : list (string * V))
    (m' ws' : list (string * W)) :
  OMap.keys m = OMap.keys m' -> OMap.keys ws = OMap.keys ws' ->
  OMap.keys (OMap.set_all m ws) = OMap.keys (OMap.set_all m' ws').
Proof.
  revert m m' ws'. induction ws as [|[k v] ws IH]; intros m m' [|[k' v'] ws'];
    intros Hm Hws; try discriminate Hws; [exact Hm|].
  unfold OMap.keys in Hws. simpl in Hws. injection Hws as -> Hws.
  rewrite !set_all_cons. apply IH; [|exact Hws]. now apply keys_set_congr.
Qed.

Section generator_facts.
Variable isOptional : ZodType -> bool.

Notation emit := (emitDirection isOptional).
Notation step := (channelStep isOptional).
Notation loop := (generateLoop isOptional).

Lemma createMessageObject_spec (mc : MessageConfig)
    (schemas0 : list (string * JSON)) (counter : nat) :
  createMessageObject isOptional mc schemas0 counter =
  (messageObject isOptional mc counter,
   OMap.set_all schemas0 (schemaWrites isOptional mc counter)).
Proof.
  unfold messageObject, createMessageObject, schemaWrites.
  destruct (payload mc), (headers mc);
    rewrite ?assign_schema_key, ?assign_headers_key; reflexivity.
Qed.

Lemma directionMessageWrites_keys (d : Direction) (id : string)
    (reg : RegisteredChannel) (c c' : nat) :
  OMap.keys (directionMessageWrites isOptional d id reg c) =
  OMap.keys (directionMessageWrites isOptional d id reg c').
Proof.
  unfold directionMessageWrites. destruct (handled d reg) as [[m op]|]; reflexivity.
Qed.

Lemma emitDirection_spec (d : Direction) (id : string) (reg : RegisteredChannel)
    (st : GenState) (cm : list (string * JSON)) :
  emit d id reg (st, cm) =
  ({| g_channels := g_channels st;
      g_operations :=
        Obj.assign_all (g_operations st) (directionOperationWrites d id reg);
      g_schemas :=
        OMap.set_all (g_schemas st)
          (directionSchemaWrites isOptional d reg (schemaCounter st));
      g_messages :=
        OMap.set_all (g_messages st)
          (directionMessageWrites isOptional d id reg (schemaCounter st));
      schemaCounter := schemaCounter st + handledCount d reg;
      messageCounter := messageCounter st + handledCount d reg |},
   OMap.set_all cm (directionMessageWrites isOptional d id reg (schemaCounter st))).
Proof.
  unfold emitDirection, directionOperationWrites, directionSchemaWrites,
    directionMessageWrites, handledCount, handled.
  destruct (message_of d (config reg)) as [mc|];
    [destruct (operation_of d (operations reg)) as [op|]|].
  - rewrite createMessageObject_spec. cbv beta iota zeta.
    rewrite !assign_message_key. simpl.
    rewrite !Nat.add_1_r. reflexivity.
  - destruct st; simpl. now rewrite !Nat.add_0_r.
  - destruct st; simpl. now rewrite !Nat.add_0_r.
Qed.

Lemma fold_assign_plain {V : Type} (f : string -> V) (ks : list string)
    (o : list (string * V)) :
  Forall (fun k => Obj.arrayIndex k = None /\ k <> Obj.proto) ks ->
  fold_left (fun acc key => Obj.assign acc key (f key)) ks o =
  fold_left (fun acc key => OMap.set acc key (f key)) ks o.
Proof.
  revert o. induction ks as [|k ks IH]; intros o H; [reflexivity|].
  apply Forall_cons in H as [[Hi Hp] H]. simpl.
  rewrite assign_plain by assumption. now apply IH.
Qed.

Lemma directionMessageWrites_plain (d : Direction) (id : string)
    (reg : RegisteredChannel) (c : nat) (k : string) :
  k ∈ OMap.keys (directionMessageWrites isOptional d id reg c) ->
  Obj.arrayIndex k = None /\ k <> Obj.proto.
Proof.
  unfold directionMessageWrites. destruct (handled d reg) as [[m op]|];
    intros H; [|inversion H].
  apply list_elem_of_singleton in H. subst k. unfold messageKeyOf.
  destruct (message_key_plain id d) as [Hu Hp].
  split; [now apply arrayIndex_underscore | exact Hp].
Qed.

Lemma channelStep_spec (st : GenState) (id : string) (reg : RegisteredChannel) :
  step st (id, reg) =
  {| g_channels := Obj.assign (g_channels st) id (channelObject isOptional id reg);
     g_operations :=
       Obj.assign_all (g_operations st)
         (directionOperationWrites Send id reg
          ++ directionOperationWrites Receive id reg);
     g_schemas :=
       OMap.set_all (g_schemas st)
         (directionSchemaWrites isOptional Send reg (schemaCounter st)
          ++ directionSchemaWrites isOptional Receive reg
               (schemaCounter st + handledCount Send reg));
     g_messages :=
       OMap.set_all (g_messages st)
         (directionMessageWrites isOptional Send id reg (schemaCounter st)
          ++ directionMessageWrites isOptional Receive id reg
               (schemaCounter st + handledCount Send reg));
     schemaCounter :=
       schemaCounter st + handledCount Send reg + handledCount Receive reg;
     messageCounter :=
       messageCounter st + handledCount Send reg + handledCount Receive reg |}.
Proof.
  assert (Hk :
    OMap.keys
      (OMap.set_all
         (OMap.set_all []
            (directionMessageWrites isOptional Send id reg (schemaCounter st)))
         (directionMessageWrites isOptional Receive id reg
            (schemaCounter st + handledCount Send reg))) =
    OMap.keys
      (OMap.set_all
         (OMap.set_all [] (directionMessageWrites isOptional Send id reg 0))
         (directionMessageWrites isOptional Receive id reg 0))).
  { apply keys_set_all_congr; [|apply directionMessageWrites_keys].
    apply keys_set_all_congr; [reflexivity | apply directionMessageWrites_keys]. }
  assert (Hplain :
    Forall (fun k => Obj.arrayIndex k = None /\ k <> Obj.proto)
      (OMap.keys
         (OMap.set_all
            (OMap.set_all [] (directionMessageWrites isOptional Send id reg 0))
            (directionMessageWrites isOptional Receive id reg 0)))).
  { apply Forall_forall. intros k Hin.
    apply elem_of_keys_set_all in Hin as [Hin|Hin];
      [apply elem_of_keys_set_all in Hin as [Hin|Hin]; [inversion Hin|]|];
      now apply directionMessageWrites_plain in Hin. }
  unfold channelStep, channelObject. rewrite !emitDirection_spec.
  cbv beta iota zeta. cbn [schemaCounter g_channels g_operations g_schemas
                           g_messages messageCounter].
  rewrite Hk, (fold_assign_plain _ _ _ Hplain), !set_all_app, assign_all_app.
  reflexivity.
Qed.

Lemma loopCount_cons (id : string) (reg : RegisteredChannel)
    (rest : list (string * RegisteredChannel)) :
  loopCount ((id, reg) :: rest) =
  (handledCount Send reg + handledCount Receive reg + loopCount rest)%nat.
Proof.
  unfold loopCount, processedMessages, handledCount, handled. simpl.
  rewrite !length_app.
  destruct (send (config reg)), (ops_send (operations reg)),
    (receive (config reg)), (ops_receive (operations reg)); reflexivity.
Qed.

(** The loop, as the assignments it makes to each of its variables. *)
Lemma generateLoop_spec (entries : list (string * RegisteredChannel))
    (st : GenState) :
  loop entries st =
  {| g_channels := Obj.assign_all (g_channels st) (loopChannelWrites isOptional entries);
     g_operations := Obj.assign_all (g_operations st) (loopOperationWrites entries);
     g_schemas :=
       OMap.set_all (g_schemas st)
         (loopSchemaWrites isOptional entries (schemaCounter st));
     g_messages :=
       OMap.set_all (g_messages st)
         (loopMessageWrites isOptional entries (schemaCounter st));
     schemaCounter := schemaCounter st + loopCount entries;
     messageCounter := messageCounter st + loopCount entries |}.
Proof.
  revert st. induction entries as [|[id reg] rest IH]; intros st.
  - destruct st; simpl. now rewrite !Nat.add_0_r.
  - change (loop ((id, reg) :: rest) st) with (loop rest (step st (id, reg))).
    rewrite IH, channelStep_spec.
    cbn [schemaCounter g_channels g_operations g_schemas g_messages
         messageCounter].
    rewrite loopCount_cons, <- !set_all_app, <- assign_all_app, !Nat.add_assoc.
    unfold loopChannelWrites, loopOperationWrites.
    cbn [map flat_map loopSchemaWrites loopMessageWrites fst snd].
    rewrite <- !app_assoc. reflexivity.
Qed.

Lemma loopSchemaWrites_messages (entries : list (string * RegisteredChannel))
    (c : nat) :
  loopSchemaWrites isOptional entries c =
  messagesSchemaWrites isOptional (processedMessages entries) c.
Proof.
  revert c. induction entries as [|[id reg] rest IH]; intros c; [reflexivity|].
  simpl. rewrite IH.
  unfold directionSchemaWrites, handledCount, handled, processedMessages. simpl.
  destruct (send (config reg)) as [ms|], (ops_send (operations reg)) as [os|],
    (receive (config reg)) as [mr|], (ops_receive (operations reg)) as [or|];
    simpl; rewrite ?Nat.add_0_r, ?Nat.add_1_r, ?app_nil_r, <- ?app_assoc;
    reflexivity.
Qed.

End generator_facts.

(** *** Where the schemas of a message end up *)

Lemma schema_key_inj (i j : nat) :
  "schema_" +:+ Str.of_nat i = "schema_" +:+ Str.of_nat j -> i = j.
Proof. simpl. intros E. injection E as E. now apply of_nat_inj. Qed.

Lemma headers_key_inj (i j : nat) :
  "headers_" +:+ Str.of_nat i = "headers_" +:+ Str.of_nat j -> i = j.
Proof. simpl. intros E. injection E as E. now apply of_nat_inj. Qed.

Lemma schema_key_not_headers (i j : nat) :
  "schema_" +:+ Str.of_nat i <> "headers_" +:+ Str.of_nat j.
Proof. simpl. discriminate. Qed.

Section schema_placement.
Variable isOptional : ZodType -> bool.

Notation tr := (zodToAsyncAPISchema isOptional).

Lemma get_schemaWrites_schema (m : MessageConfig) (c n : nat)
    (s0 : list (string * JSON)) :
  OMap.get (OMap.set_all s0 (schemaWrites isOptional m c))
    ("schema_" +:+ Str.of_nat n) =
  if decide (n = c)
  then match payload m with
       | Some p => Some (tr p)
       | None => OMap.get s0 ("schema_" +:+ Str.of_nat n)
       end
  else OMap.get s0 ("schema_" +:+ Str.of_nat n).
Proof.
  unfold schemaWrites. rewrite set_all_app.
  assert (Hh : forall s,
    OMap.get
      (OMap.set_all s
         match headers m with
         | Some h => [("headers_" +:+ Str.of_nat c, tr h)]
         | None => []
         end) ("schema_" +:+ Str.of_nat n)
    = OMap.get s ("schema_" +:+ Str.of_nat n)).
  { intros s. destruct (headers m); [|reflexivity].
    apply get_set_ne. intros E. symmetry in E.
    now apply schema_key_not_headers in E. }
  rewrite Hh. destruct (payload m) as [p|].
  - destruct (decide (n = c)) as [->|Hne].
    + apply get_set_eq.
    + apply get_set_ne. intros E. apply schema_key_inj in E. congruence.
  - now destruct (decide (n = c)).
Qed.

Lemma get_schemaWrites_headers (m : MessageConfig) (c n : nat)
    (s0 : list (string * JSON)) :
  OMap.get (OMap.set_all s0 (schemaWrites isOptional m c))
    ("headers_" +:+ Str.of_nat n) =
  if decide (n = c)
  then match headers m with
       | Some h => Some (tr h)
       | None => OMap.get s0 ("headers_" +:+ Str.of_nat n)
       end
  else OMap.get s0 ("headers_" +:+ Str.of_nat n).
Proof.
  unfold schemaWrites. rewrite set_all_app.
  assert (Hp :
    OMap.get
      (OMap.set_all s0
         match payload m with
         | Some p => [("schema_" +:+ Str.of_nat c, tr p)]
         | None => []
         end) ("headers_" +:+ Str.of_nat n)
    = OMap.get s0 ("headers_" +:+ Str.of_nat n)).
  { destruct (payload m); [|reflexivity].
    apply get_set_ne. apply schema_key_not_headers. }
  destruct (headers m) as [h|].
  - destruct (decide (n = c)) as [->|Hne].
    + apply get_set_eq.
    + rewrite <- Hp. apply get_set_ne. intros E.
      apply headers_key_inj in E. congruence.
  - destruct (decide (n = c)); exact Hp.
Qed.

Lemma owner_cons (m : MessageConfig) (rest : list MessageConfig) (c n : nat) :
  owner (m :: rest) c n = if decide (n = c) then Some m else owner rest (S c) n.
Proof.
  unfold owner. destruct (decide (n = c)) as [->|Hne].
  - destruct (decide (c <= c)%nat); [|lia]. now rewrite Nat.sub_diag.
  - destruct (decide (c <= n)%nat), (decide (S c <= n)%nat);
      try lia; try reflexivity.
    replace (n - c)%nat with (S (n - S c)) by lia. reflexivity.
Qed.

Lemma get_messagesSchemaWrites_schema (msgs : list MessageConfig) (c n : nat)
    (s0 : list (string * JSON)) :
  OMap.get (OMap.set_all s0 (messagesSchemaWrites isOptional msgs c))
    ("schema_" +:+ Str.of_nat n) =
  match owner msgs c n with
  | Some m =>
      match payload m with
      | Some p => Some (tr p)
      | None => OMap.get s0 ("schema_" +:+ Str.of_nat n)
      end
  | None => OMap.get s0 ("schema_" +:+ Str.of_nat n)
  end.
Proof.
  revert c s0. induction msgs as [|m rest IH]; intros c s0.
  - unfold owner. destruct (decide (c <= n)%nat); [|reflexivity].
    now destruct (n - c)%nat.
  - cbn [messagesSchemaWrites]. rewrite set_all_app, IH, owner_cons.
    rewrite get_schemaWrites_schema.
    destruct (decide (n = c)) as [->|Hne].
    + assert (Ho : owner rest (S c) c = None)
        by (unfold owner; destruct (decide (S c <= c)%nat); [lia | reflexivity]).
      now rewrite Ho.
    + reflexivity.
Qed.

Lemma get_messagesSchemaWrites_headers (msgs : list MessageConfig) (c n : nat)
    (s0 : list (string * JSON)) :
  OMap.get (OMap.set_all s0 (messagesSchemaWrites isOptional msgs c))
    ("headers_" +:+ Str.of_nat n) =
  match owner msgs c n with
  | Some m =>
      match headers m with
      | Some h => Some (tr h)
      | None => OMap.get s0 ("headers_" +:+ Str.of_nat n)
      end
  | None => OMap.get s0 ("headers_" +:+ Str.of_nat n)
  end.
Proof.
  revert c s0. induction msgs as [|m rest IH]; intros c s0.
  - unfold owner. destruct (decide (c <= n)%nat); [|reflexivity].
    now destruct (n - c)%nat.
  - cbn [messagesSchemaWrites]. rewrite set_all_app, IH, owner_cons.
    rewrite get_schemaWrites_headers.
    destruct (decide (n = c)) as [->|Hne].
    + assert (Ho : owner rest (S c) c = None)
        by (unfold owner; destruct (decide (S c <= c)%nat); [lia | reflexivity]).
      now rewrite Ho.
    + reflexivity.
Qed.

Lemma generatedSchemas_spec (registry : Registry) (options : GeneratorOptions) :
  generatedSchemas isOptional registry options =
  OMap.set_all (g_schemas (initialState options))
    (messagesSchemaWrites isOptional
       (processedMessages (getAllChannels registry)) 0).
Proof.
  unfold generatedSchemas, generateAsyncAPIDocument. cbn [fst doc_components schemas].
  rewrite generateLoop_spec. cbn [g_schemas].
  rewrite loopSchemaWrites_messages. reflexivity.
Qed.

End schema_placement.

(** C1, as stated, fails: for a channel whose [send] message has a payload
    and headers, the numbering of the specification puts the headers schema
    under [schema_1], where the generated document has nothing; the headers
    schema is under [headers_0]. *)
Lemma C1_counterexample :
  let registry := registerChannel "chat" (withHeaders "/chat/:roomId") None fresh in
  OMap.get (generatedSchemas wrappedOptional registry plainOptions) "schema_1"
    = None /\
  OMap.get (generatedSchemas wrappedOptional registry plainOptions) "headers_0"
    = Some (zodToAsyncAPISchema wrappedOptional authHeaders) /\
  ~ specSchemaNumbering wrappedOptional registry plainOptions.
Proof.
  cbv zeta. split; [reflexivity|]. split; [reflexivity|].
  intros H.
  specialize (H "schema_1" (zodToAsyncAPISchema wrappedOptional authHeaders)).
  assert (Hin :
    ("schema_1", zodToAsyncAPISchema wrappedOptional authHeaders)
    ∈ specSchemaEntries wrappedOptional
        (processedMessages
           (getAllChannels
              (registerChannel "chat" (withHeaders "/chat/:roomId") None fresh)))
        0).
  { vm_compute. right. left. }
  apply H in Hin. vm_compute in Hin. discriminate Hin.
Qed.

(** C1 (amended). For every registry and options, the generator numbers the
    messages it builds from [0], in the order it builds them, one number per
    message whether or not the message has a payload or headers. In the
    document's [components.schemas] the payload schema of message number
    [n] is under [schema_<n>] and its headers schema under [headers_<n>];
    for a message without payload (without headers) the run leaves
    [schema_<n>] ([headers_<n>]) as the caller's options supplied it. *)
Theorem C1_schema_keys (isOptional : ZodType -> bool) (registry : Registry)
    (options : GeneratorOptions) (n : nat) (m : MessageConfig) :
  nth_error (processedMessages (getAllChannels registry)) n = Some m ->
  let stored := generatedSchemas isOptional registry options in
  let supplied := g_schemas (initialState options) in
  OMap.get stored ("schema_" +:+ Str.of_nat n) =
    match payload m with
    | Some p => Some (zodToAsyncAPISchema isOptional p)
    | None => OMap.get supplied ("schema_" +:+ Str.of_nat n)
    end /\
  OMap.get stored ("headers_" +:+ Str.of_nat n) =
    match headers m with
    | Some h => Some (zodToAsyncAPISchema isOptional h)
    | None => OMap.get supplied ("headers_" +:+ Str.of_nat n)
    end.
Proof.
  intros Hn. cbv zeta. rewrite generatedSchemas_spec.
  rewrite get_messagesSchemaWrites_schema, get_messagesSchemaWrites_headers.
  unfold owner. destruct (decide (0 <= n)%nat); [|lia].
  rewrite Nat.sub_0_r, Hn. split; reflexivity.
Qed.

(** The second message built is number 1 although the first one has no
    payload: its payload schema is under [schema_1]. *)
Lemma C1_schema_keys_witness :
  let registry :=
    registerChannel "b" (sendOnly "/b") None
      (registerChannel "a"
         (channelWith "/a" (Some (messageWith None None)) None) None fresh) in
  nth_error (processedMessages (getAllChannels registry)) 1
    = Some (messageWith (Some messagePayload) None) /\
  OMap.get (generatedSchemas wrappedOptional registry plainOptions) "schema_1"
    = Some (zodToAsyncAPISchema wrappedOptional messagePayload).
Proof.
  cbv zeta.
  assert (H :
    nth_error
      (processedMessages
         (getAllChannels
            (registerChannel "b" (sendOnly "/b") None
               (registerChannel "a"
                  (channelWith "/a" (Some (messageWith None None)) None)
                  None fresh)))) 1
    = Some (messageWith (Some messagePayload) None)) by reflexivity.
  split; [exact H|].
  exact (proj1 (C1_schema_keys wrappedOptional _ plainOptions 1 _ H)).
Defined.

(** *** Generating twice *)



(** ** The text emitter *)

Lemma convertToYAML_item_object (item : JSON) (rest : list JSON) (indent : nat) :
  is_object item = true ->
  convertToYAML (JArr (item :: rest)) indent =
  (Str.repeat "  " indent +:+ "-" +:+ Str.nl +:+ convertToYAML item (S indent))
  +:+ convertToYAML (JArr rest) indent.
Proof. intros H. cbn [convertToYAML]. now rewrite H. Qed.

Lemma convertToYAML_item_primitive (item : JSON) (rest : list JSON) (indent : nat) :
  is_object item = false ->
  convertToYAML (JArr (item :: rest)) indent =
  (Str.repeat "  " indent +:+ "- " +:+ template item +:+ Str.nl)
  +:+ convertToYAML (JArr rest) indent.
Proof. intros H. cbn [convertToYAML]. now rewrite H. Qed.

Lemma convertToYAML_field_undefined (key : string)
    (rest : list (string * JSON)) (indent : nat) :
  convertToYAML (JObj ((key, JUndefined) :: rest)) indent =
  convertToYAML (JObj rest) indent.
Proof. reflexivity. Qed.

Lemma convertToYAML_field_string (key s : string)
    (rest : list (string * JSON)) (indent : nat) :
  convertToYAML (JObj ((key, JStr s) :: rest)) indent =
  (Str.repeat "  " indent +:+ key +:+ ": " +:+ Str.dquote +:+ s
   +:+ Str.dquote +:+ Str.nl)
  +:+ convertToYAML (JObj rest) indent.
Proof. reflexivity. Qed.

Lemma convertToYAML_field_object (key : string) (value : JSON)
    (rest : list (string * JSON)) (indent : nat) :
  is_object value = true ->
  convertToYAML (JObj ((key, value) :: rest)) indent =
  (Str.repeat "  " indent +:+ key +:+ ":" +:+ Str.nl
   +:+ convertToYAML value (S indent))
  +:+ convertToYAML (JObj rest) indent.
Proof. destruct value; try discriminate; reflexivity. Qed.

(** C9. The emitter puts quotes around a string that is the value of an
    object field, but a string that is an array item is interpolated as it
    is: the [required] list of a schema comes out as [- message], without
    quotes, also in the text of a generated document. *)
Theorem C9_array_strings_unquoted (s : string) (rest : list JSON) (indent : nat) :
  convertToYAML (JArr (JStr s :: rest)) indent =
    (Str.repeat "  " indent +:+ "- " +:+ s +:+ Str.nl)
    +:+ convertToYAML (JArr rest) indent /\
  convertToYAML (JObj [("required", JArr [JStr "message"])]) 0 =
    "required:" +:+ Str.nl +:+ "  - message" +:+ Str.nl /\
  convertToYAML (JObj [("title", JStr "message")]) 0 =
    "title: " +:+ Str.dquote +:+ "message" +:+ Str.dquote +:+ Str.nl /\
  Str.includes
    ("      required:" +:+ Str.nl +:+ "        - message" +:+ Str.nl)
    (convertToYAML
       (documentJSON
          (fst (generateAsyncAPIDocument wrappedOptional chatRegistry plainOptions)))
       0) = true.
Proof. repeat split; reflexivity. Qed.

(** ** The scenarios of the test suite, evaluated *)

Example ex_object_with_optional_field :
  generateSchemaFromZod wrappedOptional
    (ZodObject [("required", ZodString no_meta);
                ("optional", ZodOptional (ZodString no_meta) no_meta)] no_meta) =
  JObj [("type", JStr "object");
        ("properties",
         JObj [("required", JObj [("type", JStr "string")]);
               ("optional", JObj [("type", JStr "string")])]);
        ("required", JArr [JStr "required"])].
Proof. reflexivity. Qed.

Example ex_object_without_required :
  generateSchemaFromZod wrappedOptional
    (ZodObject [("optional", ZodOptional (ZodNumber no_meta) no_meta)] no_meta) =
  JObj [("type", JStr "object");
        ("properties", JObj [("optional", JObj [("type", JStr "number")])])].
Proof. reflexivity. Qed.

Example ex_nullable_string_with_description :
  generateSchemaFromZod wrappedOptional
    (ZodNullable
       (ZodString {| description := Some "a name"; openapi := None |}) no_meta) =
  JObj [("type", JStr "string"); ("description", JStr "a name");
        ("nullable", JBool true)].
Proof. reflexivity. Qed.

Example ex_discriminated_union :
  generateSchemaFromZod wrappedOptional
    (ZodDiscriminatedUnion
       [ZodObject [("type", ZodLiteral (JStr "success") no_meta)] no_meta;
        ZodObject [("type", ZodLiteral (JStr "error") no_meta)] no_meta]
       no_meta) =
  JObj [("oneOf",
         JArr [JObj [("type", JStr "object");
                     ("properties",
                      JObj [("type", JObj [("type", JStr "string");
                                           ("enum", JArr [JStr "success"])])]);
                     ("required", JArr [JStr "type"])];
               JObj [("type", JStr "object");
                     ("properties",
                      JObj [("type", JObj [("type", JStr "string");
                                           ("enum", JArr [JStr "error"])])]);
                     ("required", JArr [JStr "type"])]])].
Proof. reflexivity. Qed.

Example ex_unsupported_kinds :
  map (generateSchemaFromZod wrappedOptional)
    [ZodOther "ZodNull" no_meta; ZodOther "ZodTuple" no_meta;
     ZodOther "ZodMap" no_meta; ZodOther "ZodSet" no_meta] =
  repeat (JObj [("type", JStr "object")]) 4.
Proof. reflexivity. Qed.

Example ex_two_channels_in_sequence :
  operationIds
    (registerChannel "test2" (sendOnly "/test2") None
       (registerChannel "test1" (sendOnly "/test1") None fresh)) =
  ["send_test1_0"; "send_test2_1"].
Proof. reflexivity. Qed.

Example ex_both_directions :
  operationIds
    (registerChannel "ping"
       (channelWith "/ping"
          (Some (messageWith (Some messagePayload) None))
          (Some (messageWith (Some messagePayload) None)))
       None fresh) =
  ["send_ping_0"; "receive_ping_1"].
Proof. reflexivity. Qed.

Example ex_second_registration_replaces :
  operationIds
    (registerChannel "test" (receiveOnly "/again") None
       (registerChannel "test" (sendOnly "/test") None fresh)) =
  ["receive_test_1"].
Proof. reflexivity. Qed.

Example ex_clear_then_register :
  operationIds
    (registerChannel "test2" (sendOnly "/test2") None
       (clear (registerChannel "test1" (sendOnly "/test1") None fresh))) =
  ["send_test2_0"].
Proof. reflexivity. Qed.

Example ex_no_direction_no_identifier :
  operationIds (registerChannel "idle" (channelWith "/idle" None None) None fresh)
  = [].
Proof. reflexivity. Qed.

Example ex_merge_overwrites :
  let st := run [CallRegisterChannel 0 "test" (sendOnly "/test") None;
                 CallRegisterChannel 1 "test" (sendOnly "/test-updated") None;
                 CallMerge 0 1] ∅ in
  option_map (fun e => path (config e)) (getChannel "test" (st !!! 0))
  = Some "/test-updated".
Proof. vm_compute. reflexivity. Qed.

Example ex_merge_keeps_both :
  let st := run [CallRegisterChannel 0 "test1" (sendOnly "/test1") None;
                 CallRegisterChannel 1 "test2" (sendOnly "/test2") None;
                 CallMerge 0 1] ∅ in
  OMap.keys (getAllChannels (st !!! 0)) = ["test1"; "test2"] /\
  operationIds (st !!! 0) = ["send_test1_0"; "send_test2_0"].
Proof. vm_compute. split; reflexivity. Qed.

Example ex_end_to_end :
  let document :=
    fst (generateAsyncAPIDocument wrappedOptional chatRegistry plainOptions) in
  option_map (field "address") (OMap.get (doc_channels document) "chat")
    = Some (Some (JStr "/chat/:roomId")) /\
  map (fun e => field "action" (snd e)) (doc_operations document)
    = [Some (JStr "send")] /\
  schemas (doc_components document) =
    Some [("schema_0",
           JObj [("type", JStr "object");
                 ("properties",
                  JObj [("message", JObj [("type", JStr "string")])]);
                 ("required", JArr [JStr "message"])])].
Proof. cbv zeta. repeat split; reflexivity. Qed.

(** A [components.schemas] map supplied by the caller is the one the
    generator assigns to. *)
Example ex_supplied_schemas_are_assigned_to :
  let supplied :=
    {| info := JNull; opt_servers := None;
       components :=
         Some {| schemas := Some [("Existing", JObj [("type", JStr "string")])];
                 messages := None; other_components := [] |} |} in
  option_map (fun c => option_map OMap.keys (schemas c))
    (components
       (snd (generateAsyncAPIDocument wrappedOptional chatRegistry supplied)))
  = Some (Some ["Existing"; "schema_0"]).
Proof. reflexivity. Qed.

(* ===================================================================== *)
(** * Further properties of the code *)
(* ===================================================================== *)

(** ** The channel registry *)

Lemma get_Some_elem_of {V : Type} (m : list (string * V)) (k : string) (v : V) :
  OMap.get m k = Some v -> (k, v) ∈ m.
Proof.
  induction m as [|[k' v'] m IH]; simpl; [discriminate|].
  destruct (String.eqb k' k) eqn:E; intros H.
  - apply String.eqb_eq in E. injection H as ->. subst. left.
  - right. now apply IH.
Qed.

(** X1. Looking up a channel id right after registering it gives an entry
    that holds the configuration and the handler as they were passed, with
    operation metadata for exactly the directions of the configuration,
    each carrying that message's summary and description and the channel's
    tags. *)
Theorem X1_register_then_get (this : Registry) (id : string)
    (cfg : ChannelConfig) (h : option ChannelHandler) :
  exists entry,
    getChannel id (registerChannel id cfg h this) = Some entry /\
    config entry = cfg /\
    handler entry = h /\
    forall d,
      option_map
        (fun meta => (op_summary meta, op_description meta, op_tags meta))
        (operation_of d (operations entry)) =
      option_map
        (fun msg => (msg_summary msg, msg_description msg, tags cfg))
        (message_of d cfg).
Proof.
  rewrite registerChannel_entry. eexists. split; [reflexivity|].
  split; [reflexivity|]. split; [reflexivity|].
  intros d. unfold allocate. destruct d; simpl.
  - destruct (send cfg); reflexivity.
  - destruct (send cfg); simpl; destruct (receive cfg); reflexivity.
Qed.

(** X2. Registering a channel id leaves the entry of every other id as it
    was. *)
Theorem X2_register_frames_other_ids (this : Registry) (id id' : string)
    (cfg : ChannelConfig) (h : option ChannelHandler) :
  id' <> id ->
  getChannel id' (registerChannel id cfg h this) = getChannel id' this.
Proof.
  intros Hne. unfold registerChannel, getChannel.
  destruct (allocate Send id cfg (operationCounter this)) as [s c1].
  destruct (allocate Receive id cfg c1) as [r c2]. simpl.
  apply get_set_ne. congruence.
Qed.

Lemma X2_register_frames_other_ids_witness :
  "chat" <> "ping" /\
  getChannel "chat" (registerChannel "ping" (sendOnly "/ping") None chatRegistry)
  = getChannel "chat" chatRegistry.
Proof.
  assert (H : "chat" <> "ping") by discriminate.
  split; [exact H|].
  exact (X2_register_frames_other_ids chatRegistry "ping" "chat"
           (sendOnly "/ping") None H).
Defined.

(** X3. Registration keeps the channel map in insertion order with one
    entry per id: an id that is already registered keeps its place (its
    entry is replaced), a new id goes to the end. *)
Theorem X3_register_keeps_order (this : Registry) (id : string)
    (cfg : ChannelConfig) (h : option ChannelHandler) :
  OMap.keys (getAllChannels (registerChannel id cfg h this)) =
  if decide (id ∈ OMap.keys (getAllChannels this))
  then OMap.keys (getAllChannels this)
  else OMap.keys (getAllChannels this) ++ [id].
Proof.
  unfold registerChannel, getAllChannels.
  destruct (allocate Send id cfg (operationCounter this)) as [s c1].
  destruct (allocate Receive id cfg c1) as [r c2]. simpl.
  destruct (decide (id ∈ OMap.keys (channels this))).
  - now apply keys_set_in.
  - now apply keys_set_notin.
Qed.

Lemma exec_counter_mono (c : Call) (st : Store) (l : nat) :
  is_clear c = false ->
  (operationCounter (st !!! l) <= operationCounter (exec c st !!! l))%nat.
Proof.
  destruct c as [this id cfg h|this id|this|this|this other]; simpl;
    intros Hc; try discriminate; try lia.
  - destruct (decide (this = l)) as [->|Hne].
    + rewrite lookup_total_insert_eq, registerChannel_counter. lia.
    + rewrite lookup_total_insert_ne by assumption. lia.
  - destruct (decide (this = l)) as [->|Hne].
    + rewrite lookup_total_insert_eq. simpl. lia.
    + rewrite lookup_total_insert_ne by assumption. lia.
Qed.

(** X4. As long as [clear] is not called, the operation counter of a
    registry never goes down, whatever is registered, looked up or merged,
    on it or on other registries. *)
Theorem X4_counter_never_decreases (cs : list Call) (st : Store) (l : nat) :
  forallb (fun c => negb (is_clear c)) cs = true ->
  (operationCounter (st !!! l) <= operationCounter (run cs st !!! l))%nat.
Proof.
  revert st. induction cs as [|c cs IH]; intros st H; simpl in *; [lia|].
  apply andb_true_iff in H as [Hc H].
  apply negb_true_iff in Hc.
  etransitivity; [apply (exec_counter_mono c st l Hc)|].
  now apply IH.
Qed.

Lemma X4_counter_never_decreases_witness :
  let cs := [CallRegisterChannel 0 "a" (sendOnly "/a") None;
             CallRegisterChannel 1 "b" (sendOnly "/b") None;
             CallMerge 1 0;
             CallGetChannel 1 "a"] in
  forallb (fun c => negb (is_clear c)) cs = true /\
  (operationCounter ((∅ : Store) !!! 1) <= operationCounter (run cs ∅ !!! 1))%nat.
Proof.
  cbv zeta. split; [reflexivity|].
  apply X4_counter_never_decreases. reflexivity.
Defined.

(** X5. After any sequence of registry calls, [clear] included, issued on
    registries that start out new, no operation identifier is stored twice
    in a registry. *)
Theorem X5_operation_ids_distinct_always (cs : list Call) (l : nat) :
  NoDup (operationIds (run cs ∅ !!! l)).
Proof. apply registryInv_NoDup, registryInv_reachable. Qed.

(** *** Metadata and configuration go together *)

Lemma allocate_aligned (d : Direction) (id : string) (cfg : ChannelConfig)
    (c : nat) :
  is_Some (fst (allocate d id cfg c)) <-> is_Some (message_of d cfg).
Proof.
  unfold allocate. destruct (message_of d cfg); simpl; split; eauto;
    intros [? ?]; discriminate.
Qed.

Lemma allAligned_registerChannel (id : string) (cfg : ChannelConfig)
    (h : option ChannelHandler) (r : Registry) :
  allAligned r -> allAligned (registerChannel id cfg h r).
Proof.
  intros Hr k e Hin.
  pose proof (registerChannel_entry id cfg h r) as He.
  unfold registerChannel in Hin.
  destruct (allocate Send id cfg (operationCounter r)) as [s c1] eqn:Es.
  destruct (allocate Receive id cfg c1) as [rcv c2] eqn:Er.
  simpl in Hin. apply elem_of_set in Hin as [[-> ->]|Hin]; [|eauto].
  intros d. destruct d; simpl.
  - rewrite <- (allocate_aligned Send id cfg (operationCounter r)).
    now rewrite Es.
  - rewrite <- (allocate_aligned Receive id cfg c1). now rewrite Er.
Qed.

Lemma allAligned_merge (other this : Registry) :
  allAligned other -> allAligned this -> allAligned (merge other this).
Proof.
  intros Ho Ht k e Hin. simpl in Hin.
  apply elem_of_set_all in Hin as [Hin|Hin]; eauto.
Qed.

Lemma allAligned_exec (c : Call) (st : Store) :
  (forall l, allAligned (st !!! l)) -> forall l, allAligned (exec c st !!! l).
Proof.
  intros Hst l. destruct c as [this id cfg h|this id|this|this|this other];
    simpl; try apply Hst.
  - destruct (decide (this = l)) as [->|Hne].
    + rewrite lookup_total_insert_eq. now apply allAligned_registerChannel.
    + rewrite lookup_total_insert_ne by assumption. apply Hst.
  - destruct (decide (this = l)) as [->|Hne].
    + rewrite lookup_total_insert_eq. intros k e H. inversion H.
    + rewrite lookup_total_insert_ne by assumption. apply Hst.
  - destruct (decide (this = l)) as [->|Hne].
    + rewrite lookup_total_insert_eq. now apply allAligned_merge.
    + rewrite lookup_total_insert_ne by assumption. apply Hst.
Qed.

Lemma allAligned_reachable (cs : list Call) (l : nat) :
  allAligned (run cs ∅ !!! l).
Proof.
  assert (H : forall st, (forall l, allAligned (st !!! l)) ->
                         forall l, allAligned (run cs st !!! l)).
  { induction cs as [|c cs IH]; intros st Hst; [exact Hst|].
    simpl. apply IH. now apply allAligned_exec. }
  apply H. intros l'. rewrite lookup_total_empty. intros k e Hin. inversion Hin.
Qed.

(** X6. In every registry built by registry calls, an entry has operation
    metadata for a direction exactly when its configuration has a message
    for that direction; the generator's double test
    [config.<d> && ops.<d>] never differs from [config.<d>] alone. *)
Theorem X6_metadata_matches_configuration (cs : list Call) (l : nat)
    (id : string) (entry : RegisteredChannel) :
  getChannel id (run cs ∅ !!! l) = Some entry ->
  entryAligned entry.
Proof.
  intros H. apply (allAligned_reachable cs l id).
  now apply get_Some_elem_of.
Qed.

Lemma X6_metadata_matches_configuration_witness :
  let cs := [CallRegisterChannel 0 "a" (sendOnly "/a") None;
             CallRegisterChannel 1 "a" (receiveOnly "/other") None;
             CallMerge 0 1] in
  exists entry,
    getChannel "a" (run cs ∅ !!! 0) = Some entry /\ entryAligned entry.
Proof.
  cbv zeta.
  destruct (getChannel "a"
              (run [CallRegisterChannel 0 "a" (sendOnly "/a") None;
                    CallRegisterChannel 1 "a" (receiveOnly "/other") None;
                    CallMerge 0 1] ∅ !!! 0)) as [entry|] eqn:E.
  - exists entry. split; [reflexivity|].
    exact (X6_metadata_matches_configuration _ 0 "a" entry E).
  - vm_compute in E. discriminate E.
Defined.

(** *** Merging *)

Lemma set_fresh_key {V : Type} (m : list (string * V)) (k : string) (v : V) :
  k ∉ OMap.keys m -> OMap.set m k v = m ++ [(k, v)].
Proof.
  unfold OMap.keys. induction m as [|[k' v'] m IH]; simpl; intros H.
  - reflexivity.
  - apply not_elem_of_cons in H as [Hne H].
    assert (E : String.eqb k' k = false) by (apply String.eqb_neq; congruence).
    rewrite E. f_equal. now apply IH.
Qed.

Lemma set_all_fresh_keys {V : Type} (m ws : list (string * V)) :
  NoDup (OMap.keys ws) ->
  (forall k, k ∈ OMap.keys ws -> k ∉ OMap.keys m) ->
  OMap.set_all m ws = m ++ ws.
Proof.
  revert m. induction ws as [|[k v] ws IH]; intros m Hnd Hfresh.
  - rewrite set_all_nil. now rewrite app_nil_r.
  - unfold OMap.keys in Hnd. simpl in Hnd. apply NoDup_cons in Hnd as [Hk Hnd].
    rewrite set_all_cons, set_fresh_key.
    + rewrite IH.
      * now rewrite <- app_assoc.
      * exact Hnd.
      * intros k' Hk' Hin. unfold OMap.keys in Hin.
        rewrite map_app in Hin. apply elem_of_app in Hin as [Hin|Hin].
        -- apply (Hfresh k'); [|exact Hin]. unfold OMap.keys. simpl. now right.
        -- simpl in Hin. apply list_elem_of_singleton in Hin. subst k'.
           contradiction.
    + apply Hfresh. unfold OMap.keys. simpl. left.
Qed.

(** X7. Merging the same registry a second time changes nothing: after
    [a.merge(b)], another [a.merge(b)] leaves every registry as it is. *)
Theorem X7_merge_twice (st : Store) (a b : nat) :
  uniqueKeys (st !!! b) ->
  exec (CallMerge a b) (exec (CallMerge a b) st) = exec (CallMerge a b) st.
Proof.
  intros Hnd. simpl. destruct (decide (a = b)) as [->|Hne].
  - rewrite !lookup_total_insert_eq, !merge_self; try assumption.
    + now rewrite insert_insert_eq.
    + now rewrite merge_self.
  - rewrite lookup_total_insert_eq, lookup_total_insert_ne by assumption.
    rewrite insert_insert_eq. f_equal.
    unfold merge, getAllChannels. simpl. f_equal. apply set_all_idem.
Qed.

Lemma X7_merge_twice_witness :
  let st := run [CallRegisterChannel 0 "test" (sendOnly "/test") None;
                 CallRegisterChannel 1 "test" (sendOnly "/test-updated") None;
                 CallRegisterChannel 1 "more" (receiveOnly "/more") None] ∅ in
  uniqueKeys (st !!! 1) /\
  exec (CallMerge 0 1) (exec (CallMerge 0 1) st) = exec (CallMerge 0 1) st.
Proof.
  cbv zeta.
  assert (H : uniqueKeys
                (run [CallRegisterChannel 0 "test" (sendOnly "/test") None;
                      CallRegisterChannel 1 "test" (sendOnly "/test-updated") None;
                      CallRegisterChannel 1 "more" (receiveOnly "/more") None]
                   ∅ !!! 1)).
  { unfold uniqueKeys. apply (bool_decide_unpack _). vm_compute. exact I. }
  split; [exact H|].
  exact (X7_merge_twice _ 0 1 H).
Defined.

(** X8. Merging into a registry that has no entries copies the other
    registry's channel map, entry for entry and in the same order, but not
    its counter: the receiving counter stays where it was, so the
    identifiers the receiver allocates next are numbered without regard to
    the ones it has taken over. Merging a registry without entries changes
    nothing. *)
Theorem X8_merge_copies_entries_not_counter (other this : Registry) :
  uniqueKeys other ->
  (channels this = [] ->
   getAllChannels (merge other this) = getAllChannels other) /\
  operationCounter (merge other this) = operationCounter this /\
  (channels other = [] -> merge other this = this).
Proof.
  intros Hnd. split; [|split].
  - intros Hempty. unfold merge, getAllChannels. simpl. rewrite Hempty.
    rewrite set_all_fresh_keys; [reflexivity | exact Hnd |].
    intros k _ H. inversion H.
  - reflexivity.
  - intros Hempty. destruct this as [chs c]. unfold merge, getAllChannels.
    simpl. now rewrite Hempty.
Qed.

Lemma X8_merge_copies_entries_not_counter_witness :
  let other :=
    registerChannel "b" (receiveOnly "/b") None
      (registerChannel "a" (sendOnly "/a") None fresh) in
  uniqueKeys other /\
  getAllChannels (merge other fresh) = getAllChannels other /\
  operationCounter (merge other fresh) = 0%nat.
Proof.
  cbv zeta.
  assert (H : uniqueKeys
                (registerChannel "b" (receiveOnly "/b") None
                   (registerChannel "a" (sendOnly "/a") None fresh))).
  { unfold uniqueKeys. apply (bool_decide_unpack _). vm_compute. exact I. }
  split; [exact H|].
  pose proof (X8_merge_copies_entries_not_counter _ fresh H) as [H1 [H2 _]].
  split; [exact (H1 eq_refl) | exact H2].
Defined.

(** ** The document generator *)

Lemma tags_entry_keys (ts : option (list string)) (k : string) :
  k ∈ OMap.keys (tags_entry ts) -> k = "tags".
Proof.
  unfold tags_entry. destruct ts as [l|]; [destruct (0 <? length l)%nat|];
    simpl; intros H; try (now apply list_elem_of_singleton in H);
    inversion H.
Qed.

Lemma servers_entry_keys (ss : option (list string)) (k : string) :
  k ∈ OMap.keys (servers_entry ss) -> k = "servers".
Proof.
  unfold servers_entry. destruct ss as [l|]; simpl; intros H;
    [now apply list_elem_of_singleton in H | inversion H].
Qed.

Lemma get_set_all_nil_unique {V : Type} (ws : list (string * V)) (k : string) :
  NoDup (OMap.keys ws) -> OMap.get (OMap.set_all [] ws) k = OMap.get ws k.
Proof.
  intros H. rewrite get_set_all_unique by assumption.
  now destruct (OMap.get ws k).
Qed.

Lemma keys_set_all_nil_unique {V : Type} (ws : list (string * V)) :
  NoDup (OMap.keys ws) -> OMap.keys (OMap.set_all [] ws) = OMap.keys ws.
Proof.
  intros H. rewrite keys_set_all_fresh; [reflexivity | exact H |].
  intros k _ Hin. inversion Hin.
Qed.

(** An object filled by assignments under distinct keys reads, under a key
    other than [__proto__], what was assigned under it, and has no own
    property [__proto__]. *)
Lemma get_assign_all_nil_unique {V : Type} (ws : list (string * V)) (k : string) :
  NoDup (OMap.keys ws) ->
  OMap.get (Obj.assign_all [] ws) k =
  if String.eqb k Obj.proto then None else OMap.get ws k.
Proof.
  intros Hnd. destruct (String.eqb_spec k Obj.proto) as [->|Hne].
  - apply get_None_keys, proto_notin_assign_all.
  - destruct (decide (k ∈ OMap.keys ws)) as [Hin|Hnin].
    + now apply get_assign_all_unique.
    + rewrite get_assign_all_notin by assumption.
      symmetry. now apply get_None_keys.
Qed.

Section document_facts.
Variable isOptional : ZodType -> bool.

Notation generateDoc := (generateAsyncAPIDocument isOptional).

Lemma doc_channels_spec (registry : Registry) (options : GeneratorOptions) :
  doc_channels (fst (generateDoc registry options)) =
  Obj.assign_all [] (loopChannelWrites isOptional (getAllChannels registry)).
Proof.
  unfold generateAsyncAPIDocument. cbn [fst doc_channels].
  rewrite generateLoop_spec. reflexivity.
Qed.

Lemma doc_operations_spec (registry : Registry) (options : GeneratorOptions) :
  doc_operations (fst (generateDoc registry options)) =
  Obj.assign_all [] (loopOperationWrites (getAllChannels registry)).
Proof.
  unfold generateAsyncAPIDocument. cbn [fst doc_operations].
  rewrite generateLoop_spec. reflexivity.
Qed.

Lemma keys_loopChannelWrites (entries : list (string * RegisteredChannel)) :
  OMap.keys (loopChannelWrites isOptional entries) = OMap.keys entries.
Proof.
  unfold loopChannelWrites, OMap.keys. rewrite map_map. reflexivity.
Qed.

Lemma get_loopChannelWrites (entries : list (string * RegisteredChannel))
    (id : string) :
  OMap.get (loopChannelWrites isOptional entries) id =
  option_map (channelObject isOptional id) (OMap.get entries id).
Proof.
  unfold loopChannelWrites. induction entries as [|[k e] rest IH]; simpl.
  - reflexivity.
  - destruct (String.eqb k id) eqn:E; [|exact IH].
    apply String.eqb_eq in E. now subst.
Qed.

Lemma channelObject_address (id : string) (e : RegisteredChannel) :
  field "address" (channelObject isOptional id e) = Some (JStr (path (config e))).
Proof.
  unfold channelObject. cbn [field].
  rewrite !get_set_all_notin; [reflexivity | |].
  - intros H. apply servers_entry_keys in H. discriminate.
  - intros H. apply tags_entry_keys in H. discriminate.
Qed.

Lemma doc_channels_lookup (registry : Registry) (options : GeneratorOptions)
    (id : string) :
  uniqueKeys registry ->
  option_map (field "address")
    (OMap.get (doc_channels (fst (generateDoc registry options))) id) =
  if String.eqb id Obj.proto then None
  else option_map (fun e => Some (JStr (path (config e))))
         (getChannel id registry).
Proof.
  intros Hnd. rewrite doc_channels_spec.
  rewrite get_assign_all_nil_unique
    by (rewrite keys_loopChannelWrites; exact Hnd).
  destruct (String.eqb id Obj.proto); [reflexivity|].
  rewrite get_loopChannelWrites. unfold getChannel, getAllChannels.
  destruct (OMap.get (channels registry) id) as [e|]; cbn [option_map];
    [|reflexivity].
  now rewrite channelObject_address.
Qed.

Lemma doc_channels_keys (registry : Registry) (options : GeneratorOptions)
    (id : string) :
  id ∈ OMap.keys (doc_channels (fst (generateDoc registry options))) <->
  id ∈ OMap.keys (getAllChannels registry) /\ id <> Obj.proto.
Proof.
  rewrite doc_channels_spec, elem_of_keys_assign_all, keys_loopChannelWrites.
  change (OMap.keys (@nil (string * JSON))) with (@nil string).
  rewrite elem_of_nil. tauto.
Qed.

End document_facts.

(** X9. For every registry (a map with one entry per id) and options, the
    [channels] of the generated document has exactly the registry's channel
    ids other than [__proto__], for which [channels[channelId] = ...]
    creates no property. It lists them as an object does, the ids that are
    array indices first and in ascending order; when no id is an array
    index or [__proto__] that is the registry's order. The [address] of
    each channel is the [path] of the configuration registered under its
    id, and an id that is not registered has no channel. *)
Theorem X9_channels_mirror_registry (isOptional : ZodType -> bool)
    (registry : Registry) (options : GeneratorOptions) :
  uniqueKeys registry ->
  let document := fst (generateAsyncAPIDocument isOptional registry options) in
  (forall id,
     id ∈ OMap.keys (doc_channels document) <->
     id ∈ OMap.keys (getAllChannels registry) /\ id <> Obj.proto) /\
  Obj.wf (doc_channels document) /\
  (Forall (fun id => Obj.arrayIndex id = None /\ id <> Obj.proto)
     (OMap.keys (getAllChannels registry)) ->
   OMap.keys (doc_channels document) = OMap.keys (getAllChannels registry)) /\
  forall id,
    option_map (field "address") (OMap.get (doc_channels document) id) =
    if String.eqb id Obj.proto then None
    else option_map (fun e => Some (JStr (path (config e))))
           (getChannel id registry).
Proof.
  intros Hnd. cbv zeta. split; [|split; [|split]].
  - intros id. apply doc_channels_keys.
  - rewrite doc_channels_spec. apply wf_assign_all, wf_nil.
  - intros Hplain. rewrite doc_channels_spec.
    assert (Hk : OMap.keys (loopChannelWrites isOptional (getAllChannels registry))
                 = OMap.keys (getAllChannels registry))
      by apply keys_loopChannelWrites.
    rewrite assign_all_plain by (rewrite Hk; exact Hplain).
    rewrite keys_set_all_nil_unique by (rewrite Hk; exact Hnd).
    exact Hk.
  - intros id. now apply doc_channels_lookup.
Qed.

Lemma X9_channels_mirror_registry_witness :
  uniqueKeys chatRegistry /\
  OMap.keys
    (doc_channels
       (fst (generateAsyncAPIDocument wrappedOptional chatRegistry plainOptions)))
  = ["chat"].
Proof.
  assert (H : uniqueKeys chatRegistry).
  { unfold uniqueKeys. apply (bool_decide_unpack _). vm_compute. exact I. }
  split; [exact H|].
  apply (proj1 (proj2 (proj2 (X9_channels_mirror_registry wrappedOptional
                                chatRegistry plainOptions H)))).
  apply (bool_decide_unpack _). vm_compute. exact I.
Defined.

(** Channels registered as [b], [10], [2] and [__proto__]: the document's
    [channels] lists [2], [10], [b], while the operations keep the order
    of registration and include the one of [__proto__]. *)
Example ex_channel_ids_as_object_keys :
  let registry :=
    registerChannel "__proto__" (sendOnly "/p") None
      (registerChannel "2" (sendOnly "/2") None
         (registerChannel "10" (sendOnly "/10") None
            (registerChannel "b" (sendOnly "/b") None fresh))) in
  let document :=
    fst (generateAsyncAPIDocument wrappedOptional registry plainOptions) in
  OMap.keys (getAllChannels registry) = ["b"; "10"; "2"; "__proto__"] /\
  OMap.keys (doc_channels document) = ["2"; "10"; "b"] /\
  OMap.keys (doc_operations document) =
    ["send_b_0"; "send_10_1"; "send_2_2"; "send___proto___3"].
Proof. cbv zeta. repeat split. Qed.

Lemma keys_direction_operations (id : string) (e : RegisteredChannel) :
  entryAligned e ->
  OMap.keys (directionOperationWrites Send id e
             ++ directionOperationWrites Receive id e) =
  operation_ids_of (operations e).
Proof.
  intros Ha. pose proof (Ha Send) as Hs. pose proof (Ha Receive) as Hr.
  unfold directionOperationWrites, handled, operation_ids_of, OMap.keys.
  simpl in *.
  destruct (send (config e)) as [ms|], (ops_send (operations e)) as [os|],
    (receive (config e)) as [mr|], (ops_receive (operations e)) as [or|];
    simpl; try reflexivity;
    try (exfalso; destruct Hs as [Hs1 Hs2];
         first [destruct Hs1 as [? ?]; [eauto | discriminate]
               |destruct Hs2 as [? ?]; [eauto | discriminate]]);
    try (exfalso; destruct Hr as [Hr1 Hr2];
         first [destruct Hr1 as [? ?]; [eauto | discriminate]
               |destruct Hr2 as [? ?]; [eauto | discriminate]]).
Qed.

Lemma keys_loopOperationWrites (entries : list (string * RegisteredChannel)) :
  (forall k e, (k, e) ∈ entries -> entryAligned e) ->
  OMap.keys (loopOperationWrites entries) =
  flat_map (fun e => operation_ids_of (operations (snd e))) entries.
Proof.
  unfold loopOperationWrites. induction entries as [|[k e] rest IH]; intros Ha.
  - reflexivity.
  - simpl. unfold OMap.keys in *. rewrite map_app. f_equal.
    + apply keys_direction_operations. apply (Ha k). left.
    + apply IH. intros k' e' Hin. apply (Ha k'). now right.
Qed.

(** X10. For every registry built by registry calls, the [operations] of
    the generated document are keyed by exactly the operation identifiers
    stored in the registry, in the registry's order: one operation per
    registered direction, none lost to a clash of keys. *)
Theorem X10_operations_keyed_by_registry_ids (isOptional : ZodType -> bool)
    (cs : list Call) (l : nat) (options : GeneratorOptions) :
  OMap.keys
    (doc_operations
       (fst (generateAsyncAPIDocument isOptional (run cs ∅ !!! l) options))) =
  operationIds (run cs ∅ !!! l).
Proof.
  rewrite doc_operations_spec.
  pose proof (keys_loopOperationWrites (getAllChannels (run cs ∅ !!! l))
                (allAligned_reachable cs l)) as Hk.
  rewrite assign_all_plain
    by (rewrite Hk; apply (operationIds_plain (run cs ∅ !!! l)),
          registryInv_reachable).
  rewrite keys_set_all_nil_unique.
  - exact Hk.
  - rewrite Hk. apply (registryInv_NoDup (run cs ∅ !!! l)).
    apply registryInv_reachable.
Qed.

(** *** References inside the document *)



Section reference_facts.
Variable isOptional : ZodType -> bool.


Lemma elem_of_loopMessageWrites (entries : list (string * RegisteredChannel))
    (c : nat) (k : string) (v : JSON) :
  (k, v) ∈ loopMessageWrites isOptional entries c ->
  exists m n,
    v = messageObject isOptional m n /\
    forall key,
      key ∈ OMap.keys (schemaWrites isOptional m n) ->
      key ∈ OMap.keys (loopSchemaWrites isOptional entries c).
Proof.
  revert c. induction entries as [|[id reg] rest IH]; intros c.
  - intros H. inversion H.
  - cbn [loopMessageWrites loopSchemaWrites]. rewrite !elem_of_app.
    unfold OMap.keys. intros [H|[H|H]].
    + unfold directionMessageWrites, directionSchemaWrites in *.
      destruct (handled Send reg) as [[m op]|]; [|inversion H].
      apply list_elem_of_singleton in H. injection H as -> ->.
      exists m, c. split; [reflexivity|]. intros key Hk.
      rewrite !map_app, !elem_of_app. now left.
    + unfold directionMessageWrites, directionSchemaWrites in *.
      destruct (handled Receive reg) as [[m op]|]; [|inversion H].
      apply list_elem_of_singleton in H. injection H as -> ->.
      exists m, (c + handledCount Send reg)%nat. split; [reflexivity|].
      intros key Hk. rewrite !map_app, !elem_of_app. right. now left.
    + destruct (IH _ H) as (m & n & -> & Hsub).
      exists m, n. split; [reflexivity|]. intros key Hk.
      rewrite !map_app, !elem_of_app. right. right. now apply Hsub.
Qed.

Lemma messageObject_refs (m : MessageConfig) (n : nat) :
  field "payload" (messageObject isOptional m n) =
    option_map
      (fun _ => ref ("#/components/schemas/" +:+ "schema_" +:+ Str.of_nat n))
      (payload m) /\
  field "headers" (messageObject isOptional m n) =
    option_map
      (fun _ => ref ("#/components/schemas/" +:+ "headers_" +:+ Str.of_nat n))
      (headers m).
Proof.
  unfold messageObject, createMessageObject.
  destruct (payload m), (headers m); split; reflexivity.
Qed.

Lemma generatedMessages_spec (registry : Registry) (options : GeneratorOptions) :
  generatedMessages isOptional registry options =
  OMap.set_all (g_messages (initialState options))
    (loopMessageWrites isOptional (getAllChannels registry) 0).
Proof.
  unfold generatedMessages, generateAsyncAPIDocument.
  cbn [fst doc_components messages].
  rewrite generateLoop_spec. reflexivity.
Qed.

Lemma generatedSchemas_loop (registry : Registry) (options : GeneratorOptions) :
  generatedSchemas isOptional registry options =
  OMap.set_all (g_schemas (initialState options))
    (loopSchemaWrites isOptional (getAllChannels registry) 0).
Proof.
  rewrite generatedSchemas_spec. now rewrite loopSchemaWrites_messages.
Qed.

Lemma keys_messagesSchemaWrites (msgs : list MessageConfig) (c : nat) (k : string) :
  k ∈ OMap.keys (messagesSchemaWrites isOptional msgs c) ->
  exists n, k = "schema_" +:+ Str.of_nat n \/ k = "headers_" +:+ Str.of_nat n.
Proof.
  revert c. induction msgs as [|m rest IH]; intros c; cbn [messagesSchemaWrites].
  - intros H. inversion H.
  - unfold OMap.keys, schemaWrites. rewrite !map_app, !elem_of_app.
    intros [[H|H]|H].
    + destruct (payload m); [|inversion H].
      apply list_elem_of_singleton in H. eauto.
    + destruct (headers m); [|inversion H].
      apply list_elem_of_singleton in H. eauto.
    + now apply (IH (S c)).
Qed.

End reference_facts.



(** X12. Every message object the generator puts into
    [components.messages] refers to schemas the document has: the
    [payload] reference and the [headers] reference, where the message has
    them, each name a key of [components.schemas]. (Entries of
    [components.messages] that the caller supplied are not looked at.) *)
Theorem X12_message_references_resolve (isOptional : ZodType -> bool)
    (registry : Registry) (options : GeneratorOptions)
    (k : string) (message : JSON) :
  (k, message) ∈ generatedMessages isOptional registry options ->
  (k, message) ∈ g_messages (initialState options) \/
  (refResolves "payload" message (generatedSchemas isOptional registry options) /\
   refResolves "headers" message (generatedSchemas isOptional registry options)).
Proof.
  rewrite generatedMessages_spec, generatedSchemas_loop. intros Hin.
  apply elem_of_set_all in Hin as [Hin|Hin]; [now left | right].
  apply elem_of_loopMessageWrites in Hin as (m & n & -> & Hsub).
  destruct (messageObject_refs isOptional m n) as [Hp Hh].
  unfold refResolves. rewrite Hp, Hh. split.
  - destruct (payload m) as [p|] eqn:E; [|exact I]. cbn [option_map].
    eexists. split; [reflexivity|].
    apply elem_of_keys_set_all. right. apply Hsub.
    unfold schemaWrites, OMap.keys. rewrite E, map_app, elem_of_app.
    left. left.
  - destruct (headers m) as [h|] eqn:E; [|exact I]. cbn [option_map].
    eexists. split; [reflexivity|].
    apply elem_of_keys_set_all. right. apply Hsub.
    unfold schemaWrites, OMap.keys. rewrite E, map_app, elem_of_app.
    right. left.
Qed.

Lemma X12_message_references_resolve_witness :
  let registry := registerChannel "chat" (withHeaders "/chat/:roomId") None fresh in
  exists k message,
    (k, message) ∈ generatedMessages wrappedOptional registry plainOptions /\
    ((k, message) ∈ g_messages (initialState plainOptions) \/
     (refResolves "payload" message
        (generatedSchemas wrappedOptional registry plainOptions) /\
      refResolves "headers" message
        (generatedSchemas wrappedOptional registry plainOptions))).
Proof.
  cbv zeta.
  assert (H : ("chat_send_message",
               messageObject wrappedOptional
                 (messageWith (Some messagePayload) (Some authHeaders)) 0)
              ∈ generatedMessages wrappedOptional
                  (registerChannel "chat" (withHeaders "/chat/:roomId") None fresh)
                  plainOptions).
  { vm_compute. left. }
  eexists _, _. split; [exact H|].
  exact (X12_message_references_resolve wrappedOptional _ plainOptions _ _ H).
Defined.

(** X13. The generator only ever assigns to keys [schema_<n>] and
    [headers_<n>] of [components.schemas]: a schema the caller supplied
    under any other key is in the document as supplied (and a key that was
    absent stays absent). *)
Theorem X13_supplied_schemas_kept (isOptional : ZodType -> bool)
    (registry : Registry) (options : GeneratorOptions) (k : string) :
  (forall n, k <> "schema_" +:+ Str.of_nat n) ->
  (forall n, k <> "headers_" +:+ Str.of_nat n) ->
  OMap.get (generatedSchemas isOptional registry options) k =
  OMap.get (g_schemas (initialState options)) k.
Proof.
  intros Hs Hh. rewrite generatedSchemas_spec.
  apply get_set_all_notin. intros Hin.
  apply keys_messagesSchemaWrites in Hin as [n [->| ->]].
  - now apply (Hs n).
  - now apply (Hh n).
Qed.

Lemma X13_supplied_schemas_kept_witness :
  let supplied :=
    {| info := JNull; opt_servers := None;
       components :=
         Some {| schemas := Some [("Existing", JObj [("type", JStr "string")])];
                 messages := None; other_components := [] |} |} in
  (forall n, "Existing" <> "schema_" +:+ Str.of_nat n) /\
  (forall n, "Existing" <> "headers_" +:+ Str.of_nat n) /\
  OMap.get (generatedSchemas wrappedOptional chatRegistry supplied) "Existing"
  = Some (JObj [("type", JStr "string")]).
Proof.
  cbv zeta.
  assert (Hs : forall n, "Existing" <> "schema_" +:+ Str.of_nat n)
    by (intros n; simpl; discriminate).
  assert (Hh : forall n, "Existing" <> "headers_" +:+ Str.of_nat n)
    by (intros n; simpl; discriminate).
  split; [exact Hs|]. split; [exact Hh|].
  exact (X13_supplied_schemas_kept wrappedOptional chatRegistry _ "Existing" Hs Hh).
Defined.

(** ** The schema translator *)

Section ZodType_nested.
Variable P : ZodType -> Prop.
Hypothesis HString : forall m, P (ZodString m).
Hypothesis HNumber : forall m, P (ZodNumber m).
Hypothesis HBoolean : forall m, P (ZodBoolean m).
Hypothesis HArray : forall t m, P t -> P (ZodArray t m).
Hypothesis HObject :
  forall shape m, Forall (fun e => P (snd e)) shape -> P (ZodObject shape m).
Hypothesis HEnum : forall values m, P (ZodEnum values m).
Hypothesis HLiteral : forall value m, P (ZodLiteral value m).
Hypothesis HUnion : forall options m, Forall P options -> P (ZodUnion options m).
Hypothesis HDiscriminated :
  forall options m, Forall P options -> P (ZodDiscriminatedUnion options m).
Hypothesis HOptional : forall inner m, P inner -> P (ZodOptional inner m).
Hypothesis HNullable : forall inner m, P inner -> P (ZodNullable inner m).
Hypothesis HDefault : forall inner v m, P inner -> P (ZodDefault inner v m).
Hypothesis HRecord : forall vt m, P vt -> P (ZodRecord vt m).
Hypothesis HOther : forall name m, P (ZodOther name m).

(** Induction over schema nodes that reaches the fields of an object and
    the options of a union. *)
Fixpoint ZodType_nested_ind (schema : ZodType) : P schema :=
  match schema with
  | ZodString m => HString m
  | ZodNumber m => HNumber m
  | ZodBoolean m => HBoolean m
  | ZodArray t m => HArray t m (ZodType_nested_ind t)
  | ZodObject shape m =>
      HObject shape m
        ((fix fields (l : list (string * ZodType)) :
            Forall (fun e => P (snd e)) l :=
            match l with
            | [] => List.Forall_nil _
            | (k, f) :: rest =>
                List.Forall_cons (fun e => P (snd e)) (k, f) rest
                  (ZodType_nested_ind f) (fields rest)
            end) shape)
  | ZodEnum values m => HEnum values m
  | ZodLiteral value m => HLiteral value m
  | ZodUnion options m =>
      HUnion options m
        ((fix opts (l : list ZodType) : Forall P l :=
            match l with
            | [] => List.Forall_nil _
            | o :: rest => List.Forall_cons P o rest (ZodType_nested_ind o) (opts rest)
            end) options)
  | ZodDiscriminatedUnion options m =>
      HDiscriminated options m
        ((fix opts (l : list ZodType) : Forall P l :=
            match l with
            | [] => List.Forall_nil _
            | o :: rest => List.Forall_cons P o rest (ZodType_nested_ind o) (opts rest)
            end) options)
  | ZodOptional inner m => HOptional inner m (ZodType_nested_ind inner)
  | ZodNullable inner m => HNullable inner m (ZodType_nested_ind inner)
  | ZodDefault inner v m => HDefault inner v m (ZodType_nested_ind inner)
  | ZodRecord vt m => HRecord vt m (ZodType_nested_ind vt)
  | ZodOther name m => HOther name m
  end.

End ZodType_nested.

Section translator_more.
Variable isOptional : ZodType -> bool.

Notation gen := (generateSchemaFromZod isOptional).

Lemma get_description_overlay (base : list (string * JSON)) (m : ZodMeta) :
  OMap.get base "description" = None ->
  OMap.get (OMap.set_all base (extractMetadata m)) "description" =
  option_map JStr
    match description m with
    | Some d => if String.eqb d EmptyString then None else Some d
    | None => None
    end.
Proof.
  intros Hb. unfold extractMetadata. destruct (description m) as [d|]; [|exact Hb].
  simpl. destruct (String.eqb d EmptyString); simpl; [exact Hb|].
  apply get_set_eq.
Qed.

Lemma extractMetadata_clean (m : ZodMeta) :
  extractMetadata {| description := description m; openapi := None |} =
  extractMetadata m.
Proof. reflexivity. Qed.

End translator_more.

(** X14. The [description] of a translated node is the description of the
    node itself only for the kinds that overlay their metadata, and only
    when it is not the empty string. A description set on an optional,
    nullable or default wrapper is not emitted (the wrapped node's is), and
    a node of a kind without a case gets none. *)
Theorem X14_description_overlay (isOptional : ZodType -> bool) (schema : ZodType) :
  field "description" (generateSchemaFromZod isOptional schema) =
  option_map JStr (emittedDescription schema).
Proof.
  induction schema as
    [m|m|m|t IH m|shape m|values m|value m|opts m|opts m
    |inner IH m|inner IH m|inner IH dv m|vt IH m|name m];
    cbn [generateSchemaFromZod emittedDescription meta_of field];
    try (apply get_description_overlay; reflexivity).
  - destruct (shapeLoop isOptional (generateSchemaFromZod isOptional) shape [] [])
      as [properties required].
    cbn [field]. apply get_description_overlay.
    destruct (0 <? length required)%nat; reflexivity.
  - exact IH.
  - destruct (generateSchemaFromZod_discriminated isOptional inner)
      as (fields & Hgen & _).
    rewrite Hgen in *. cbn [spread field] in *. rewrite <- IH.
    apply get_set_ne. discriminate.
  - destruct (generateSchemaFromZod_discriminated isOptional inner)
      as (fields & Hgen & _).
    rewrite Hgen in *. cbn [spread field] in *. rewrite <- IH.
    apply get_set_ne. discriminate.
  - reflexivity.
Qed.

(** X15. Wrapping a node in [.nullable()] twice translates like wrapping it
    once. *)
Theorem X15_nullable_twice (isOptional : ZodType -> bool) (S : ZodType)
    (m1 m2 : ZodMeta) :
  generateSchemaFromZod isOptional (ZodNullable (ZodNullable S m1) m2) =
  generateSchemaFromZod isOptional (ZodNullable S m1).
Proof.
  cbn [generateSchemaFromZod spread]. now rewrite set_set.
Qed.

(** X16. In the translation of an object schema, [required] lists the
    names of the non-optional fields, and is absent when there is none.
    Every name it lists is a key of [properties], except the name
    [__proto__], which is never a key of [properties]:
    [properties[key] = ...] creates no property under that name. *)
Theorem X16_required_names_are_properties (isOptional : ZodType -> bool)
    (shape : list (string * ZodType)) (m : ZodMeta) :
  let result := generateSchemaFromZod isOptional (ZodObject shape m) in
  let names := map fst (nonOptionalFields isOptional shape) in
  exists properties,
    field "properties" result = Some (JObj properties) /\
    field "required" result =
      match names with
      | [] => None
      | _ :: _ => Some (JArr (map JStr names))
      end /\
    Forall (fun name => name ∈ OMap.keys properties <-> name <> Obj.proto)
      names /\
    Obj.proto ∉ OMap.keys properties.
Proof.
  cbv zeta. cbn [generateSchemaFromZod]. rewrite shapeLoop_spec.
  cbn [app].
  exists (Obj.assign_all []
            (map (fun e => (fst e, generateSchemaFromZod isOptional (snd e))) shape)).
  cbn [field]. split; [|split; [|split]].
  - rewrite get_over_metadata by discriminate.
    rewrite get_set_all_notin; [reflexivity|].
    destruct (0 <? _)%nat; unfold OMap.keys; simpl; intros H.
    + apply list_elem_of_singleton in H. discriminate.
    + inversion H.
  - rewrite get_over_metadata by discriminate.
    destruct (map fst (nonOptionalFields isOptional shape)); reflexivity.
  - apply Forall_forall. intros name Hin.
    rewrite elem_of_keys_assign_all.
    change (OMap.keys (@nil (string * JSON))) with (@nil string).
    rewrite elem_of_nil. split; [tauto|]. intros Hp. right. split; [|exact Hp].
    unfold OMap.keys. rewrite map_map. cbn [fst].
    apply list_elem_of_In, in_map_iff in Hin as ([k f] & <- & Hin).
    apply list_elem_of_In, in_map_iff. exists (k, f). split; [reflexivity|].
    unfold nonOptionalFields in Hin. apply filter_In in Hin. tauto.
  - apply proto_notin_assign_all.
Qed.

(** X17. [generateSchemaFromZod] does not look at [_def.openapi]: removing
    that metadata from a node and from every node below it leaves the
    translation as it is, given that [isOptional()] does not depend on it
    either. *)
Theorem X17_nested_openapi_ignored (isOptional : ZodType -> bool)
    (schema : ZodType) :
  (forall s, isOptional (withoutOpenapi s) = isOptional s) ->
  generateSchemaFromZod isOptional (withoutOpenapi schema) =
  generateSchemaFromZod isOptional schema.
Proof.
  intros Hopt. induction schema using ZodType_nested_ind;
    cbn [withoutOpenapi generateSchemaFromZod];
    rewrite ?extractMetadata_clean, ?IHschema; try reflexivity.
  - rewrite !shapeLoop_spec.
    assert (Hp :
      map (fun e => (fst e, generateSchemaFromZod isOptional (snd e)))
        (map (fun e => (fst e, withoutOpenapi (snd e))) shape) =
      map (fun e => (fst e, generateSchemaFromZod isOptional (snd e))) shape).
    { rewrite map_map. induction H as [|[k f] rest Hf _ IH]; [reflexivity|].
      cbn [map fst snd] in *. now rewrite Hf, IH. }
    assert (Hr :
      map fst (nonOptionalFields isOptional
                 (map (fun e => (fst e, withoutOpenapi (snd e))) shape)) =
      map fst (nonOptionalFields isOptional shape)).
    { unfold nonOptionalFields. clear Hp H.
      induction shape as [|[k f] rest IH]; [reflexivity|].
      cbn [map List.filter fst snd]. rewrite Hopt.
      destruct (isOptional f); cbn [negb map fst]; now rewrite IH. }
    rewrite Hp, Hr. reflexivity.
  - assert (Hm : map (generateSchemaFromZod isOptional) (map withoutOpenapi options)
                 = map (generateSchemaFromZod isOptional) options).
    { rewrite map_map. induction H as [|o rest Ho _ IH]; [reflexivity|].
      cbn [map]. now rewrite Ho, IH. }
    now rewrite Hm.
  - assert (Hm : map (generateSchemaFromZod isOptional) (map withoutOpenapi options)
                 = map (generateSchemaFromZod isOptional) options).
    { rewrite map_map. induction H as [|o rest Ho _ IH]; [reflexivity|].
      cbn [map]. now rewrite Ho, IH. }
    now rewrite Hm.
Qed.

Lemma X17_nested_openapi_ignored_witness :
  let attached := JObj [("example", JStr "a@b.c")] in
  let tagged :=
    ZodObject
      [("email", ZodString {| description := None; openapi := Some attached |})]
      no_meta in
  (forall s, wrappedOptional (withoutOpenapi s) = wrappedOptional s) /\
  generateSchemaFromZod wrappedOptional (withoutOpenapi tagged) =
  generateSchemaFromZod wrappedOptional tagged.
Proof.
  cbv zeta.
  assert (H : forall s, wrappedOptional (withoutOpenapi s) = wrappedOptional s)
    by (intros s; destruct s; reflexivity).
  split; [exact H|].
  exact (X17_nested_openapi_ignored wrappedOptional _ H).
Defined.

(** ** The text emitter *)

Section JSON_nested.
Variable P : JSON -> Prop.
Hypothesis HUndefined : P JUndefined.
Hypothesis HNull : P JNull.
Hypothesis HBool : forall b, P (JBool b).
Hypothesis HNum : forall n, P (JNum n).
Hypothesis HStr : forall s, P (JStr s).
Hypothesis HArr : forall items, Forall P items -> P (JArr items).
Hypothesis HObj :
  forall fields, Forall (fun e => P (snd e)) fields -> P (JObj fields).

(** Induction over values that reaches the items of an array and the
    fields of an object. *)
Fixpoint JSON_nested_ind (v : JSON) : P v :=
  match v with
  | JUndefined => HUndefined
  | JNull => HNull
  | JBool b => HBool b
  | JNum n => HNum n
  | JStr s => HStr s
  | JArr items =>
      HArr items
        ((fix go (l : list JSON) : Forall P l :=
            match l with
            | [] => List.Forall_nil _
            | x :: rest => List.Forall_cons P x rest (JSON_nested_ind x) (go rest)
            end) items)
  | JObj fields =>
      HObj fields
        ((fix go (l : list (string * JSON)) : Forall (fun e => P (snd e)) l :=
            match l with
            | [] => List.Forall_nil _
            | (k, x) :: rest =>
                List.Forall_cons (fun e => P (snd e)) (k, x) rest
                  (JSON_nested_ind x) (go rest)
            end) fields)
  end.

End JSON_nested.

Lemma convertToYAML_fields_cons (key : string) (value : JSON)
    (rest : list (string * JSON)) (indent : nat) :
  convertToYAML (JObj ((key, value) :: rest)) indent =
  fieldText key value indent +:+ convertToYAML (JObj rest) indent.
Proof. destruct value as [| |b|n|s|items|fields]; reflexivity. Qed.

Lemma convertToYAML_items_cons (item : JSON) (rest : list JSON) (indent : nat) :
  convertToYAML (JArr (item :: rest)) indent =
  itemText item indent +:+ convertToYAML (JArr rest) indent.
Proof. reflexivity. Qed.

Lemma append_nil_r (s : string) : s +:+ EmptyString = s.
Proof. induction s as [|c s IH]; simpl; [reflexivity | now rewrite IH]. Qed.

(** X18. The text of an object is the text of its fields one after the
    other, and the text of an array the text of its items: splitting an
    object's fields (an array's items) in two and emitting the parts at the
    same indentation gives the two halves of the text. *)
Theorem X18_yaml_concatenates (xs ys : list JSON)
    (fs gs : list (string * JSON)) (indent : nat) :
  convertToYAML (JArr (xs ++ ys)) indent =
    convertToYAML (JArr xs) indent +:+ convertToYAML (JArr ys) indent /\
  convertToYAML (JObj (fs ++ gs)) indent =
    convertToYAML (JObj fs) indent +:+ convertToYAML (JObj gs) indent.
Proof.
  split.
  - induction xs as [|x xs IH]; [reflexivity|].
    cbn [app]. rewrite !convertToYAML_items_cons, IH.
    now rewrite append_assoc.
  - induction fs as [|[k v] fs IH]; [reflexivity|].
    cbn [app]. rewrite !convertToYAML_fields_cons, IH.
    now rewrite append_assoc.
Qed.

(** X19. A field whose value is [undefined] leaves no trace in the text,
    wherever it stands among the fields of an object: the text is that of
    the object without such fields. *)
Theorem X19_yaml_omits_undefined_fields (fields : list (string * JSON))
    (indent : nat) :
  convertToYAML (JObj fields) indent =
  convertToYAML (JObj (List.filter (fun e => is_defined (snd e)) fields)) indent.
Proof.
  induction fields as [|[k v] rest IH]; [reflexivity|].
  cbn [List.filter snd]. destruct (is_defined v) eqn:E.
  - rewrite !convertToYAML_fields_cons. now rewrite IH.
  - destruct v; try discriminate E.
    rewrite convertToYAML_fields_cons. exact IH.
Qed.

Lemma ends_with_append (a b suffix : string) :
  Str.ends_with b suffix -> Str.ends_with (a +:+ b) suffix.
Proof.
  intros [front ->]. exists (a +:+ front). now rewrite append_assoc.
Qed.

Lemma lines_append (a b : string) :
  (a = EmptyString \/ Str.ends_with a Str.nl) ->
  (b = EmptyString \/ Str.ends_with b Str.nl) ->
  a +:+ b = EmptyString \/ Str.ends_with (a +:+ b) Str.nl.
Proof.
  intros Ha [->|Hb].
  - now rewrite append_nil_r.
  - right. now apply ends_with_append.
Qed.

Lemma ends_with_nl_line (front : string) : Str.ends_with (front +:+ Str.nl) Str.nl.
Proof. now exists front. Qed.

(** X20. The text the emitter produces is made of whole lines: for every
    value and indentation it is either empty or ends with a line break. *)
Theorem X20_yaml_whole_lines (v : JSON) (indent : nat) :
  convertToYAML v indent = EmptyString \/
  Str.ends_with (convertToYAML v indent) Str.nl.
Proof.
  revert indent. induction v using JSON_nested_ind; intros indent;
    try (left; reflexivity).
  - induction H as [|x rest Hx _ IH]; [left; reflexivity|].
    rewrite convertToYAML_items_cons. apply lines_append; [|exact IH].
    right. unfold itemText. destruct (is_object x).
    + destruct (Hx (S indent)) as [->|Hn].
      * rewrite append_nil_r.
        replace (Str.repeat "  " indent +:+ "-" +:+ Str.nl)
          with ((Str.repeat "  " indent +:+ "-") +:+ Str.nl)
          by apply append_assoc.
        apply ends_with_nl_line.
      * now do 3 apply ends_with_append.
    + do 2 apply ends_with_append. apply ends_with_nl_line.
  - induction H as [|[k x] rest Hx _ IH]; [left; reflexivity|].
    rewrite convertToYAML_fields_cons. apply lines_append; [|exact IH].
    assert (Hnested :
      Str.ends_with
        (Str.repeat "  " indent +:+ k +:+ ":" +:+ Str.nl
         +:+ convertToYAML x (S indent)) Str.nl).
    { cbn [snd] in Hx. destruct (Hx (S indent)) as [->|Hn].
      - rewrite append_nil_r. do 2 apply ends_with_append.
        exists ":". reflexivity.
      - now do 4 apply ends_with_append. }
    destruct x as [| |b|n|s|items|fields]; cbn [fieldText];
      try (now left); try (right; exact Hnested);
      right; repeat apply ends_with_append;
      try apply ends_with_nl_line; try (exists EmptyString; reflexivity).
Qed.

(** ** The server helpers *)

Lemma orDefault_nonempty (description : option string) (fallback : string) :
  fallback <> EmptyString -> orDefault description fallback <> EmptyString.
Proof.
  intros Hf. unfold orDefault. destruct description as [d|]; [|exact Hf].
  simpl. destruct (String.eqb d EmptyString) eqn:E; simpl; [exact Hf|].
  now apply String.eqb_neq in E.
Qed.

Lemma orDefault_given (d fallback : string) :
  d <> EmptyString -> orDefault (Some d) fallback = d.
Proof.
  intros Hd. unfold orDefault. simpl.
  apply String.eqb_neq in Hd. now rewrite Hd.
Qed.

(** X21. The [ws] entry of [createUnifiedServers] is the server
    [createWebSocketServer] makes for the same host and description when
    the protocol is [ws]. For [wss] it is the server
    [createSecureWebSocketServer] makes exactly when a non-empty
    description is given: the default description it falls back to is the
    one of the plain helper. In all three a description is never empty. *)
Theorem X21_unified_servers_and_helpers (host : string)
    (description : option string) (h : option HttpServerConfig) :
  let unified p :=
    OMap.get
      (snd (createUnifiedServers
              {| http := h;
                 ws := Some {| ws_host := host; ws_protocol := p;
                               ws_description := description |} |}))
      "default" in
  unified Ws = Some (createWebSocketServer host description) /\
  (unified Wss = Some (createSecureWebSocketServer host description) <->
   exists d, description = Some d /\ d <> EmptyString) /\
  (forall p, exists d,
     option_map (field "description") (unified p) = Some (Some (JStr d)) /\
     d <> EmptyString).
Proof.
  cbv zeta. unfold createUnifiedServers, createWebSocketServer,
    createSecureWebSocketServer. cbn [snd ws ws_host ws_protocol ws_description
                                      OMap.set OMap.get protocol_name].
  cbn [String.eqb Ascii.eqb Bool.eqb andb]. split; [reflexivity|]. split.
  - split.
    + intros H. injection H as H.
      destruct description as [d|].
      * exists d. split; [reflexivity|]. intros ->. discriminate H.
      * discriminate H.
    + intros (d & -> & Hd). now rewrite !orDefault_given.
  - intros p. eexists. split; [reflexivity|].
    apply orDefault_nonempty. discriminate.
Qed.

(** ** Handlers, mounting and shared registries *)

Lemma map_set {V W : Type} (f : V -> W) (m : list (string * V)) (k : string) (v : V) :
  map (fun e => (fst e, f (snd e))) (OMap.set m k v) =
  OMap.set (map (fun e => (fst e, f (snd e))) m) k (f v).
Proof.
  induction m as [|[k' v'] m IH]; simpl; [reflexivity|].
  destruct (String.eqb k' k); simpl; [reflexivity | now rewrite IH].
Qed.

Lemma withoutHandlers_registerChannel (id : string) (cfg : ChannelConfig)
    (h h' : option ChannelHandler) (r : Registry) :
  withoutHandlers (registerChannel id cfg h r) =
  withoutHandlers (registerChannel id cfg h' r).
Proof.
  unfold withoutHandlers, registerChannel.
  destruct (allocate Send id cfg (operationCounter r)) as [s c1].
  destruct (allocate Receive id cfg c1) as [rcv c2].
  cbn [channels operationCounter]. now rewrite !(map_set withoutHandler).
Qed.

Lemma generateLoop_withoutHandlers (isOptional : ZodType -> bool)
    (entries : list (string * RegisteredChannel)) (st : GenState) :
  generateLoop isOptional
    (map (fun e => (fst e, withoutHandler (snd e))) entries) st =
  generateLoop isOptional entries st.
Proof.
  revert st. induction entries as [|[id reg] rest IH]; intros st; [reflexivity|].
  unfold generateLoop in *. cbn [map fold_left fst snd]. rewrite IH.
  reflexivity.
Qed.

Lemma generate_withoutHandlers (isOptional : ZodType -> bool) (r : Registry)
    (options : GeneratorOptions) :
  generateAsyncAPIDocument isOptional (withoutHandlers r) options =
  generateAsyncAPIDocument isOptional r options.
Proof.
  unfold generateAsyncAPIDocument, getAllChannels, withoutHandlers.
  cbn [channels]. now rewrite generateLoop_withoutHandlers.
Qed.

(** X22. The handlers stored in a registry have no part in the document:
    generating from a registry and from the same registry with all
    handlers removed gives the same result, and so does registering a
    channel with one handler, another, or none. *)
Theorem X22_document_ignores_handlers (isOptional : ZodType -> bool)
    (r : Registry) (options : GeneratorOptions) (id : string)
    (cfg : ChannelConfig) (h h' : option ChannelHandler) :
  generateAsyncAPIDocument isOptional (withoutHandlers r) options =
    generateAsyncAPIDocument isOptional r options /\
  generateAsyncAPIDocument isOptional (registerChannel id cfg h r) options =
    generateAsyncAPIDocument isOptional (registerChannel id cfg h' r) options.
Proof.
  split; [apply generate_withoutHandlers|].
  rewrite <- (generate_withoutHandlers isOptional (registerChannel id cfg h r)).
  rewrite <- (generate_withoutHandlers isOptional (registerChannel id cfg h' r)).
  now rewrite (withoutHandlers_registerChannel id cfg h h').
Qed.

Lemma uniqueKeys_merge (other this : Registry) :
  uniqueKeys this -> uniqueKeys (merge other this).
Proof. unfold uniqueKeys. simpl. apply NoDup_keys_set_all. Qed.

Lemma uniqueKeys_registerChannel (id : string) (cfg : ChannelConfig)
    (h : option ChannelHandler) (r : Registry) :
  uniqueKeys r -> uniqueKeys (registerChannel id cfg h r).
Proof.
  unfold uniqueKeys, registerChannel.
  destruct (allocate Send id cfg (operationCounter r)) as [s c1].
  destruct (allocate Receive id cfg c1) as [rcv c2]. simpl.
  apply NoDup_keys_set.
Qed.

(** X23. After [app.route(path, sub)] the document of [app] shows every
    channel of [sub] with the address of [sub]'s own configuration, the
    mount path is not put in front of it; a channel id that both have
    shows [sub]'s address, and a channel only [app] has keeps its own. The
    id [__proto__] is the exception: no document has a channel under it. *)
Theorem X23_route_takes_over_channels (isOptional : ZodType -> bool)
    (mount : string) (sub app : AsyncAPIHono) (st : Store)
    (options : option PartialOptions) (id : string) :
  uniqueKeys (st !!! asyncAPIRegistry app) ->
  uniqueKeys (st !!! asyncAPIRegistry sub) ->
  let mounted := route mount sub app st in
  let document :=
    fst (fst (getAsyncAPIDocument isOptional (fst mounted) options (snd mounted))) in
  option_map (field "address") (OMap.get (doc_channels document) id) =
  if String.eqb id Obj.proto then None
  else match getChannel id (st !!! asyncAPIRegistry sub) with
       | Some e => Some (Some (JStr (path (config e))))
       | None =>
           option_map (fun e => Some (JStr (path (config e))))
             (getChannel id (st !!! asyncAPIRegistry app))
       end.
Proof.
  intros Ha Hs. cbv zeta.
  unfold getAsyncAPIDocument, generate, route.
  cbn [fst snd asyncAPIRegistry exec].
  rewrite lookup_total_insert_eq.
  rewrite doc_channels_lookup by (now apply uniqueKeys_merge).
  destruct (String.eqb id Obj.proto); [reflexivity|].
  unfold getChannel, merge, getAllChannels. cbn [channels].
  rewrite get_set_all_unique by exact Hs.
  now destruct (OMap.get (channels (st !!! asyncAPIRegistry sub)) id).
Qed.

Lemma X23_route_takes_over_channels_witness :
  let st := run [CallRegisterChannel 1 "chat" (sendOnly "/chat/:roomId") None] ∅ in
  let app := newAsyncAPIHono 0 None None in
  let sub := newAsyncAPIHono 1 None None in
  let mounted := route "/api" sub app st in
  uniqueKeys (st !!! asyncAPIRegistry app) /\
  uniqueKeys (st !!! asyncAPIRegistry sub) /\
  option_map (field "address")
    (OMap.get
       (doc_channels
          (fst (fst (getAsyncAPIDocument wrappedOptional (fst mounted) None
                       (snd mounted))))) "chat")
  = Some (Some (JStr "/chat/:roomId")).
Proof.
  cbv zeta.
  assert (Ha : uniqueKeys
                 (run [CallRegisterChannel 1 "chat" (sendOnly "/chat/:roomId") None]
                    ∅ !!! asyncAPIRegistry (newAsyncAPIHono 0 None None))).
  { unfold uniqueKeys. apply (bool_decide_unpack _). vm_compute. exact I. }
  assert (Hs : uniqueKeys
                 (run [CallRegisterChannel 1 "chat" (sendOnly "/chat/:roomId") None]
                    ∅ !!! asyncAPIRegistry (newAsyncAPIHono 1 None None))).
  { unfold uniqueKeys. apply (bool_decide_unpack _). vm_compute. exact I. }
  split; [exact Ha|]. split; [exact Hs|].
  exact (X23_route_takes_over_channels wrappedOptional "/api"
           (newAsyncAPIHono 1 None None) (newAsyncAPIHono 0 None None) _ None
           "chat" Ha Hs).
Defined.

(** X24. An application made by [basePath] works on the registry of the
    application it was made from: a channel registered on it under an id
    other than [__proto__] is in the document of the original application,
    under its id and with the address of its configuration (under the id
    [__proto__] no document has a channel); both applications give the
    same document; and the route of the handler is added to the new
    application only. *)
Theorem X24_basePath_shares_registry (isOptional : ZodType -> bool)
    (prefix id : string) (cfg : ChannelConfig) (h : option ChannelHandler)
    (app : AsyncAPIHono) (st : Store) (options : option PartialOptions) :
  uniqueKeys (st !!! asyncAPIRegistry app) ->
  let child := channel id cfg h (basePath prefix app) st in
  let document :=
    fst (fst (getAsyncAPIDocument isOptional app options (snd child))) in
  option_map (field "address") (OMap.get (doc_channels document) id) =
    (if String.eqb id Obj.proto then None
     else Some (Some (JStr (path cfg)))) /\
  fst (getAsyncAPIDocument isOptional (fst child) options (snd child)) =
    fst (getAsyncAPIDocument isOptional app options (snd child)) /\
  hono (fst child) =
    match h with
    | Some _ => [HonoGet (path cfg) UpgradeHandler]
    | None => []
    end.
Proof.
  intros Hnd. cbv zeta. split; [|split].
  - unfold getAsyncAPIDocument, generate, channel, basePath.
    cbn [fst snd asyncAPIRegistry exec]. rewrite lookup_total_insert_eq.
    rewrite doc_channels_lookup by (now apply uniqueKeys_registerChannel).
    now rewrite registerChannel_entry.
  - unfold getAsyncAPIDocument, channel, basePath.
    destruct h; reflexivity.
  - unfold channel, basePath. destruct h; reflexivity.
Qed.

Lemma X24_basePath_shares_registry_witness :
  let app := newAsyncAPIHono 0 None None in
  uniqueKeys ((∅ : Store) !!! asyncAPIRegistry app) /\
  option_map (field "address")
    (OMap.get
       (doc_channels
          (fst (fst (getAsyncAPIDocument wrappedOptional app None
                       (snd (channel "chat" (sendOnly "/chat/:roomId") (Some 7)
                               (basePath "/v1" app) ∅)))))) "chat")
  = Some (Some (JStr "/chat/:roomId")).
Proof.
  cbv zeta.
  assert (H : uniqueKeys ((∅ : Store) !!! asyncAPIRegistry (newAsyncAPIHono 0 None None))).
  { unfold uniqueKeys. apply (bool_decide_unpack _). vm_compute. exact I. }
  split; [exact H|].
  exact (proj1 (X24_basePath_shares_registry wrappedOptional "/v1" "chat"
                  (sendOnly "/chat/:roomId") (Some 7)
                  (newAsyncAPIHono 0 None None) ∅ None H)).
Defined.

Example ex_upgrade_header_is_compared_exactly :
  map upgradeResponse [None; Some "WebSocket"; Some "websocket"] =
  [("Expected WebSocket connection", 400%nat);
   ("Expected WebSocket connection", 400%nat);
   ("WebSocket endpoint - upgrade required", 426%nat)].
Proof. reflexivity. Qed.

(** ** One operation and one message per registered direction *)

Lemma append_same_length_tail (a b s t : string) :
  String.length s = String.length t ->
  a +:+ s = b +:+ t -> a = b /\ s = t.
Proof.
  intros Hl. revert b. induction a as [|x a IH]; intros [|y b]; simpl; intros E.
  - auto.
  - apply (f_equal String.length) in E. simpl in E.
    rewrite length_append in E. lia.
  - apply (f_equal String.length) in E. simpl in E.
    rewrite length_append in E. lia.
  - injection E as -> E. destruct (IH _ E) as [-> ->]. auto.
Qed.

Lemma messageKeyOf_inj (id id' : string) (d d' : Direction) :
  messageKeyOf id d = messageKeyOf id' d' -> id = id' /\ d = d'.
Proof.
  unfold messageKeyOf. destruct d, d'; cbn [direction_name]; intros E.
  - apply (append_same_length_tail id id' "_send_message" "_send_message") in E;
      [tauto | reflexivity].
  - exfalso.
    change (id +:+ "_" +:+ "send" +:+ "_message")
      with (id +:+ ("_sen" +:+ "d_message")) in E.
    change (id' +:+ "_" +:+ "receive" +:+ "_message")
      with (id' +:+ ("_receiv" +:+ "e_message")) in E.
    rewrite <- !append_assoc in E.
    apply append_same_length_tail in E; [|reflexivity].
    destruct E as [_ E]. discriminate E.
  - exfalso.
    change (id' +:+ "_" +:+ "send" +:+ "_message")
      with (id' +:+ ("_sen" +:+ "d_message")) in E.
    change (id +:+ "_" +:+ "receive" +:+ "_message")
      with (id +:+ ("_receiv" +:+ "e_message")) in E.
    rewrite <- !append_assoc in E.
    apply append_same_length_tail in E; [|reflexivity].
    destruct E as [_ E]. discriminate E.
  - apply (append_same_length_tail id id' "_receive_message" "_receive_message")
      in E; [tauto | reflexivity].
Qed.

Section counting_facts.
Variable isOptional : ZodType -> bool.

Lemma elem_of_keys_directionMessageWrites (d : Direction) (id : string)
    (reg : RegisteredChannel) (c : nat) (k : string) :
  k ∈ OMap.keys (directionMessageWrites isOptional d id reg c) ->
  k = messageKeyOf id d.
Proof.
  unfold directionMessageWrites. destruct (handled d reg) as [[m op]|];
    cbn; intros H; [now apply list_elem_of_singleton in H | inversion H].
Qed.

Lemma NoDup_keys_directionMessageWrites (d : Direction) (id : string)
    (reg : RegisteredChannel) (c : nat) :
  NoDup (OMap.keys (directionMessageWrites isOptional d id reg c)).
Proof.
  unfold directionMessageWrites. destruct (handled d reg) as [[m op]|]; cbn.
  - apply NoDup_singleton.
  - apply NoDup_nil_2.
Qed.

Lemma elem_of_keys_loopMessageWrites
    (entries : list (string * RegisteredChannel)) (c : nat) (k : string) :
  k ∈ OMap.keys (loopMessageWrites isOptional entries c) ->
  exists id d, id ∈ OMap.keys entries /\ k = messageKeyOf id d.
Proof.
  revert c. induction entries as [|[id reg] rest IH]; intros c.
  - intros H. inversion H.
  - cbn [loopMessageWrites]. unfold OMap.keys. rewrite !map_app, !elem_of_app.
    cbn [map fst]. intros [H|[H|H]].
    + apply elem_of_keys_directionMessageWrites in H.
      exists id, Send. split; [left | assumption].
    + apply elem_of_keys_directionMessageWrites in H.
      exists id, Receive. split; [left | assumption].
    + destruct (IH _ H) as (id' & d & Hin & ->).
      exists id', d. split; [now right | reflexivity].
Qed.

Lemma NoDup_keys_loopMessageWrites
    (entries : list (string * RegisteredChannel)) (c : nat) :
  NoDup (OMap.keys entries) ->
  NoDup (OMap.keys (loopMessageWrites isOptional entries c)).
Proof.
  revert c. induction entries as [|[id reg] rest IH]; intros c Hnd.
  - apply NoDup_nil_2.
  - unfold OMap.keys in Hnd. cbn [map fst] in Hnd.
    apply NoDup_cons in Hnd as [Hid Hnd].
    cbn [loopMessageWrites]. unfold OMap.keys. rewrite !map_app.
    apply NoDup_app. split; [apply NoDup_keys_directionMessageWrites|].
    split.
    + intros k Hk Hk'. apply elem_of_keys_directionMessageWrites in Hk.
      apply elem_of_app in Hk' as [Hk'|Hk'].
      * apply elem_of_keys_directionMessageWrites in Hk'. rewrite Hk in Hk'.
        apply messageKeyOf_inj in Hk' as [_ Hd]. discriminate Hd.
      * apply elem_of_keys_loopMessageWrites in Hk' as (id' & d' & Hin & Hk').
        rewrite Hk in Hk'. apply messageKeyOf_inj in Hk' as [-> _].
        contradiction.
    + apply NoDup_app. split; [apply NoDup_keys_directionMessageWrites|].
      split; [|now apply IH].
      intros k Hk Hk'. apply elem_of_keys_directionMessageWrites in Hk.
      apply elem_of_keys_loopMessageWrites in Hk' as (id' & d' & Hin & Hk').
      rewrite Hk in Hk'. apply messageKeyOf_inj in Hk' as [-> _].
      contradiction.
Qed.

Lemma length_loopMessageWrites (entries : list (string * RegisteredChannel))
    (c : nat) :
  length (loopMessageWrites isOptional entries c) = loopCount entries.
Proof.
  revert c. induction entries as [|[id reg] rest IH]; intros c; [reflexivity|].
  cbn [loopMessageWrites]. rewrite !length_app, IH, loopCount_cons.
  unfold directionMessageWrites, handledCount.
  destruct (handled Send reg) as [[? ?]|], (handled Receive reg) as [[? ?]|];
    simpl; lia.
Qed.

Lemma length_loopOperationWrites (entries : list (string * RegisteredChannel)) :
  length (loopOperationWrites entries) = loopCount entries.
Proof.
  unfold loopOperationWrites.
  induction entries as [|[id reg] rest IH]; [reflexivity|].
  cbn [flat_map fst snd]. rewrite !length_app, IH, loopCount_cons.
  unfold directionOperationWrites, handledCount.
  destruct (handled Send reg) as [[? ?]|], (handled Receive reg) as [[? ?]|];
    simpl; lia.
Qed.

End counting_facts.

(** X25. For every registry built by registry calls, and options that
    supply no messages of their own, the generated document has one
    operation and one message for each direction of each registered
    channel, no more and no fewer: no two of them fall on the same key. *)
Theorem X25_one_operation_and_message_per_direction
    (isOptional : ZodType -> bool) (cs : list Call) (l : nat)
    (options : GeneratorOptions) :
  g_messages (initialState options) = [] ->
  let registry := run cs ∅ !!! l in
  let document := fst (generateAsyncAPIDocument isOptional registry options) in
  let built := length (processedMessages (getAllChannels registry)) in
  length (doc_operations document) = built /\
  length (generatedMessages isOptional registry options) = built /\
  NoDup (OMap.keys (generatedMessages isOptional registry options)).
Proof.
  intros Hm. cbv zeta.
  destruct (registryInv_reachable cs l) as [Hkeys _].
  assert (Hops : NoDup (OMap.keys
                          (loopOperationWrites (getAllChannels (run cs ∅ !!! l))))).
  { rewrite (keys_loopOperationWrites (getAllChannels (run cs ∅ !!! l))
               (allAligned_reachable cs l)).
    apply (registryInv_NoDup (run cs ∅ !!! l)), registryInv_reachable. }
  assert (Hmsgs : NoDup (OMap.keys
                           (loopMessageWrites isOptional
                              (getAllChannels (run cs ∅ !!! l)) 0)))
    by (apply NoDup_keys_loopMessageWrites; exact Hkeys).
  rewrite doc_operations_spec, generatedMessages_spec, Hm.
  rewrite assign_all_plain.
  2:{ rewrite (keys_loopOperationWrites (getAllChannels (run cs ∅ !!! l))
                 (allAligned_reachable cs l)).
      apply (operationIds_plain (run cs ∅ !!! l)), registryInv_reachable. }
  rewrite !set_all_fresh_keys;
    try assumption; try (intros k _ H; inversion H).
  cbn [app]. rewrite length_loopOperationWrites, length_loopMessageWrites.
  repeat split; try reflexivity. exact Hmsgs.
Qed.

Lemma X25_one_operation_and_message_per_direction_witness :
  let cs := [CallRegisterChannel 0 "ping"
               (channelWith "/ping"
                  (Some (messageWith (Some messagePayload) None))
                  (Some (messageWith (Some messagePayload) None))) None] in
  g_messages (initialState plainOptions) = [] /\
  length (doc_operations
            (fst (generateAsyncAPIDocument wrappedOptional (run cs ∅ !!! 0)
                    plainOptions))) = 2%nat.
Proof.
  cbv zeta.
  assert (H : g_messages (initialState plainOptions) = []) by reflexivity.
  split; [exact H|].
  exact (proj1 (X25_one_operation_and_message_per_direction wrappedOptional
                  [CallRegisterChannel 0 "ping"
                     (channelWith "/ping"
                        (Some (messageWith (Some messagePayload) None))
                        (Some (messageWith (Some messagePayload) None))) None]
                  0 plainOptions H)).
Defined.
